(** * The decoding loop of lit-stablelm ([generate.py]), embedded in Rocq

    [generate] is a Python function over torch tensors.  It allocates an
    output buffer, copies the prompt into it, and then runs a [for] loop
    that calls the model, post-processes the last-position logits, draws one
    token from the process-wide random generator and writes it into the
    buffer, returning early when the end-of-sequence token is drawn.

    The embedding keeps what the code touches:
    - a store of one-dimensional tensor storages ([heap]), addressed through
      views ([tensor]: storage, offset, size), so that the prompt of the
      caller and the output buffer are different objects;
    - the random generator state ([rng]), threaded through every draw;
    - a log of the calls made to the model and to the sampler ([trace]),
      which is instrumentation only: no definition ever reads it;
    - exceptions, as the [Raise] outcome of a state-and-error monad.

    Numbers.  Token ids and the integer parameters are [Z]; sizes and
    positions are [nat].  The logits the model returns and the temperature
    are finite floating-point numbers, hence rationals ([Q]).  What the code
    computes from them is a floating-point value ([score]): a finite value,
    an infinity or a NaN.  The comparisons of lines 58 and 59 are exact on
    such values and are defined here.  The two operations that round,
    overflow and underflow, the division of line 54 and the softmax of line
    61, depend on the dtype and the device; they are parameters
    ([numerics]), and a theorem that needs a property of them states it as a
    hypothesis. *)

From Stdlib Require Import ZArith QArith String Lia Lqa Permutation Sorted.
From stdpp Require Import base option list gmap.

Local Open Scope Z_scope.
Local Open Scope nat_scope.

(** ** Exceptions and outcomes *)

Inductive exn : Type :=
  | RuntimeError (msg : string)
  | IndexError (msg : string).

Inductive result (A : Type) : Type :=
  | Ok (a : A)
  | Raise (e : exn).
Arguments Ok {A} a.
Arguments Raise {A} e.

(** The exceptions torch raises in [generate]. *)
Definition err_negative_dimension : exn :=
  RuntimeError "Trying to create tensor with negative dimension".
Definition err_expand : exn :=
  RuntimeError "The expanded size of the tensor must match the existing size".
Definition err_index : exn :=
  IndexError "index is out of bounds".
Definition err_topk : exn :=
  RuntimeError "selected index k out of range".
Definition err_multinomial : exn :=
  RuntimeError "invalid multinomial distribution".

Definition is_ok {A} (r : result A) : bool :=
  match r with Ok _ => true | Raise _ => false end.

Definition result_bind {A B} (r : result A) (k : A → result B) : result B :=
  match r with Ok a => k a | Raise e => Raise e end.

(** ** Tensors: views over storages *)

Definition loc := positive.

(** A one-dimensional tensor is a window [offset, offset + size) into a
    storage; slicing makes a new view over the same storage. *)
Record tensor : Type := Tensor { storage : loc; offset : nat; size : nat }.

(** [v[:n]] for [0 <= n]. *)
Definition slice_to (v : tensor) (n : nat) : tensor :=
  Tensor (storage v) (offset v) (Nat.min n (size v)).

(** [v[s:]] with Python's rule for the start index: a negative [s] counts
    from the end and is clamped at 0, a non-negative [s] is clamped at the
    size.  [v[-m:]] is [slice_from v (- m)], and [-0] is [0]. *)
Definition slice_start (len : nat) (s : Z) : nat :=
  if (s <? 0)%Z then Z.to_nat (Z.max (Z.of_nat len + s) 0)
  else Nat.min (Z.to_nat s) len.

Definition slice_from (v : tensor) (s : Z) : tensor :=
  let k := slice_start (size v) s in
  Tensor (storage v) (offset v + k) (size v - k).

(** The same slice on a list of values. *)
Definition drop_from (s : Z) (l : list Z) : list Z :=
  drop (slice_start (length l) s) l.

(** ** Floating-point values *)

(** A value of a floating-point tensor.  Every finite float is a rational;
    the sign of a zero is not kept, as no operation below tells [-0.0] from
    [0.0]. *)
Inductive score : Type :=
  | Fin (q : Q)
  | PosInf
  | NegInf
  | NaN.

Definition Qltb (x y : Q) : bool := negb (Qle_bool y x).

(** [x < y] on floats: false as soon as one side is a NaN. *)
Definition score_lt (x y : score) : bool :=
  match x, y with
  | Fin a, Fin b => Qltb a b
  | Fin _, PosInf => true
  | NegInf, Fin _ => true
  | NegInf, PosInf => true
  | _, _ => false
  end.

(** The order in which [torch.topk] ranks values: as [torch.sort] does, it
    takes a NaN to be larger than every number. *)
Definition topk_ge (x y : score) : bool :=
  match x, y with
  | NaN, _ => true
  | _, NaN => false
  | _, _ => negb (score_lt x y)
  end.

(** Descending insertion sort: the order in which [torch.topk] returns its
    values. *)
Fixpoint insert_desc (x : score) (l : list score) : list score :=
  match l with
  | [] => [x]
  | y :: l' => if topk_ge x y then x :: l else y :: insert_desc x l'
  end.

Definition sort_desc (l : list score) : list score := foldr insert_desc [] l.

Definition Qsum (l : list Q) : Q := foldr Qplus 0%Q l.

(** The finite entries of a tensor. *)
Definition finite_part (l : list score) : list Q :=
  omap (λ s, match s with Fin q => Some q | _ => None end) l.

(** The floating-point operations of [generate] whose results depend on the
    dtype of the logits and on the device. *)
Record numerics : Type := Numerics {
  (** One entry of [logits / temperature] (line 54): the quotient as the
      tensor library rounds it, an infinity when it overflows or the divisor
      is a zero, a NaN for [0 / 0]. *)
  divide : Q → Q → score;
  (** [torch.nn.functional.softmax(logits, dim=-1)] (line 61). *)
  softmax : list score → list score
}.

(** ** Events of a run *)

Inductive event : Type :=
  | Scored (ctx : list Z)
  | Sampled (probs : list score) (tok : Z).

(** The contexts given to the model, and the tokens drawn, in order. *)
Definition contexts (evs : list event) : list (list Z) :=
  omap (λ e, match e with Scored c => Some c | _ => None end) evs.

Definition samples (evs : list event) : list Z :=
  omap (λ e, match e with Sampled _ x => Some x | _ => None end) evs.

(** ** The state a run works on *)

Record world (rng_state : Type) : Type := World {
  heap : gmap loc (list Z);
  rng : rng_state;
  trace : list event
}.
Arguments World {rng_state} heap rng trace.
Arguments heap {rng_state} w.
Arguments rng {rng_state} w.
Arguments trace {rng_state} w.

(** The model maps a context to one row of logits per position (batch size
    one), or raises. *)
Definition scorer : Type := list Z → result (list (list Q)).

Section Decoder.

(** The state of the random generator, and [torch.multinomial] with
    [num_samples=1] on a distribution it accepts: it returns one index and
    the next generator state. *)
Context {rng_state : Type}.
Variable multinomial : rng_state → list score → Z * rng_state.

(** The division and the softmax. *)
Variable fp : numerics.

(** What a freshly allocated storage holds at each position
    ([torch.empty] does not initialise it). *)
Variable uninit : nat → Z.

#[local] Abbreviation world := (world rng_state).

(** *** The monad *)

Definition M (A : Type) : Type := world → result A * world.

#[local] Instance M_ret : MRet M := λ A a w, (Ok a, w).
#[local] Instance M_bind : MBind M := λ A B k m w,
  match m w with
  | (Ok a, w') => k a w'
  | (Raise e, w') => (Raise e, w')
  end.

Definition lift {A} (r : result A) : M A := λ w, (r, w).

Definition log (e : event) : M unit :=
  λ w, (Ok (), World (heap w) (rng w) (trace w ++ [e])).

(** *** Tensor primitives *)

Definition contents (h : gmap loc (list Z)) (l : loc) : list Z :=
  default [] (h !! l).

(** The values seen through a view. *)
Definition read (h : gmap loc (list Z)) (v : tensor) : list Z :=
  take (size v) (drop (offset v) (contents h (storage v))).

Definition set_heap (h : gmap loc (list Z)) (w : world) : world :=
  World h (rng w) (trace w).

(** [torch.empty(n, ...)]: a negative size raises; otherwise a new storage
    is allocated, with whatever the memory holds. *)
Definition torch_empty (n : Z) : M tensor := λ w,
  if (n <? 0)%Z then
    (Raise err_negative_dimension, w)
  else
    let l := fresh (dom (heap w)) in
    let buf := uninit <$> seq 0 (Z.to_nat n) in
    (Ok (Tensor l 0 (Z.to_nat n)), set_heap (<[l := buf]> (heap w)) w).

(** Overwrite [buf] from position [off] on with [vals]. *)
Definition write_at (off : nat) (vals buf : list Z) : list Z :=
  take off buf ++ vals ++ drop (off + length vals) buf.

(** [dst[...] = src] for one-dimensional tensors: the sizes must agree,
    except that a source of size 1 is broadcast to any size (also to 0). *)
Definition copy_ (dst src : tensor) : M unit := λ w,
  let vals := read (heap w) src in
  if decide (size src = size dst) then
    (Ok (), set_heap (alter (write_at (offset dst) vals) (storage dst) (heap w)) w)
  else if decide (size src = 1) then
    let vals' := replicate (size dst) (List.hd 0%Z vals) in
    (Ok (), set_heap (alter (write_at (offset dst) vals') (storage dst) (heap w)) w)
  else
    (Raise err_expand, w).

(** [dst[i] = x] for [0 <= i]. *)
Definition setitem (dst : tensor) (i : nat) (x : Z) : M unit := λ w,
  if decide (i < size dst) then
    (Ok (), set_heap (alter (λ buf, <[offset dst + i := x]> buf) (storage dst)
        (heap w)) w)
  else
    (Raise err_index, w).

(** [v.view(1, -1)]: the same values as one row.  The size [-1] stands for
    is the number of elements divided by 1, also for a tensor without
    elements, whose view has shape [(1, 0)]: nothing raises. *)
Definition view_1_m1 (v : tensor) : M (list Z) := λ w,
  (Ok (read (heap w) v), w).

(** *** The model *)

Definition call_model (model : scorer) (ctx : list Z) : M (list (list Q)) :=
  log (Scored ctx);; lift (model ctx).

(** *** Logits to probabilities *)

(** [logits[0, -1]] *)
Definition last_row (rows : list (list Q)) : result (list Q) :=
  match last rows with
  | Some r => Ok r
  | None => Raise err_index
  end.

(** [logits / temperature].  A division by [0.0], or one that overflows,
    raises nothing: the entry is an infinity or a NaN. *)
Definition div_temperature (logits : list Q) (temperature : Q) : list score :=
  (λ x, divide fp x temperature) <$> logits.

(** [torch.topk(x, k)]: the [k] largest values, largest first. *)
Definition torch_topk (x : list score) (k : Z) : result (list score) :=
  if ((k <? 0) || (Z.of_nat (length x) <? k))%Z then
    Raise err_topk
  else Ok (take (Z.to_nat k) (sort_desc x)).

(** [v[[-1]]] *)
Definition last_value (v : list score) : result score :=
  match last v with
  | Some x => Ok x
  | None => Raise err_index
  end.

(** [logits[logits < c] = -float("Inf")] *)
Definition mask_below (c : score) (logits : list score) : list score :=
  (λ x, if score_lt x c then NegInf else x) <$> logits.

(** Lines 57 to 59. *)
Definition crop_top_k (logits : list score) (top_k : option Z)
    : result (list score) :=
  match top_k with
  | Some k =>
      result_bind (torch_topk logits (Z.min k (Z.of_nat (length logits)))) (λ v,
      result_bind (last_value v) (λ c,
      Ok (mask_below c logits)))
  | None => Ok logits
  end.

(** What [torch.multinomial] accepts: at least one category, every entry
    finite and not negative, a positive sum.  (The sum it tests is computed
    in floating point; for finite entries that are not negative it is
    positive exactly when the sum of their values is.) *)
Definition valid_distribution (probs : list score) : bool :=
  negb (Nat.eqb (length probs) 0)
  && forallb (λ p, match p with Fin q => Qle_bool 0 q | _ => false end) probs
  && Qltb 0 (Qsum (finite_part probs)).

(** [torch.multinomial(probs, num_samples=1)], drawing from the shared
    generator. *)
Definition torch_multinomial (probs : list score) : M Z := λ w,
  if valid_distribution probs then
    let '(i, g) := multinomial (rng w) probs in
    (Ok i, World (heap w) g (trace w ++ [Sampled probs i]))
  else
    (Raise err_multinomial, w).

(** [idx_next == eos_id]; nothing equals [None]. *)
Definition is_eos (idx_next : Z) (eos_id : option Z) : bool :=
  match eos_id with
  | Some e => (idx_next =? e)%Z
  | None => false
  end.

(** *** [generate] *)

Section Loop.

Variable model : scorer.
(** [idx] is the output buffer here, [T] the length of the prompt. *)
Variable idx : tensor.
Variable T : nat.
Variable max_seq_length : Z.
Variable temperature : Q.
Variable top_k : option Z.
Variable eos_id : option Z.

(** Lines 48 to 50: the view of the buffer given to the model at step [t]. *)
Definition context (t : nat) : tensor :=
  let idx_cond := slice_to idx t in
  if (Z.of_nat T <=? max_seq_length)%Z then idx_cond
  else slice_from idx_cond (- max_seq_length).

(** Lines 54 to 61. *)
Definition next_token_probs (rows : list (list Q)) : result (list score) :=
  result_bind (last_row rows) (λ logits,
  let logits := div_temperature logits temperature in
  result_bind (crop_top_k logits top_k) (λ logits,
  Ok (softmax fp logits))).

(** One iteration of the loop; [Some] is an early [return]. *)
Definition loop_body (t : nat) : M (option tensor) :=
  let idx_cond := context t in
  ctx ← view_1_m1 idx_cond;
  rows ← call_model model ctx;
  probs ← lift (next_token_probs rows);
  idx_next ← torch_multinomial probs;
  setitem idx t idx_next;;
  if is_eos idx_next eos_id then mret (Some (slice_to idx (t + 1)))
  else mret None.

(** [for t in range(t, t + n)], then [return idx]. *)
Fixpoint generate_loop (n : nat) (t : nat) : M tensor :=
  match n with
  | O => mret idx
  | S n' =>
      r ← loop_body t;
      match r with
      | Some out => mret out
      | None => generate_loop n' (S t)
      end
  end.

End Loop.

Definition generate (model : scorer) (idx : tensor)
    (max_new_tokens max_seq_length : Z) (temperature : Q)
    (top_k eos_id : option Z) : M tensor :=
  let T := size idx in
  let T_new := (Z.of_nat T + max_new_tokens)%Z in
  empty ← torch_empty T_new;
  copy_ (slice_to empty T) idx;;
  let idx := empty in
  generate_loop model idx T max_seq_length temperature top_k eos_id
    (Z.to_nat (T_new - Z.of_nat T)) T.

End Decoder.

(** ** Vocabulary of the statements *)

(** A view that lies inside an allocated storage: what a caller can pass. *)
Definition tensor_in (h : gmap loc (list Z)) (v : tensor) : Prop :=
  ∃ buf, h !! storage v = Some buf ∧ offset v + size v ≤ length buf.

(** Lines 48 to 50 on the values of [sequence[0:t]]. *)
Definition window (T : nat) (max_seq_length : Z) (s : list Z) : list Z :=
  if (Z.of_nat T <=? max_seq_length)%Z then s
  else drop_from (- max_seq_length) s.

(** What the caller gets: the values of the returned tensor, or the
    exception. *)
Definition output {rng_state} (rw : result tensor * world rng_state)
    : result (list Z) :=
  match rw.1 with
  | Ok v => Ok (read (heap rw.2) v)
  | Raise e => Raise e
  end.

(** The events a run added to the log. *)
Definition new_events {rng_state} (w w' : world rng_state) : list event :=
  drop (length (trace w)) (trace w').

(** A model that answers every non-empty context with at least one row, the
    last of which has at least one vocabulary entry. *)
Definition scorer_ok (model : scorer) : Prop :=
  ∀ ctx, ctx ≠ [] →
    ∃ rows logits, model ctx = Ok rows ∧ last rows = Some logits ∧ logits ≠ [].

(** A model that does so for the contexts of at most [n] tokens, which is
    what the specification asks of a scorer for [n = max_seq_length]; on a
    longer context it may answer or raise. *)
Definition scorer_upto (n : Z) (model : scorer) : Prop :=
  ∀ ctx, ctx ≠ [] → (Z.of_nat (length ctx) ≤ n)%Z →
    ∃ rows logits, model ctx = Ok rows ∧ last rows = Some logits ∧ logits ≠ [].

Definition valid_top_k (top_k : option Z) : Prop :=
  match top_k with Some k => (1 ≤ k)%Z | None => True end.

(** The division of the logits the model returns by the temperature does not
    overflow: every quotient is finite. *)
Definition scales_finitely (fp : numerics) (model : scorer) (temperature : Q)
    : Prop :=
  ∀ ctx rows logits x,
    model ctx = Ok rows → last rows = Some logits → x ∈ logits →
    ∃ q, divide fp x temperature = Fin q.

(** A division by a zero gives an infinity or a NaN. *)
Definition divide_by_zero (fp : numerics) : Prop :=
  ∀ x t q, (t == 0)%Q → divide fp x t ≠ Fin q.

(** What softmax does to a tensor whose entries are finite or minus
    infinity, at least one of them finite: every probability is finite and
    not negative, it is zero for an entry that is minus infinity, and it is
    positive for an entry that no other entry exceeds.  (The largest entry
    contributes [exp(0) = 1] to a sum that is finite.) *)
Definition softmax_ok (fp : numerics) : Prop :=
  ∀ l, Forall (λ s, s ≠ PosInf ∧ s ≠ NaN) l → (∃ q, Fin q ∈ l) →
    length (softmax fp l) = length l ∧
    ∀ i s, l !! i = Some s →
      ∃ p, softmax fp l !! i = Some (Fin p) ∧ (0 <= p)%Q ∧
           (s = NegInf → (p == 0)%Q) ∧
           ((∀ s', s' ∈ l → score_lt s s' = false) → (0 < p)%Q).

(** What softmax does to the other tensors, those with an entry that is plus
    infinity or a NaN and those whose entries are all minus infinity: the
    largest entry minus itself is a NaN, every output is a NaN, and
    [torch.multinomial] accepts no such tensor. *)
Definition softmax_nan (fp : numerics) : Prop :=
  ∀ l, Exists (λ s, s = PosInf ∨ s = NaN) l ∨ Forall (λ s, s = NegInf) l →
    valid_distribution (softmax fp l) = false.

(** The order of a list of finite values sorted largest first. *)
Definition desc (x y : Q) : Prop := (y <= x)%Q.

(** How many entries are above, or not below, a value. *)
Definition count_gt (c : Q) (l : list Q) : nat :=
  length (List.filter (λ x, Qltb c x) l).

Definition count_ge (c : Q) (l : list Q) : nat :=
  length (List.filter (λ x, Qle_bool c x) l).

(** [c] is a [k]-th largest entry of [l]: it occurs in [l], fewer than [k]
    entries are above it and at least [k] are not below it. *)
Definition kth_largest (l : list Q) (k : nat) (c : Q) : Prop :=
  c ∈ l ∧ count_gt c l < k ∧ k ≤ count_ge c l.

(** The sort of [torch.topk] on finite values. *)
Fixpoint Qinsert_desc (x : Q) (l : list Q) : list Q :=
  match l with
  | [] => [x]
  | y :: l' => if Qle_bool y x then x :: l else y :: Qinsert_desc x l'
  end.

Definition Qsort_desc (l : list Q) : list Q := foldr Qinsert_desc [] l.

(** Failing fast: the run raises and the model was never called. *)
Definition fails_fast {rng_state} (w : world rng_state)
    (x : result tensor * world rng_state) : Prop :=
  is_ok x.1 = false ∧ contexts (new_events w x.2) = [].

(** The parameterizations the specification calls invalid. *)
Definition invalid_parameters (T : nat) (max_new_tokens max_seq_length : Z)
    (temperature : Q) : Prop :=
  (max_seq_length ≤ 0)%Z ∨ (temperature <= 0)%Q ∨ (max_new_tokens < 0)%Z ∨ T = 0.

Section StepSummary.

Context {rng_state : Type}.
Variable multinomial : rng_state → list score → Z * rng_state.
Variable fp : numerics.
Variable model : scorer.
Variable b : loc.
Variable T : nat.
Variable max_seq_length : Z.
Variable temperature : Q.
Variable top_k : option Z.
Variable eos_id : option Z.

(** The distribution a step draws from: what lines 53 to 61 compute from the
    context when nothing raises, [torch.multinomial] included. *)
Definition step_probs (ctx : list Z) : result (list score) :=
  result_bind (model ctx) (λ rows,
  result_bind (next_token_probs fp temperature top_k rows) (λ probs,
  if valid_distribution probs then Ok probs else Raise err_multinomial)).

(** What one iteration does to a world in which the buffer [b] holds [buf]. *)
Definition body_result (t : nat) (buf : list Z) (w : world rng_state)
    : result (option tensor) * world rng_state :=
  let ctx := window T max_seq_length (take t buf) in
  match step_probs ctx with
  | Raise e => (Raise e, World (heap w) (rng w) (trace w ++ [Scored ctx]))
  | Ok probs =>
      let '(tok, g) := multinomial (rng w) probs in
      (Ok (if is_eos tok eos_id then Some (Tensor b 0 (S t)) else None),
       World (<[b := <[t := tok]> buf]> (heap w)) g
             (trace w ++ [Scored ctx; Sampled probs tok]))
  end.

End StepSummary.

(** What a run of the loop from step [t], with [n] iterations to go, leaves
    behind: [evs] are the events it logged, [r] is its outcome. *)
Definition outcome_spec (b : loc) (eos_id : option Z) (t n : nat)
    (evs : list event) (r : result tensor) : Prop :=
  match r with
  | Ok out =>
      out = Tensor b 0 (t + length (samples evs)) ∧
      length (contexts evs) = length (samples evs) ∧
      (∀ i tok, samples evs !! i = Some tok → is_eos tok eos_id = true →
         S i = length (samples evs)) ∧
      (length (samples evs) < n →
         ∃ tok, last (samples evs) = Some tok ∧ is_eos tok eos_id = true) ∧
      (evs = [] ∨ ∃ p tok, last evs = Some (Sampled p tok))
  | Raise _ =>
      length (samples evs) < n ∧
      length (contexts evs) = S (length (samples evs)) ∧
      (∀ tok, tok ∈ samples evs → is_eos tok eos_id = false)
  end.

Definition run_spec {rng_state} (b : loc) (T : nat) (max_seq_length : Z)
    (eos_id : option Z) (t n : nat) (buf : list Z) (w : world rng_state)
    (r : result tensor) (w' : world rng_state) : Prop :=
  ∃ buf' evs,
    heap w' = <[b := buf']> (heap w) ∧
    trace w' = trace w ++ evs ∧
    length buf' = length buf ∧
    length (samples evs) ≤ n ∧
    take t buf' = take t buf ∧
    drop (t + length (samples evs)) buf' = drop (t + length (samples evs)) buf ∧
    take (length (samples evs)) (drop t buf') = samples evs ∧
    (∀ i ctx, contexts evs !! i = Some ctx →
       ctx = window T max_seq_length (take (t + i) buf')) ∧
    outcome_spec b eos_id t n evs r.

(** ** Vocabulary of the further properties *)

(** A model whose answers to a non-empty context, when it gives one, have a
    last row with at least one vocabulary entry; it may raise. *)
Definition scorer_shaped (model : scorer) : Prop :=
  ∀ ctx rows, ctx ≠ [] → model ctx = Ok rows →
    ∃ logits, last rows = Some logits ∧ logits ≠ [].

Section RunLog.

Context {rng_state : Type}.
Variable multinomial : rng_state → list score → Z * rng_state.
Variable fp : numerics.
Variable model : scorer.
Variable temperature : Q.
Variable top_k : option Z.

(** The discipline of the log of a loop: from the generator state [g], each
    iteration first calls the model, then computes the distribution from
    what the model returned, then draws from it with the generator state the
    previous draw left.  The last component is the exception that ended the
    loop, if one did. *)
Inductive run_log (g : rng_state)
    : list event → rng_state → option exn → Prop :=
  | log_end : run_log g [] g None
  | log_failed ctx e :
      step_probs fp model temperature top_k ctx = Raise e →
      run_log g [Scored ctx] g (Some e)
  | log_step ctx probs evs g' o :
      step_probs fp model temperature top_k ctx = Ok probs →
      run_log (multinomial g probs).2 evs g' o →
      run_log g
        (Scored ctx :: Sampled probs (multinomial g probs).1 :: evs) g' o.

End RunLog.

Definition raised {A} (r : result A) : option exn :=
  match r with Ok _ => None | Raise e => Some e end.

(** ** Arithmetic on real numbers *)

(** The numerics of a machine that neither rounds nor overflows, over an
    exponential [exp] that is a parameter: what the floating-point
    operations approximate. *)

Definition exact_divide (x t : Q) : score :=
  if Qeq_bool t 0 then
    if Qltb 0 x then PosInf else if Qltb x 0 then NegInf else NaN
  else Fin (x / t).

(** The largest of [x] and the values of [l]. *)
Definition Qmaximum (x : Q) (l : list Q) : Q :=
  foldr (λ a m, if Qle_bool m a then a else m) x l.

(** The tensors on which softmax produces NaN. *)
Definition softmax_undefined (l : list score) : bool :=
  existsb (λ s, match s with PosInf | NaN => true | _ => false end) l
  || forallb (λ s, match s with NegInf => true | _ => false end) l.

(** [exp (s - m)]; the exponential of minus infinity is 0. *)
Definition exp_score (exp : Q → Q) (m : Q) (s : score) : Q :=
  match s with Fin q => exp (q - m)%Q | _ => 0%Q end.

(** Softmax as torch computes it: the largest entry is subtracted before
    the exponential is taken. *)
Definition exact_softmax (exp : Q → Q) (l : list score) : list score :=
  if softmax_undefined l then (λ _, NaN) <$> l
  else
    let m := match finite_part l with [] => 0%Q | x :: r => Qmaximum x r end in
    let e := exp_score exp m <$> l in
    (λ x, Fin (x / Qsum e)) <$> e.

Definition exact (exp : Q → Q) : numerics :=
  Numerics exact_divide (exact_softmax exp).

(** An exponential that is never negative and is positive at 0. *)
Definition exp_ok (exp : Q → Q) : Prop :=
  (∀ x, (0 <= exp x)%Q) ∧ (∀ x, (x == 0)%Q → (0 < exp x)%Q).

(** ** A stubbed sampler and a stubbed model *)

Module Stub.

(** The sampler returns predetermined indices, one per call. *)
Definition sampler (s : list Z) (_ : list score) : Z * list Z :=
  (List.hd 0%Z s, List.tl s).

(** A positive stand-in for the exponential. *)
Definition exp (x : Q) : Q :=
  if Qle_bool 0 x then (1 + x)%Q else (1 / (1 - x))%Q.

Definition fp : numerics := exact exp.

(** A model with ten vocabulary entries, scored 0 to 9 at every position. *)
Definition logits : list Q := [0; 1; 2; 3; 4; 5; 6; 7; 8; 9]%Q.

Definition model : scorer :=
  λ ctx, Ok ((λ _, logits) <$> ctx).

(** A model that refuses contexts longer than [limit], as a model with a
    fixed block size does. *)
Definition limited_model (limit : nat) : scorer :=
  λ ctx, if length ctx <=? limit then model ctx
         else Raise (RuntimeError "sequence longer than the block size").

Definition uninit (_ : nat) : Z := (-1)%Z.

Definition prompt_loc : loc := 1%positive.

Definition prompt (p : list Z) : tensor := Tensor prompt_loc 0 (length p).

Definition init (p s : list Z) : world (list Z) :=
  World {[ prompt_loc := p ]} s [].

Definition run (p s : list Z) (max_new_tokens max_seq_length : Z)
    (temperature : Q) (top_k eos_id : option Z) :=
  generate sampler fp uninit model (prompt p)
    max_new_tokens max_seq_length temperature top_k eos_id (init p s).

(** The contexts the model was called on during that run. *)
Definition calls (p s : list Z) (max_new_tokens max_seq_length : Z)
    (temperature : Q) (top_k eos_id : option Z) : list (list Z) :=
  contexts (new_events (init p s)
              (run p s max_new_tokens max_seq_length temperature top_k eos_id).2).

End Stub.

(** ** Overflow and underflow of single precision *)

Module Single.

(** The quotients of magnitude [2^128 - 2^103] or more are rounded to an
    infinity in single precision.  The smaller ones are kept as they are:
    the rounding of the mantissa is not part of this stand-in, which is used
    on quotients that single precision represents exactly or that
    overflow. *)
Definition overflow : Q := inject_Z (2 ^ 128 - 2 ^ 103).

Definition divide (x t : Q) : score :=
  match exact_divide x t with
  | Fin q =>
      if Qle_bool overflow q then PosInf
      else if Qle_bool q (- overflow) then NegInf
      else Fin q
  | s => s
  end.

(** The exponential of single precision is 0 from [-104] down: [e^-104] is
    below [2^-150], half the smallest positive number of the format. *)
Definition exp (x : Q) : Q :=
  if Qle_bool x (- (104 # 1)) then 0%Q else Stub.exp x.

Definition fp : numerics := Numerics divide (exact_softmax exp).

End Single.

(** ** [main]: the command-line entry point *)

(** [main] loads a checkpoint directory, encodes the prompt, seeds the
    generators with 1234 and calls [generate] once per requested sample,
    printing each decoded sample.  Its collaborators (the file system, the
    loaders of [lit_stablelm], the tokenizer, the clock) are parameters of
    the embedding. *)

Record tokenizer : Type := Tokenizer {
  encode : string → list Z;
  decode : list Z → string
}.

(** How [main] can end abnormally: [OSError] is the exception raised on
    lines 99 to 103; [LoadError] stands for whatever the loaders of lines 105
    to 124 raise (for a missing file that is again one of Python's OS
    errors, raised by [open]); [ZeroDivisionError] is raised by the division
    of line 139; [Propagated e] is an exception of [generate]. *)
Inductive main_exn : Type :=
  | OSError
  | LoadError
  | ZeroDivisionError
  | Propagated (e : exn).

(** What [main] prints: the samples on the standard output, the diagnostics
    of lines 112, 118, 139 and 141 on the standard error. *)
Inductive line : Type :=
  | Out (text : string)
  | Err_loading
  | Err_loaded
  | Err_inference (i : nat) (t tokens_per_sec : Q)
  | Err_memory.

Definition stdout (ls : list line) : list string :=
  omap (λ l, match l with Out text => Some text | _ => None end) ls.

Record process (rng_state : Type) : Type := Process {
  mem : world rng_state;
  printed : list line
}.
Arguments Process {rng_state} mem printed.
Arguments mem {rng_state} p.
Arguments printed {rng_state} p.

(** The lines a run of [main] added. *)
Definition new_lines {rng_state} (s s' : process rng_state) : list line :=
  drop (length (printed s)) (printed s').

Section Main.

Context {rng_state : Type}.
Variable multinomial : rng_state → list score → Z * rng_state.
Variable fp : numerics.
Variable uninit : nat → Z.

(** [ckpt_dir.is_dir()] *)
Variable is_dir : bool.
(** Lines 105 to 109: the block size of [lit_config.json]; [None] when
    opening or parsing it, or setting up the device, raises. *)
Variable load_config : option Z.
(** Lines 114 to 121: the model with its weights; [None] when that raises. *)
Variable load_model : option scorer.
(** Lines 123 and 124; [None] when building the tokenizer or encoding the
    prompt raises. *)
Variable load_tokenizer : option tokenizer.
(** [L.seed_everything]: the generator state a seed gives. *)
Variable seed_everything : Z → rng_state.
(** [time.perf_counter() - t0] for the sample of each index. *)
Variable elapsed : nat → Q.
(** [fabric.device.type == "cuda"] *)
Variable cuda : bool.

Definition print (l : line) (s : process rng_state) : process rng_state :=
  Process (mem s) (printed s ++ [l]).

(** [tokenizer.encode(prompt, device=...)]: a new tensor holding the ids. *)
Definition new_tensor (vals : list Z) (w : world rng_state)
    : tensor * world rng_state :=
  let l := fresh (dom (heap w)) in
  (Tensor l 0 (length vals), World (<[l := vals]> (heap w)) (rng w) (trace w)).

(** Lines 127 to 139: [for i in range(i, i + n)]. *)
Fixpoint sample_loop (model : scorer) (tok : tokenizer)
    (encoded_prompt : tensor) (max_new_tokens block_size top_k : Z)
    (temperature : Q) (n i : nat) (s : process rng_state)
    : option main_exn * process rng_state :=
  match n with
  | O => (None, s)
  | S n' =>
      match generate multinomial fp uninit model encoded_prompt
              max_new_tokens block_size temperature (Some top_k) None (mem s)
      with
      | (Raise e, w') => (Some (Propagated e), Process w' (printed s))
      | (Ok y, w') =>
          let t := elapsed i in
          let s := print (Out (decode tok (read (heap w') y)))
                     (Process w' (printed s)) in
          if Qeq_bool t 0 then (Some ZeroDivisionError, s)
          else
            sample_loop model tok encoded_prompt max_new_tokens block_size
              top_k temperature n' (S i)
              (print (Err_inference i t (inject_Z max_new_tokens / t)) s)
      end
  end.

Definition main (prompt : string) (num_samples max_new_tokens top_k : Z)
    (temperature : Q) (s : process rng_state)
    : option main_exn * process rng_state :=
  if negb is_dir then (Some OSError, s)
  else
    match load_config with
    | None => (Some LoadError, s)
    | Some block_size =>
        let s := print Err_loading s in
        match load_model with
        | None => (Some LoadError, s)
        | Some model =>
            let s := print Err_loaded s in
            match load_tokenizer with
            | None => (Some LoadError, s)
            | Some tok =>
                let '(encoded_prompt, w) :=
                  new_tensor (encode tok prompt) (mem s) in
                let w := World (heap w) (seed_everything 1234) (trace w) in
                match sample_loop model tok encoded_prompt max_new_tokens
                        block_size top_k temperature
                        (Z.to_nat num_samples) 0 (Process w (printed s))
                with
                | (Some e, s) => (Some e, s)
                | (None, s) =>
                    (None, if cuda then print Err_memory s else s)
                end
            end
        end
    end.

End Main.

(** A stubbed environment for [main]. *)
Module StubMain.

(** Characters are token ids modulo 10, and back to digits. *)
Definition tok : tokenizer :=
  Tokenizer
    (λ s, (λ c, (Z.of_nat (Ascii.nat_of_ascii c) mod 10)%Z)
            <$> list_ascii_of_string s)
    (λ ids, string_of_list_ascii
              ((λ z, Ascii.ascii_of_nat (48 + Z.to_nat z)) <$> ids)).

(** The seed fixes the indices the stubbed sampler will return. *)
Definition seed (z : Z) : list Z :=
  (λ i, ((z + Z.of_nat i) mod 10)%Z) <$> seq 0 32.

Definition elapsed (_ : nat) : Q := (1 # 2)%Q.

Definition start : process (list Z) := Process (World ∅ [] []) [].

Definition run (prompt : string) (num_samples max_new_tokens top_k : Z)
    (temperature : Q) :=
  main Stub.sampler Stub.fp Stub.uninit true (Some 16%Z) (Some Stub.model)
    (Some tok) seed elapsed false prompt num_samples max_new_tokens top_k
    temperature start.

End StubMain.

(** * Properties *)

(** ** Slices and views *)

Lemma slice_start_le (len : nat) (s : Z) : slice_start len s ≤ len.
Proof. unfold slice_start. destruct (s <? 0)%Z eqn:E; lia. Qed.

Lemma slice_start_zero (len : nat) : slice_start len (- 0) = 0.
Proof. reflexivity. Qed.

Lemma slice_start_last (len : nat) (m : Z) :
  (0 < m)%Z → slice_start len (- m) = len - Z.to_nat m.
Proof. intros Hm. unfold slice_start. destruct (- m <? 0)%Z eqn:E; lia. Qed.

Lemma take_prefix_eq {A} (l1 l2 : list A) (n m : nat) :
  n ≤ m → take m l1 = take m l2 → take n l1 = take n l2.
Proof.
  intros Hle H. rewrite <- (Nat.min_l n m) by done.
  rewrite <- !take_take. by rewrite H.
Qed.

Lemma alter_at {A} (f : A → A) (l : loc) (x : A) (h : gmap loc A) :
  h !! l = Some x → alter f l h = <[l := f x]> h.
Proof.
  intros Hl. apply map_eq. intros i. rewrite lookup_alter, lookup_insert.
  destruct (decide (l = i)) as [<-|]; [by rewrite Hl | done].
Qed.

Lemma read_prefix (h : gmap loc (list Z)) (b : loc) (buf : list Z) (n : nat) :
  h !! b = Some buf → read h (Tensor b 0 n) = take n buf.
Proof. intros Hb. unfold read, contents. simpl. by rewrite Hb. Qed.

Lemma read_length (h : gmap loc (list Z)) (v : tensor) :
  tensor_in h v → length (read h v) = size v.
Proof.
  intros (buf & Hb & Hle). unfold read, contents. rewrite Hb. simpl.
  rewrite length_take, length_drop. lia.
Qed.

Lemma read_insert_ne (h : gmap loc (list Z)) (l : loc) (x : list Z) (v : tensor) :
  storage v ≠ l → read (<[l := x]> h) v = read h v.
Proof. intros Hne. unfold read, contents. by rewrite lookup_insert_ne. Qed.

Lemma context_read (h : gmap loc (list Z)) (b : loc) (buf : list Z)
    (L T : nat) (max_seq_length : Z) (t : nat) :
  h !! b = Some buf → length buf = L → t ≤ L →
  read h (context (Tensor b 0 L) T max_seq_length t)
  = window T max_seq_length (take t buf).
Proof.
  intros Hb HL Ht. unfold context, window, slice_to. simpl.
  rewrite (Nat.min_l t L) by done.
  destruct (Z.of_nat T <=? max_seq_length)%Z.
  - by apply read_prefix.
  - unfold slice_from, read, contents, drop_from. simpl. rewrite Hb. simpl.
    rewrite length_take, HL, (Nat.min_l t L) by done.
    pose proof (slice_start_le t (- max_seq_length)) as Hk.
    rewrite take_drop_commute. f_equal. f_equal. lia.
Qed.

(** ** Rational arithmetic *)

Lemma Qltb_lt (x y : Q) : Qltb x y = true ↔ (x < y)%Q.
Proof.
  unfold Qltb. rewrite negb_true_iff. split.
  - intros H. apply Qnot_le_lt. intros Hle. apply Qle_bool_iff in Hle. congruence.
  - intros H. destruct (Qle_bool y x) eqn:E; [|done].
    apply Qle_bool_iff in E. by apply Qlt_not_le in H.
Qed.

Lemma Qltb_ge (x y : Q) : Qltb x y = false ↔ (y <= x)%Q.
Proof.
  unfold Qltb. rewrite negb_false_iff. apply Qle_bool_iff.
Qed.

Lemma Qsum_nonneg (l : list Q) : Forall (λ x, 0 <= x)%Q l → (0 <= Qsum l)%Q.
Proof.
  induction 1 as [|x l Hx Hl IH]; simpl; [lra|]. lra.
Qed.

Lemma Qsum_pos (l : list Q) :
  Forall (λ x, 0 <= x)%Q l → Exists (λ x, 0 < x)%Q l → (0 < Qsum l)%Q.
Proof.
  intros Hall Hex. induction Hex as [x l Hx|x l Hex IH]; simpl.
  - apply Forall_cons in Hall as [_ Hl]. apply Qsum_nonneg in Hl. lra.
  - apply Forall_cons in Hall as [Hx Hl]. specialize (IH Hl). lra.
Qed.

Lemma Qdiv_pos (x s : Q) : (0 < x)%Q → (0 < s)%Q → (0 < x / s)%Q.
Proof.
  intros Hx Hs. unfold Qdiv. apply Qmult_lt_0_compat; [done|].
  by apply Qinv_lt_0_compat.
Qed.

Lemma Qdiv_zero (s : Q) : (0 / s == 0)%Q.
Proof. unfold Qdiv. apply Qmult_0_l. Qed.

(** ** Sorting finite values *)

Lemma Qinsert_desc_perm (x : Q) (l : list Q) : Qinsert_desc x l ≡ₚ x :: l.
Proof.
  induction l as [|y l IH]; simpl; [done|].
  destruct (Qle_bool y x); [done|].
  rewrite IH. apply perm_swap.
Qed.

Lemma Qsort_desc_perm (l : list Q) : Qsort_desc l ≡ₚ l.
Proof.
  induction l as [|x l IH]; simpl; [done|].
  unfold Qsort_desc in *. simpl. rewrite Qinsert_desc_perm. by rewrite IH.
Qed.

Lemma Qinsert_desc_sorted (x : Q) (l : list Q) :
  StronglySorted desc l → StronglySorted desc (Qinsert_desc x l).
Proof.
  induction 1 as [|y l Hs IH Hy]; simpl.
  - repeat constructor.
  - destruct (Qle_bool y x) eqn:E.
    + apply Qle_bool_iff in E. constructor; [by constructor|].
      constructor; [done|].
      eapply Forall_impl; [exact Hy|]. unfold desc. intros z Hz. simpl in Hz. lra.
    + assert (Hxy : (x < y)%Q) by by apply Qltb_lt; unfold Qltb; rewrite E.
      constructor; [done|].
      rewrite Qinsert_desc_perm. constructor; [unfold desc; lra|done].
Qed.

Lemma Qsort_desc_sorted (l : list Q) : StronglySorted desc (Qsort_desc l).
Proof.
  induction l as [|x l IH]; [constructor|].
  unfold Qsort_desc in *. simpl. by apply Qinsert_desc_sorted.
Qed.

Lemma sorted_lookup_le (s : list Q) (i j : nat) (x y : Q) :
  StronglySorted desc s → i ≤ j → s !! i = Some x → s !! j = Some y → (y <= x)%Q.
Proof.
  intros Hs. revert i j. induction Hs as [|z s Hs IH Hz]; intros i j Hij Hi Hj;
      [done|].
  destruct i as [|i], j as [|j]; simpl in *; try lia.
  - injection Hi as ->. injection Hj as ->. lra.
  - injection Hi as ->. rewrite Forall_forall in Hz.
    apply Hz. by eapply list_elem_of_lookup_2.
  - eapply (IH i j); [lia|done|done].
Qed.

Lemma filter_length_perm (f : Q → bool) (l l' : list Q) :
  l ≡ₚ l' → length (List.filter f l) = length (List.filter f l').
Proof.
  induction 1; simpl; try done.
  - destruct (f x); simpl; congruence.
  - destruct (f x), (f y); simpl; done.
  - congruence.
Qed.

Lemma filter_all (f : Q → bool) (l : list Q) :
  Forall (λ x, f x = true) l → List.filter f l = l.
Proof. induction 1 as [|x l Hx Hl IH]; simpl; [done|]. by rewrite Hx, IH. Qed.

Lemma filter_none (f : Q → bool) (l : list Q) :
  Forall (λ x, f x = false) l → List.filter f l = [].
Proof. induction 1 as [|x l Hx Hl IH]; simpl; [done|]. by rewrite Hx. Qed.

Lemma filter_length_bound (f : Q → bool) (l : list Q) :
  length (List.filter f l) ≤ length l.
Proof. induction l as [|x l IH]; simpl; [done|]. destruct (f x); simpl; lia. Qed.

(** ** The k-th largest value *)

(** The value found at position [k - 1] of the sorted logits is one of the
    logits; fewer than [k] logits are above it, and at least [k] are not
    below it. *)
Lemma kth_largest_counts (logits : list Q) (k : nat) (c : Q) :
  1 ≤ k → Qsort_desc logits !! (k - 1) = Some c →
  c ∈ logits ∧ count_gt c logits < k ∧ k ≤ count_ge c logits.
Proof.
  intros Hk Hc.
  pose proof (Qsort_desc_sorted logits) as Hs.
  pose proof (Qsort_desc_perm logits) as Hp.
  set (s := Qsort_desc logits) in *.
  assert (Hlen : k - 1 < length s) by by eapply lookup_lt_Some.
  split_and!.
  - rewrite <- Hp. by eapply list_elem_of_lookup_2.
  - unfold count_gt. rewrite <- (filter_length_perm _ _ _ Hp).
    rewrite <- (take_drop (k - 1) s), List.filter_app, length_app.
    rewrite (filter_none _ (drop (k - 1) s)).
    + pose proof (filter_length_bound (λ x, Qltb c x) (take (k - 1) s)) as Hb.
      rewrite length_take in Hb. simpl. lia.
    + apply Forall_forall. intros x Hx.
      apply list_elem_of_lookup in Hx as [j Hj]. rewrite lookup_drop in Hj.
      apply Qltb_ge. eapply (sorted_lookup_le s (k - 1) (k - 1 + j));
          [done|lia|done|done].
  - unfold count_ge. rewrite <- (filter_length_perm _ _ _ Hp).
    rewrite <- (take_drop k s), List.filter_app, length_app.
    rewrite (filter_all _ (take k s)).
    + rewrite length_take. lia.
    + apply Forall_forall. intros x Hx.
      apply list_elem_of_lookup in Hx as [j Hj].
      apply lookup_take_Some in Hj as [Hj Hjk].
      apply Qle_bool_iff. eapply (sorted_lookup_le s j (k - 1));
          [done|lia|done|done].
Qed.

(** ** The order of floating-point values *)

Lemma topk_ge_fin (a b : Q) : topk_ge (Fin a) (Fin b) = Qle_bool b a.
Proof. simpl. unfold Qltb. apply negb_involutive. Qed.

Lemma topk_ge_refl (x : score) : topk_ge x x = true.
Proof.
  destruct x as [a| | |]; simpl; try done.
  rewrite negb_true_iff. apply Qltb_ge. lra.
Qed.

Lemma topk_ge_total (x y : score) : topk_ge x y = false → topk_ge y x = true.
Proof.
  destruct x as [a| | |], y as [b| | |]; simpl; try done.
  rewrite negb_false_iff, negb_true_iff, Qltb_lt, Qltb_ge. lra.
Qed.

Lemma topk_ge_trans (x y z : score) :
  topk_ge x y = true → topk_ge y z = true → topk_ge x z = true.
Proof.
  destruct x as [a| | |], y as [b| | |], z as [c| | |]; simpl; try done.
  rewrite !negb_true_iff, !Qltb_ge. lra.
Qed.

Lemma topk_ge_not_lt (x y : score) : topk_ge x y = true → score_lt x y = false.
Proof.
  destruct x as [a| | |], y as [b| | |]; simpl; try done.
  by rewrite negb_true_iff.
Qed.

Lemma score_lt_irrefl (x : score) : score_lt x x = false.
Proof. destruct x as [a| | |]; simpl; try done. apply Qltb_ge. lra. Qed.

(** If [s] is below [x], whatever is not above [s] is not above [x]. *)
Lemma score_lt_above (s s' x : score) :
  score_lt s s' = false → score_lt s x = true → score_lt x s' = false.
Proof.
  destruct s as [a| | |], s' as [a'| | |], x as [b| | |]; simpl; try done.
  rewrite Qltb_ge, Qltb_lt, Qltb_ge. lra.
Qed.

(** Every non-empty tensor has an entry that no entry exceeds. *)
Lemma exists_maximal (l : list score) :
  l ≠ [] →
  ∃ i s, l !! i = Some s ∧ ∀ s', s' ∈ l → score_lt s s' = false.
Proof.
  induction l as [|x l IH]; [done|]. intros _.
  destruct l as [|y l].
  { exists 0, x. split; [done|]. intros s' ->%list_elem_of_singleton.
    apply score_lt_irrefl. }
  destruct IH as (i & s & Hi & Hmax); [done|].
  destruct (score_lt s x) eqn:E.
  - exists 0, x. split; [done|]. intros s' [->|Hs']%elem_of_cons.
    + apply score_lt_irrefl.
    + eapply score_lt_above; [by apply Hmax|done].
  - exists (S i), s. split; [done|]. intros s' [->|Hs']%elem_of_cons; [done|].
    by apply Hmax.
Qed.

(** ** Sorting floating-point values *)

Lemma insert_desc_perm (x : score) (l : list score) : insert_desc x l ≡ₚ x :: l.
Proof.
  induction l as [|y l IH]; simpl; [done|].
  destruct (topk_ge x y); [done|].
  rewrite IH. apply perm_swap.
Qed.

Lemma sort_desc_perm (l : list score) : sort_desc l ≡ₚ l.
Proof.
  induction l as [|x l IH]; simpl; [done|].
  unfold sort_desc in *. simpl. rewrite insert_desc_perm. by rewrite IH.
Qed.

Lemma sort_desc_length (l : list score) : length (sort_desc l) = length l.
Proof. apply Permutation_length, sort_desc_perm. Qed.

Lemma insert_desc_sorted (x : score) (l : list score) :
  StronglySorted (λ a b, topk_ge a b = true) l →
  StronglySorted (λ a b, topk_ge a b = true) (insert_desc x l).
Proof.
  induction 1 as [|y l Hs IH Hy]; simpl.
  - repeat constructor.
  - destruct (topk_ge x y) eqn:E.
    + constructor; [by constructor|].
      constructor; [done|].
      eapply Forall_impl; [exact Hy|]. intros z Hz. simpl in Hz.
      by eapply topk_ge_trans.
    + constructor; [done|].
      rewrite insert_desc_perm. constructor; [by apply topk_ge_total|done].
Qed.

Lemma sort_desc_sorted (l : list score) :
  StronglySorted (λ a b, topk_ge a b = true) (sort_desc l).
Proof.
  induction l as [|x l IH]; [constructor|].
  unfold sort_desc in *. simpl. by apply insert_desc_sorted.
Qed.

(** The last value of a sorted tensor is below no entry. *)
Lemma sorted_last_least (s : list score) (c : score) :
  StronglySorted (λ a b, topk_ge a b = true) s → last s = Some c →
  ∀ x, x ∈ s → score_lt x c = false.
Proof.
  induction 1 as [|y s Hs IH Hy]; intros Hlast x Hx; [done|].
  destruct s as [|z s].
  { simpl in Hlast. injection Hlast as <-.
    apply list_elem_of_singleton in Hx as ->. apply score_lt_irrefl. }
  rewrite last_cons_cons in Hlast.
  apply elem_of_cons in Hx as [->|Hx]; [|by apply IH].
  apply topk_ge_not_lt. rewrite Forall_forall in Hy. apply Hy.
  apply last_Some in Hlast as [l' ->]. apply elem_of_app. right.
  apply list_elem_of_here.
Qed.

(** On finite values the sort is the one of the rationals. *)
Lemma insert_desc_fin (x : Q) (l : list Q) :
  insert_desc (Fin x) (Fin <$> l) = Fin <$> Qinsert_desc x l.
Proof.
  induction l as [|y l IH]; [done|].
  rewrite fmap_cons. cbn [insert_desc Qinsert_desc]. rewrite topk_ge_fin.
  destruct (Qle_bool y x); [done|]. rewrite fmap_cons. f_equal. exact IH.
Qed.

Lemma sort_desc_fin (l : list Q) : sort_desc (Fin <$> l) = Fin <$> Qsort_desc l.
Proof.
  induction l as [|x l IH]; [done|].
  unfold sort_desc, Qsort_desc in *. rewrite fmap_cons. cbn [foldr].
  rewrite IH. apply insert_desc_fin.
Qed.

(** ** Cropping to the top k *)

(** With [top_k = k >= 1] on a non-empty vocabulary, the cut is the entry at
    position [min k V - 1] of the sorted logits, and nothing raises. *)
Lemma crop_top_k_mask (logits : list score) (k : Z) :
  logits ≠ [] → (1 ≤ k)%Z →
  ∃ c, sort_desc logits !! (Z.to_nat (Z.min k (Z.of_nat (length logits))) - 1)
       = Some c
       ∧ crop_top_k logits (Some k) = Ok (mask_below c logits).
Proof.
  intros Hne Hk.
  assert (HV : 1 ≤ length logits) by (destruct logits; [done|simpl; lia]).
  pose proof (sort_desc_length logits) as Hlen.
  set (k' := Z.min k (Z.of_nat (length logits))).
  assert (Hk' : (1 ≤ k' ≤ Z.of_nat (length logits))%Z) by lia.
  destruct (lookup_lt_is_Some_2 (sort_desc logits) (Z.to_nat k' - 1)) as [c Hc];
      [lia|].
  exists c. split; [done|].
  unfold crop_top_k, torch_topk. fold k'.
  destruct (k' <? 0)%Z eqn:E1; [lia|].
  destruct (Z.of_nat (length logits) <? k')%Z eqn:E2; [lia|]. simpl.
  unfold last_value. rewrite last_lookup, length_take, Hlen.
  rewrite (Nat.min_l (Z.to_nat k')) by lia.
  replace (Init.Nat.pred (Z.to_nat k')) with (Z.to_nat k' - 1) by lia.
  rewrite lookup_take_lt by lia. by rewrite Hc.
Qed.

(** The same on finite logits. *)
Lemma crop_top_k_some (logits : list Q) (k : Z) :
  logits ≠ [] → (1 ≤ k)%Z →
  ∃ c, Qsort_desc logits !! (Z.to_nat (Z.min k (Z.of_nat (length logits))) - 1)
       = Some c
       ∧ crop_top_k (Fin <$> logits) (Some k)
         = Ok (mask_below (Fin c) (Fin <$> logits)).
Proof.
  intros Hne Hk.
  destruct (crop_top_k_mask (Fin <$> logits) k) as (c & Hc & Hcrop);
    [by destruct logits|done|].
  rewrite length_fmap, sort_desc_fin, list_lookup_fmap in Hc.
  destruct (Qsort_desc logits !! _) as [c'|] eqn:Hc'; [|done].
  injection Hc as <-. by exists c'.
Qed.

Lemma mask_below_lookup (c : Q) (logits : list Q) (i : nat) (x : Q) :
  logits !! i = Some x →
  mask_below (Fin c) (Fin <$> logits) !! i
  = Some (if Qltb x c then NegInf else Fin x).
Proof.
  intros Hi. unfold mask_below. rewrite !list_lookup_fmap, Hi. simpl.
  by destruct (Qltb x c).
Qed.

Lemma mask_below_kept (c : Q) (logits : list Q) (i : nat) (x : Q) :
  mask_below (Fin c) (Fin <$> logits) !! i = Some (Fin x) →
  logits !! i = Some x ∧ (c <= x)%Q.
Proof.
  unfold mask_below. rewrite !list_lookup_fmap.
  destruct (logits !! i) as [y|] eqn:E; [|done]. simpl.
  destruct (Qltb y c) eqn:Ey; [done|]. intros [= ->].
  split; [done|]. by apply Qltb_ge.
Qed.

(** The masked logits of a finite vocabulary: finite or minus infinity, and
    the cut itself is kept. *)
Lemma crop_top_k_ok (logits : list Q) (top_k : option Z) :
  logits ≠ [] → valid_top_k top_k →
  ∃ masked,
    crop_top_k (Fin <$> logits) top_k = Ok masked ∧
    length masked = length logits ∧
    Forall (λ s, s ≠ PosInf ∧ s ≠ NaN) masked ∧
    ∃ q, Fin q ∈ masked.
Proof.
  intros Hne Hk. destruct top_k as [k|]; simpl in Hk.
  - destruct (crop_top_k_some logits k Hne Hk) as (c & Hc & ->).
    exists (mask_below (Fin c) (Fin <$> logits)). split_and!; [done| | |].
    + unfold mask_below. by rewrite !length_fmap.
    + unfold mask_below. apply Forall_fmap, Forall_fmap, Forall_forall.
      intros x _. simpl. by destruct (Qltb x c).
    + exists c.
      assert (Hin : c ∈ logits).
      { eapply (kth_largest_counts logits
          (Z.to_nat (Z.min k (Z.of_nat (length logits))))); [|done].
        destruct logits; [done|]. simpl length. lia. }
      apply list_elem_of_lookup in Hin as [i Hi].
      apply (list_elem_of_lookup_2 _ i).
      rewrite (mask_below_lookup _ _ _ _ Hi).
      assert (Qltb c c = false) as -> by (apply Qltb_ge; lra). done.
  - exists (Fin <$> logits). split_and!; [done| | |].
    + by rewrite length_fmap.
    + apply Forall_fmap, Forall_forall. by intros x _.
    + destruct logits as [|q l]; [done|]. exists q. simpl. apply list_elem_of_here.
Qed.

(** ** Softmax and the sampler *)

Lemma finite_part_elem (l : list score) (q : Q) : q ∈ finite_part l ↔ Fin q ∈ l.
Proof.
  unfold finite_part. rewrite list_elem_of_omap. split.
  - intros (s & Hs & Hq). destruct s; try done. by injection Hq as ->.
  - intros Hq. by exists (Fin q).
Qed.

(** What [softmax_ok] promises is a tensor [torch.multinomial] accepts. *)
Lemma softmax_ok_valid (fp : numerics) (l : list score) :
  softmax_ok fp → Forall (λ s, s ≠ PosInf ∧ s ≠ NaN) l → (∃ q, Fin q ∈ l) →
  valid_distribution (softmax fp l) = true.
Proof.
  intros Hfp Hall Hfin. destruct (Hfp l Hall Hfin) as [Hlen Hent].
  assert (Hne : l ≠ []).
  { destruct Hfin as [q Hq]. intros ->. by apply elem_of_nil in Hq. }
  assert (Hp : ∀ s, s ∈ softmax fp l → ∃ p, s = Fin p ∧ (0 <= p)%Q).
  { intros s [i Hi]%list_elem_of_lookup.
    destruct (lookup_lt_is_Some_2 l i) as [x Hx].
    { rewrite <- Hlen. by eapply lookup_lt_Some. }
    destruct (Hent i x Hx) as (p & Hs & Hnn & _).
    exists p. split; [congruence|done]. }
  unfold valid_distribution. rewrite !andb_true_iff. split_and!.
  - rewrite Hlen. destruct l; [done|done].
  - apply forallb_forall. intros s Hs%list_elem_of_In.
    destruct (Hp s Hs) as (p & -> & Hnn). by apply Qle_bool_iff.
  - apply Qltb_lt, Qsum_pos.
    + apply Forall_forall. intros q Hq%finite_part_elem.
      destruct (Hp _ Hq) as (p & [= ->] & Hnn). done.
    + destruct (exists_maximal l Hne) as (i & s & Hi & Hmax).
      destruct (Hent i s Hi) as (p & Hs & _ & _ & Hpos).
      apply Exists_exists. exists p. split; [|by apply Hpos].
      apply finite_part_elem. by eapply list_elem_of_lookup_2.
Qed.

(** ** The numerics of real numbers meet the assumptions *)

Lemma Qmaximum_elem (x : Q) (l : list Q) : Qmaximum x l ∈ x :: l.
Proof.
  induction l as [|a l IH]; simpl; [apply list_elem_of_here|].
  destruct (Qle_bool (Qmaximum x l) a).
  - apply list_elem_of_further, list_elem_of_here.
  - apply elem_of_cons in IH as [->|IH]; [apply list_elem_of_here|].
    by do 2 apply list_elem_of_further.
Qed.

Lemma Qmaximum_ge (x : Q) (l : list Q) (a : Q) :
  a ∈ x :: l → (a <= Qmaximum x l)%Q.
Proof.
  induction l as [|b l IH]; simpl.
  - intros ->%list_elem_of_singleton. lra.
  - intros Ha.
    assert (Hcase : a = b ∨ a ∈ x :: l).
    { apply elem_of_cons in Ha as [->|Ha]; [right; apply list_elem_of_here|].
      apply elem_of_cons in Ha as [->|Ha]; [by left|].
      right. by apply list_elem_of_further. }
    destruct (Qle_bool (Qmaximum x l) b) eqn:E.
    + apply Qle_bool_iff in E. destruct Hcase as [->|Hin]; [lra|].
      specialize (IH Hin). lra.
    + assert (Hlt : (b < Qmaximum x l)%Q).
      { apply Qltb_lt. unfold Qltb. by rewrite E. }
      destruct Hcase as [->|Hin]; [lra|by apply IH].
Qed.

Lemma exact_softmax_defined (l : list score) :
  Forall (λ s, s ≠ PosInf ∧ s ≠ NaN) l → (∃ q, Fin q ∈ l) →
  softmax_undefined l = false.
Proof.
  intros Hall [q Hq]. unfold softmax_undefined. apply orb_false_iff. split.
  - destruct (existsb _ l) eqn:E; [|done].
    apply existsb_exists in E as (s & Hs%list_elem_of_In & E).
    rewrite Forall_forall in Hall. destruct (Hall s Hs). by destruct s.
  - destruct (forallb _ l) eqn:E; [|done].
    rewrite forallb_forall in E. by specialize (E _ (proj1 (list_elem_of_In _ _) Hq)).
Qed.

Lemma exact_softmax_ok (exp : Q → Q) : exp_ok exp → softmax_ok (exact exp).
Proof.
  intros [Hnn Hpos] l Hall Hfin. simpl. unfold exact_softmax.
  rewrite (exact_softmax_defined l Hall Hfin).
  destruct Hfin as [q0 Hq0].
  destruct (finite_part l) as [|x r] eqn:Ef.
  { apply finite_part_elem in Hq0. rewrite Ef in Hq0.
    by apply elem_of_nil in Hq0. }
  set (m := Qmaximum x r).
  assert (Hm : Fin m ∈ l).
  { apply finite_part_elem. rewrite Ef. apply Qmaximum_elem. }
  assert (Hge : ∀ a, Fin a ∈ l → (a <= m)%Q).
  { intros a Ha%finite_part_elem. rewrite Ef in Ha. by apply Qmaximum_ge. }
  assert (He : ∀ s, (0 <= exp_score exp m s)%Q).
  { intros s. destruct s; simpl; try lra. apply Hnn. }
  set (S := Qsum (exp_score exp m <$> l)).
  assert (HS : (0 < S)%Q).
  { apply Qsum_pos.
    - apply Forall_fmap, Forall_forall. intros s _. apply He.
    - apply Exists_fmap, Exists_exists. exists (Fin m). split; [done|].
      simpl. apply Hpos. ring. }
  split; [by rewrite !length_fmap|].
  intros i s Hi. exists (exp_score exp m s / S)%Q.
  rewrite !list_lookup_fmap, Hi. simpl. split_and!.
  - done.
  - unfold Qdiv. apply Qmult_le_0_compat; [done|].
    apply Qinv_le_0_compat. lra.
  - intros ->. simpl. apply Qdiv_zero.
  - intros Hmax. specialize (Hmax _ Hm).
    rewrite Forall_forall in Hall.
    destruct (Hall s (list_elem_of_lookup_2 _ _ _ Hi)) as [H1 H2].
    destruct s as [a| | |]; simpl in Hmax; try done.
    apply Qltb_ge in Hmax.
    pose proof (Hge a (list_elem_of_lookup_2 _ _ _ Hi)) as Hle.
    simpl. apply Qdiv_pos; [|done]. apply Hpos. lra.
Qed.

Lemma exact_softmax_nan (exp : Q → Q) : softmax_nan (exact exp).
Proof.
  intros l Hl. simpl. unfold exact_softmax.
  assert (Hu : softmax_undefined l = true).
  { unfold softmax_undefined. apply orb_true_iff.
    destruct Hl as [Hex|Hall]; [left|right].
    - apply Exists_exists in Hex as (s & Hs & Hv).
      apply existsb_exists. exists s. split; [by apply list_elem_of_In|].
      by destruct Hv as [-> | ->].
    - apply forallb_forall. intros s Hs%list_elem_of_In.
      rewrite Forall_forall in Hall. by rewrite (Hall s Hs). }
  rewrite Hu. unfold valid_distribution.
  destruct l as [|s l]; [done|]. rewrite fmap_cons. cbn [forallb length].
  done.
Qed.

Lemma exact_divide_by_zero (exp : Q → Q) : divide_by_zero (exact exp).
Proof.
  intros x t q Ht. simpl. unfold exact_divide.
  apply Qeq_bool_iff in Ht. rewrite Ht.
  by destruct (Qltb 0 x), (Qltb x 0).
Qed.

Lemma exact_scales_finitely (exp : Q → Q) (model : scorer) (temperature : Q) :
  ¬ (temperature == 0)%Q → scales_finitely (exact exp) model temperature.
Proof.
  intros Ht ctx rows logits x _ _ _. simpl. unfold exact_divide.
  destruct (Qeq_bool temperature 0) eqn:E; [by apply Qeq_bool_iff in E|].
  by eexists.
Qed.

Section Proofs.

Context {rng_state : Type}.
Variable multinomial : rng_state → list score → Z * rng_state.
Variable fp : numerics.
Variable uninit : nat → Z.

#[local] Abbreviation world := (world rng_state).

(** ** One iteration *)

Lemma loop_body_eq (model : scorer) (b : loc) (L T : nat) (max_seq_length : Z)
    (temperature : Q) (top_k eos_id : option Z) (t : nat) (buf : list Z)
    (w : world) :
  heap w !! b = Some buf → length buf = L → t < L →
  loop_body multinomial fp model (Tensor b 0 L) T max_seq_length temperature
      top_k eos_id t w
  = body_result multinomial fp model b T max_seq_length temperature top_k
      eos_id t buf w.
Proof.
  intros Hb HL Ht.
  unfold loop_body, body_result, mbind, M_bind, view_1_m1.
  rewrite (context_read _ b buf L T max_seq_length t Hb HL) by lia.
  set (ctx := window T max_seq_length (take t buf)).
  unfold call_model, log, lift, mbind, M_bind, step_probs. simpl.
  destruct (model ctx) as [rows|e]; simpl; [|done].
  destruct (next_token_probs fp temperature top_k rows) as [probs|e]; simpl;
      [|done].
  unfold torch_multinomial. simpl.
  destruct (valid_distribution probs); simpl; [|done].
  destruct (multinomial (rng w) probs) as [tok g] eqn:Em.
  unfold setitem, set_heap. simpl.
  rewrite decide_True by lia. simpl.
  rewrite (alter_at _ b buf) by done.
  unfold slice_to. simpl. rewrite (Nat.min_l (t + 1) L) by lia.
  replace (t + 1) with (S t) by lia.
  rewrite <- app_assoc. simpl.
  destruct (is_eos tok eos_id); reflexivity.
Qed.

(** ** The loop *)

Lemma samples_app (e1 e2 : list event) : samples (e1 ++ e2) = samples e1 ++
    samples e2.
Proof. unfold samples. apply omap_app. Qed.

Lemma contexts_app (e1 e2 : list event) : contexts (e1 ++ e2) = contexts e1 ++
    contexts e2.
Proof. unfold contexts. apply omap_app. Qed.

Lemma generate_loop_spec (model : scorer) (b : loc) (L T : nat)
    (max_seq_length : Z) (temperature : Q) (top_k eos_id : option Z) (n : nat) :
  ∀ (t : nat) (buf : list Z) (w : world) r w',
    heap w !! b = Some buf → length buf = L → t + n = L →
    generate_loop multinomial fp model (Tensor b 0 L) T max_seq_length temperature
      top_k eos_id n t w = (r, w') →
    run_spec b T max_seq_length eos_id t n buf w r w'.
Proof.
  induction n as [|n IH]; intros t buf w r w' Hb HL Hn Hrun.
  - simpl in Hrun. injection Hrun as <- <-.
    exists buf, []. simpl. rewrite Nat.add_0_r, app_nil_r.
    split_and!; try done.
    + by rewrite insert_id.
    + f_equal. lia.
    + lia.
    + by left.
  - simpl in Hrun. unfold mbind, M_bind in Hrun.
    rewrite (loop_body_eq model b L T max_seq_length temperature top_k eos_id t
        buf w Hb HL)
      in Hrun by lia.
    unfold body_result in Hrun.
    set (ctx := window T max_seq_length (take t buf)) in *.
    destruct (step_probs fp model temperature top_k ctx) as [probs|e].
    2:{ injection Hrun as <- <-. exists buf, [Scored ctx]. simpl.
        rewrite Nat.add_0_r.
        split_and!; try done; try lia.
        - by rewrite insert_id.
        - intros [|i] c Hi; [|done]. simpl in Hi. injection Hi as <-.
          by rewrite Nat.add_0_r.
        - intros tok Htok. by apply elem_of_nil in Htok. }
    destruct (multinomial (rng w) probs) as [tok g] eqn:Em.
    destruct (is_eos tok eos_id) eqn:Eeos.
    + injection Hrun as <- <-.
      exists (<[t := tok]> buf), [Scored ctx; Sampled probs tok]. simpl.
      split_and!; try done; try lia.
      * by rewrite length_insert.
      * by rewrite take_insert_ge.
      * by rewrite drop_insert_lt by lia.
      * rewrite (drop_S _ tok t); [done|].
        apply list_lookup_insert_eq. lia.
      * intros [|i] c Hi; [|done]. simpl in Hi. injection Hi as <-.
        by rewrite Nat.add_0_r, take_insert_ge.
      * f_equal. lia.
      * intros [|i] tk Hi Htk; [done|done].
      * intros _. by exists tok.
      * right. by exists probs, tok.
    + set (w1 := World (<[b:=<[t:=tok]> buf]> (heap w)) g
                   (trace w ++ [Scored ctx; Sampled probs tok])) in *.
      assert (Hb1 : heap w1 !! b = Some (<[t:=tok]> buf)) by apply lookup_insert_eq.
      assert (HL1 : length (<[t:=tok]> buf) = L) by by rewrite length_insert.
      destruct (IH (S t) _ w1 r w' Hb1 HL1 ltac:(lia) Hrun)
        as (buf' & evs & Hh & Htr & Hlen & Hm & Hpre & Hpost & Hsam & Hctx & Hout).
      assert (Hpre' : take t buf' = take t buf).
      { rewrite <- (take_insert_ge buf t t tok) by done.
        by apply (take_prefix_eq _ _ t (S t)); [lia|]. }
      assert (Htok : buf' !! t = Some tok).
      { rewrite <- (lookup_take_lt buf' (S t) t) by lia. rewrite Hpre.
        rewrite lookup_take_lt by lia. apply list_lookup_insert_eq. lia. }
      exists buf', (Scored ctx :: Sampled probs tok :: evs). simpl.
      split_and!.
      * rewrite Hh. simpl. apply insert_insert_eq.
      * rewrite Htr. simpl. by rewrite <- app_assoc.
      * by rewrite Hlen, length_insert.
      * lia.
      * done.
      * replace (t + S (length (samples evs))) with (S t + length (samples evs))
          by lia.
        rewrite Hpost. apply drop_insert_lt. lia.
      * rewrite (drop_S _ tok t) by done. simpl. by rewrite Hsam.
      * intros [|i] c Hi; simpl in Hi.
        -- injection Hi as <-. by rewrite Nat.add_0_r, Hpre'.
        -- replace (t + S i) with (S t + i) by lia. by apply Hctx.
      * destruct r as [out|e]; simpl in *.
        -- destruct Hout as (Ho & Hc1 & He1 & He2 & He3).
           split_and!.
           ++ rewrite Ho. f_equal. lia.
           ++ by rewrite Hc1.
           ++ intros [|i] tk Hi Htk; simpl in Hi.
              ** injection Hi as <-. congruence.
              ** f_equal. by eapply He1.
           ++ intros Hlt. destruct He2 as (tk & Hl & Htk); [lia|].
              exists tk. split; [|done].
              destruct (samples evs); [done|]. done.
           ++ right. destruct He3 as [->|(p & tk & Hl)].
              ** by exists probs, tok.
              ** exists p, tk. destruct evs; [done|]. done.
        -- destruct Hout as (Ho & Hc1 & He1). split_and!; try lia.
           intros tk [->|Hin]%elem_of_cons; [done|by apply He1].
Qed.

(** ** The prologue: allocation and copy of the prompt *)

Lemma fresh_storage (h : gmap loc (list Z)) (v : tensor) :
  tensor_in h v → storage v ≠ fresh (dom h).
Proof.
  intros (buf & Hb & _) Heq.
  apply (is_fresh (dom h)). rewrite <- Heq. apply elem_of_dom. by exists buf.
Qed.

Lemma generate_eq (model : scorer) (idx : tensor)
    (max_new_tokens max_seq_length : Z) (temperature : Q)
    (top_k eos_id : option Z) (w : world) :
  tensor_in (heap w) idx → (0 ≤ max_new_tokens)%Z →
  generate multinomial fp uninit model idx max_new_tokens max_seq_length
      temperature top_k eos_id w
  = generate_loop multinomial fp model
      (Tensor (fresh (dom (heap w))) 0 (size idx + Z.to_nat max_new_tokens))
      (size idx) max_seq_length temperature top_k eos_id
          (Z.to_nat max_new_tokens) (size idx)
      (World (<[fresh (dom (heap w)) :=
                  read (heap w) idx ++
                      (uninit <$> seq (size idx) (Z.to_nat max_new_tokens))]>
                (heap w))
             (rng w) (trace w)).
Proof.
  intros Hin Hm.
  pose proof (fresh_storage _ _ Hin) as Hne.
  pose proof (read_length _ _ Hin) as Hlen.
  unfold generate, mbind, M_bind, torch_empty.
  destruct (Z.of_nat (size idx) + max_new_tokens <? 0)%Z eqn:E; [lia|].
  replace (Z.to_nat (Z.of_nat (size idx) + max_new_tokens)) with
      (size idx + Z.to_nat max_new_tokens) by lia.
  replace (Z.to_nat (Z.of_nat (size idx) + max_new_tokens - Z.of_nat (size idx)))
    with (Z.to_nat max_new_tokens) by lia.
  unfold copy_, set_heap, slice_to. simpl.
  rewrite (Nat.min_l (size idx)) by lia.
  rewrite decide_True by done.
  rewrite read_insert_ne by done.
  rewrite (alter_at _ _ (uninit <$> seq 0 (size idx + Z.to_nat max_new_tokens)))
    by apply lookup_insert_eq.
  rewrite insert_insert_eq.
  unfold write_at. simpl. rewrite Hlen.
  rewrite <- fmap_drop, drop_seq.
  replace (size idx + Z.to_nat max_new_tokens - size idx) with
      (Z.to_nat max_new_tokens) by lia.
  reflexivity.
Qed.

(** ** When no step can fail *)

Lemma divide_all_finite (logits : list Q) (temperature : Q) :
  (∀ x, x ∈ logits → ∃ q, divide fp x temperature = Fin q) →
  ∃ scaled, div_temperature fp logits temperature = Fin <$> scaled.
Proof.
  induction logits as [|x l IH]; intros Hall; [by exists []|].
  destruct (Hall x) as [q Hq]; [apply list_elem_of_here|].
  destruct IH as [scaled Hs].
  { intros y Hy. apply Hall. by apply list_elem_of_further. }
  exists (q :: scaled). unfold div_temperature in *.
  rewrite !fmap_cons. by rewrite Hq, Hs.
Qed.

(** A step whose model call answers, whose quotients are finite and whose
    [top_k] is valid computes a distribution the sampler accepts. *)
Lemma step_probs_ok (model : scorer) (temperature : Q) (top_k : option Z)
    (ctx : list Z) (rows : list (list Q)) (logits : list Q) :
  model ctx = Ok rows → last rows = Some logits → logits ≠ [] →
  scales_finitely fp model temperature → softmax_ok fp → valid_top_k top_k →
  ∃ probs, step_probs fp model temperature top_k ctx = Ok probs.
Proof.
  intros Hrows Hlast Hne Hdiv Hsoft Hk.
  destruct (divide_all_finite logits temperature) as [scaled Hs].
  { intros x Hx. by eapply Hdiv. }
  unfold step_probs, next_token_probs, last_row. rewrite Hrows. simpl.
  rewrite Hlast. simpl. rewrite Hs.
  destruct (crop_top_k_ok scaled top_k) as (masked & -> & _ & Hall & Hfin);
    [|done|].
  { intros ->. apply (f_equal length) in Hs. unfold div_temperature in Hs.
    rewrite length_fmap in Hs. destruct logits; done. }
  simpl. rewrite (softmax_ok_valid fp masked) by done. by eexists.
Qed.

Lemma window_length (T : nat) (max_seq_length : Z) (s : list Z) :
  (0 < max_seq_length)%Z →
  length (window T max_seq_length s)
  = if (Z.of_nat T <=? max_seq_length)%Z then length s else Nat.min (length s)
      (Z.to_nat max_seq_length).
Proof.
  intros Hm. unfold window, drop_from.
  destruct (Z.of_nat T <=? max_seq_length)%Z; [done|].
  rewrite length_drop, slice_start_last by done. lia.
Qed.

Lemma window_nonempty (T : nat) (max_seq_length : Z) (s : list Z) :
  (0 < max_seq_length)%Z → s ≠ [] → window T max_seq_length s ≠ [].
Proof.
  intros Hm Hs Hw. apply (f_equal length) in Hw.
  rewrite window_length in Hw by done.
  assert (1 ≤ length s) by (destruct s; [done|simpl; lia]).
  simpl in Hw. destruct (Z.of_nat T <=? max_seq_length)%Z; lia.
Qed.

(** A loop none of whose contexts is longer than the model supports does
    not raise: with [T <= max_seq_length] the contexts grow up to
    [t + n - 1] tokens, with [T > max_seq_length] they are cropped. *)
Lemma generate_loop_ok (model : scorer) (b : loc) (L T : nat)
    (max_seq_length : Z) (temperature : Q) (top_k eos_id : option Z) (n : nat) :
  scorer_upto max_seq_length model →
  scales_finitely fp model temperature → softmax_ok fp → valid_top_k top_k →
  (0 < max_seq_length)%Z →
  ∀ (t : nat) (buf : list Z) (w : world),
    heap w !! b = Some buf → length buf = L → t + n = L → 1 ≤ t →
    (max_seq_length < Z.of_nat T ∨ Z.of_nat (t + n) - 1 ≤ max_seq_length)%Z →
    is_ok (generate_loop multinomial fp model (Tensor b 0 L) T max_seq_length
             temperature top_k eos_id n t w).1 = true.
Proof.
  intros Hmodel Hdiv Hsoft Hk Hmsl.
  induction n as [|n IH]; intros t buf w Hb HL Hn Ht Hfit; [done|].
  simpl. unfold mbind, M_bind.
  rewrite (loop_body_eq model b L T max_seq_length temperature top_k eos_id t
      buf w Hb HL) by lia.
  unfold body_result.
  set (ctx := window T max_seq_length (take t buf)).
  assert (Hctx : ctx ≠ []).
  { apply window_nonempty; [done|]. intros Hnil.
    apply (f_equal length) in Hnil. rewrite length_take in Hnil. simpl in Hnil.
    lia. }
  assert (Hlen : (Z.of_nat (length ctx) ≤ max_seq_length)%Z).
  { unfold ctx. rewrite window_length, length_take by done.
    destruct (Z.leb_spec (Z.of_nat T) max_seq_length); lia. }
  destruct (Hmodel ctx Hctx Hlen) as (rows & logits & Hrows & Hlast & Hne).
  destruct (step_probs_ok model temperature top_k ctx rows logits)
    as [probs ->]; try done.
  destruct (multinomial (rng w) probs) as [tok g].
  destruct (is_eos tok eos_id); [done|].
  apply (IH (S t) (<[t:=tok]> buf)); simpl.
  - apply lookup_insert_eq.
  - by rewrite length_insert.
  - lia.
  - lia.
  - lia.
Qed.

(** ** Whole runs *)

Lemma new_events_app (w w' : world) (evs : list event) :
  trace w' = trace w ++ evs → new_events w w' = evs.
Proof. intros H. unfold new_events. rewrite H. apply drop_app_length. Qed.

(** A run with [0 <= max_new_tokens], seen from the state the prologue
    leaves. *)
Lemma generate_run (model : scorer) (idx : tensor)
    (max_new_tokens max_seq_length : Z) (temperature : Q)
    (top_k eos_id : option Z) (w : world) r w' :
  tensor_in (heap w) idx → (0 ≤ max_new_tokens)%Z →
  generate multinomial fp uninit model idx max_new_tokens max_seq_length
      temperature top_k eos_id w
  = (r, w') →
  let b := fresh (dom (heap w)) in
  let buf := read (heap w) idx ++
      (uninit <$> seq (size idx) (Z.to_nat max_new_tokens)) in
  run_spec b (size idx) max_seq_length eos_id (size idx)
      (Z.to_nat max_new_tokens) buf
    (World (<[b := buf]> (heap w)) (rng w) (trace w)) r w'.
Proof.
  intros Hin Hm Hrun b buf. rewrite generate_eq in Hrun by done.
  eapply generate_loop_spec; [| |reflexivity|exact Hrun].
  - apply lookup_insert_eq.
  - unfold buf. rewrite length_app, length_fmap, length_seq.
    by rewrite read_length.
Qed.

(** A run with [max_new_tokens < 0]: the allocation or the copy raises,
    except for a prompt of one token and [max_new_tokens = -1], where the
    copy broadcasts into an empty buffer and the loop has no iteration. *)
Lemma generate_negative (model : scorer) (idx : tensor)
    (max_new_tokens max_seq_length : Z) (temperature : Q)
    (top_k eos_id : option Z) (w : world) :
  (max_new_tokens < 0)%Z →
  let b := fresh (dom (heap w)) in
  let x := generate multinomial fp uninit model idx max_new_tokens
      max_seq_length temperature
             top_k eos_id w in
  rng x.2 = rng w ∧ trace x.2 = trace w ∧
  (heap x.2 = heap w ∨ ∃ buf', heap x.2 = <[b := buf']> (heap w)) ∧
  ((Z.of_nat (size idx) + max_new_tokens < 0)%Z → x.1 = Raise
      err_negative_dimension) ∧
  ((0 ≤ Z.of_nat (size idx) + max_new_tokens)%Z → size idx ≠ 1 → x.1 = Raise
      err_expand) ∧
  ((0 ≤ Z.of_nat (size idx) + max_new_tokens)%Z → size idx = 1 → x.1 = Ok
      (Tensor b 0 0)).
Proof.
  intros Hm b x. subst x.
  unfold generate, mbind, M_bind, torch_empty.
  destruct (Z.of_nat (size idx) + max_new_tokens <? 0)%Z eqn:E.
  { simpl. split_and!; try done; try lia. by left. }
  unfold copy_, set_heap, slice_to. simpl. fold b.
  rewrite (Nat.min_r (size idx)) by lia.
  destruct (decide (size idx = Z.to_nat (Z.of_nat (size idx) + max_new_tokens)))
      as [|_]; [lia|].
  destruct (decide (size idx = 1)) as [H1|H1]; simpl.
  - replace (Z.to_nat (Z.of_nat (size idx) + max_new_tokens - Z.of_nat
      (size idx))) with 0 by lia.
    simpl. replace (Z.to_nat (Z.of_nat (size idx) + max_new_tokens)) with 0 by lia.
    split_and!; try done; try lia.
    right. eexists. rewrite (alter_at _ _ _ _ (lookup_insert_eq _ _ _)).
    apply insert_insert_eq.
  - split_and!; try done; try lia.
    right. by eexists.
Qed.

(** With [max_new_tokens = 0] the loop has no iteration. *)
Lemma generate_zero (model : scorer) (idx : tensor) (max_seq_length : Z)
    (temperature : Q) (top_k eos_id : option Z) (w : world) :
  tensor_in (heap w) idx →
  ∃ out w',
    generate multinomial fp uninit model idx 0 max_seq_length temperature top_k
        eos_id w
    = (Ok out, w') ∧
    read (heap w') out = read (heap w) idx ∧
    trace w' = trace w ∧ rng w' = rng w.
Proof.
  intros Hin. rewrite generate_eq by done. simpl.
  eexists _, _. split; [reflexivity|]. simpl. split; [|done].
  rewrite (read_prefix _ _ _ _ (lookup_insert_eq _ _ _)).
  rewrite app_nil_r, Nat.add_0_r. apply take_ge.
  by rewrite read_length.
Qed.

Lemma prologue_length (idx : tensor) (h : gmap loc (list Z)) (n : nat) :
  tensor_in h idx →
  length (read h idx ++ (uninit <$> seq (size idx) n)) = size idx + n.
Proof.
  intros Hin. by rewrite length_app, length_fmap, length_seq, read_length.
Qed.

Lemma contexts_bound (b : loc) (eos_id : option Z) (t n : nat)
    (evs : list event) (r : result tensor) :
  outcome_spec b eos_id t n evs r →
  length (contexts evs) ≤ S (length (samples evs)).
Proof. destruct r; simpl; [intros (_ & -> & _); lia|intros (_ & -> & _); lia]. Qed.

Lemma last_sampled (evs : list event) (p : list score) (tok : Z) :
  last evs = Some (Sampled p tok) → last (samples evs) = Some tok.
Proof.
  intros [l' ->]%last_Some. rewrite samples_app. simpl. apply last_snoc.
Qed.

(** What every run with [0 <= max_new_tokens] leaves behind, in terms of the
    prompt [p], the buffer [buf'] and the events [evs] of the run. *)
Lemma generate_summary (model : scorer) (idx : tensor)
    (max_new_tokens max_seq_length : Z) (temperature : Q)
    (top_k eos_id : option Z) (w : world) r w' :
  tensor_in (heap w) idx → (0 ≤ max_new_tokens)%Z →
  generate multinomial fp uninit model idx max_new_tokens max_seq_length
      temperature top_k eos_id w
  = (r, w') →
  let b := fresh (dom (heap w)) in
  let T := size idx in
  let n := Z.to_nat max_new_tokens in
  let evs := new_events w w' in
  ∃ buf',
    heap w' = <[b := buf']> (heap w) ∧
    trace w' = trace w ++ evs ∧
    length buf' = T + n ∧
    length (samples evs) ≤ n ∧
    take T buf' = read (heap w) idx ∧
    take (length (samples evs)) (drop T buf') = samples evs ∧
    (∀ i, T + length (samples evs) ≤ i < T + n → buf' !! i = Some (uninit i)) ∧
    (∀ i ctx, contexts evs !! i = Some ctx →
       ctx = window T max_seq_length (read (heap w) idx ++ take i (samples evs)) ∧
       i ≤ length (samples evs)) ∧
    outcome_spec b eos_id T n evs r.
Proof.
  intros Hin Hm Hrun b T n evs.
  pose proof (generate_run _ _ _ _ _ _ _ _ _ _ Hin Hm Hrun) as Hspec.
  simpl in Hspec. fold b T n in Hspec.
  destruct Hspec as (buf' & evs' & Hh & Htr & Hlen & Hmn & Hpre & Hpost & Hsam &
      Hctx & Hout).
  simpl in Hh, Htr.
  assert (evs = evs') as <- by by apply new_events_app.
  rewrite prologue_length in Hlen by done. fold T n in Hlen.
  assert (Hp : take T buf' = read (heap w) idx).
  { rewrite Hpre. apply take_app_length'. by rewrite read_length. }
  exists buf'. split_and!; try done.
  - rewrite Hh. apply insert_insert_eq.
  - intros i [Hi1 Hi2].
    replace i with (T + length (samples evs) + (i - (T + length (samples evs))))
        at 1 by lia.
    rewrite <- lookup_drop, Hpost, lookup_drop.
    rewrite lookup_app_r by (rewrite read_length by done; fold T; lia).
    rewrite read_length by done. fold T.
    rewrite list_lookup_fmap, lookup_seq_lt by lia. simpl. f_equal. f_equal. lia.
  - intros i ctx Hi.
    assert (Him : i ≤ length (samples evs)).
    { apply lookup_lt_Some in Hi. apply contexts_bound in Hout. lia. }
    rewrite (Hctx i ctx Hi). split; [|done].
    f_equal. rewrite <- take_take_drop, Hp. f_equal.
    rewrite <- Hsam, take_take. f_equal. lia.
Qed.

(** The first iteration of a run with [0 < max_new_tokens]: the model is
    called on the window of the prompt; a token is drawn if the model
    answers and the distribution is accepted, and otherwise the run ends
    there with the exception of that step. *)
Lemma generate_first_step (model : scorer) (idx : tensor)
    (max_new_tokens max_seq_length : Z) (temperature : Q)
    (top_k eos_id : option Z) (w : world) r w' :
  tensor_in (heap w) idx → (0 < max_new_tokens)%Z →
  generate multinomial fp uninit model idx max_new_tokens max_seq_length
      temperature top_k eos_id w
  = (r, w') →
  let ctx := window (size idx) max_seq_length (read (heap w) idx) in
  ∃ rest,
    new_events w w' = Scored ctx :: rest ∧
    match step_probs fp model temperature top_k ctx with
    | Ok probs =>
        ∃ rest', rest = Sampled probs (multinomial (rng w) probs).1 :: rest'
    | Raise e => rest = [] ∧ r = Raise e ∧ rng w' = rng w
    end.
Proof.
  intros Hin Hm Hrun ctx.
  rewrite generate_eq in Hrun by (done || lia).
  set (b := fresh (dom (heap w))) in *.
  set (buf := read (heap w) idx ++
      (uninit <$> seq (size idx) (Z.to_nat max_new_tokens))) in *.
  assert (Hbuf : length buf = size idx + Z.to_nat max_new_tokens) by by apply
      prologue_length.
  assert (Htake : take (size idx) buf = read (heap w) idx).
  { unfold buf. apply take_app_length'. by rewrite read_length. }
  destruct (Z.to_nat max_new_tokens) as [|n] eqn:En; [lia|].
  simpl in Hrun. unfold mbind, M_bind in Hrun.
  rewrite (loop_body_eq model b _ (size idx) max_seq_length temperature top_k eos_id
             (size idx) buf _ (lookup_insert_eq _ _ _) Hbuf) in Hrun by lia.
  unfold body_result in Hrun. rewrite Htake in Hrun. fold ctx in Hrun.
  simpl in Hrun.
  destruct (step_probs fp model temperature top_k ctx) as [probs|err].
  2:{ injection Hrun as <- <-. exists []. split; [|done].
      by apply new_events_app. }
  destruct (multinomial (rng w) probs) as [tok g] eqn:Em.
  destruct (is_eos tok eos_id).
  { injection Hrun as <- <-. exists [Sampled probs tok]. split.
    - by apply new_events_app.
    - by exists []. }
  eapply generate_loop_spec in Hrun;
    [|apply lookup_insert_eq|by rewrite length_insert|lia].
  destruct Hrun as (buf' & evs & _ & Htr & _). simpl in Htr.
  exists (Sampled probs tok :: evs). split.
  - apply new_events_app. rewrite Htr. by rewrite <- app_assoc.
  - by exists evs.
Qed.

(** Two runs of the loop whose buffers agree up to the current step and
    whose generators are in the same state do the same. *)
Lemma generate_loop_sim (model : scorer) (b1 b2 : loc) (L T : nat)
    (max_seq_length : Z) (temperature : Q) (top_k eos_id : option Z) (n : nat) :
  ∀ (t : nat) (buf1 buf2 : list Z) (w1 w2 : world),
    heap w1 !! b1 = Some buf1 → heap w2 !! b2 = Some buf2 →
    length buf1 = L → length buf2 = L → t + n = L →
    take t buf1 = take t buf2 → rng w1 = rng w2 →
    let x1 := generate_loop multinomial fp model (Tensor b1 0 L) T max_seq_length
                temperature top_k eos_id n t w1 in
    let x2 := generate_loop multinomial fp model (Tensor b2 0 L) T max_seq_length
                temperature top_k eos_id n t w2 in
    output x1 = output x2 ∧ rng x1.2 = rng x2.2 ∧
    ∃ evs, trace x1.2 = trace w1 ++ evs ∧ trace x2.2 = trace w2 ++ evs.
Proof.
  induction n as [|n IH]; intros t buf1 buf2 w1 w2 Hb1 Hb2 HL1 HL2 Hn Hpre Hrng.
  - simpl. unfold output. simpl.
    rewrite (read_prefix _ _ _ _ Hb1), (read_prefix _ _ _ _ Hb2).
    replace L with t by lia. rewrite Hpre.
    split_and!; [done|done|]. exists []. by rewrite !app_nil_r.
  - simpl. unfold mbind, M_bind.
    rewrite (loop_body_eq model b1 L T max_seq_length temperature top_k eos_id t
        buf1 w1 Hb1 HL1)
      by lia.
    rewrite (loop_body_eq model b2 L T max_seq_length temperature top_k eos_id t
        buf2 w2 Hb2 HL2)
      by lia.
    unfold body_result. rewrite <- Hpre, <- Hrng.
    set (ctx := window T max_seq_length (take t buf1)).
    destruct (step_probs fp model temperature top_k ctx) as [probs|err].
    2:{ simpl. split_and!; [done|done|]. by exists [Scored ctx]. }
    destruct (multinomial (rng w1) probs) as [tok g] eqn:Em.
    assert (Hpre' : take (S t) (<[t:=tok]> buf1) = take (S t) (<[t:=tok]> buf2)).
    { rewrite !(take_S_r _ t tok) by (apply list_lookup_insert_eq; lia).
      by rewrite !take_insert_ge, Hpre by done. }
    destruct (is_eos tok eos_id).
    + unfold output. simpl.
      rewrite !(read_prefix _ _ _ _ (lookup_insert_eq _ _ _)), Hpre'.
      split_and!; [done|done|]. by eexists.
    + match goal with
      | |- context [generate_loop _ _ _ (Tensor b1 0 L) _ _ _ _ _ n (S t) ?w] =>
          set (w1' := w)
      end.
      match goal with
      | |- context [generate_loop _ _ _ (Tensor b2 0 L) _ _ _ _ _ n (S t) ?w] =>
          set (w2' := w)
      end.
      destruct (IH (S t) (<[t:=tok]> buf1) (<[t:=tok]> buf2) w1' w2')
        as (Hout & Hr & evs & Ht1 & Ht2);
        try (apply lookup_insert_eq); try (by rewrite length_insert);
        try done; try lia.
      split_and!; [done|done|].
      exists (Scored ctx :: Sampled probs tok :: evs).
      rewrite Ht1, Ht2. simpl. by rewrite <- !app_assoc.
Qed.

(** ** The log of a run *)

Lemma generate_loop_log (model : scorer) (b : loc) (L T : nat)
    (max_seq_length : Z) (temperature : Q) (top_k eos_id : option Z)
    (n : nat) :
  ∀ (t : nat) (buf : list Z) (w : world),
    heap w !! b = Some buf → length buf = L → t + n = L →
    let x := generate_loop multinomial fp model (Tensor b 0 L) T
               max_seq_length temperature top_k eos_id n t w in
    ∃ evs,
      trace x.2 = trace w ++ evs ∧
      run_log multinomial fp model temperature top_k (rng w) evs (rng x.2)
        (raised x.1).
Proof.
  induction n as [|n IH]; intros t buf w Hb HL Hn.
  { simpl. exists []. rewrite app_nil_r. split; [done|]. constructor. }
  simpl. unfold mbind, M_bind.
  rewrite (loop_body_eq model b L T max_seq_length temperature
             top_k eos_id t buf w Hb HL) by lia.
  unfold body_result.
  set (ctx := window T max_seq_length (take t buf)).
  destruct (step_probs fp model temperature top_k ctx) as [probs|e] eqn:Es.
  2:{ simpl. exists [Scored ctx]. split; [done|]. by constructor. }
  destruct (multinomial (rng w) probs) as [tok g] eqn:Em.
  assert (Htok : tok = (multinomial (rng w) probs).1) by by rewrite Em.
  assert (Hg : g = (multinomial (rng w) probs).2) by by rewrite Em.
  destruct (is_eos tok eos_id).
  { simpl. exists [Scored ctx; Sampled probs tok]. split; [done|].
    rewrite Htok. apply log_step; [done|]. rewrite <- Hg. constructor. }
  match goal with
  | |- context [generate_loop _ _ _ _ _ _ _ _ _ n (S t) ?w1] => set (w' := w1)
  end.
  destruct (IH (S t) (<[t:=tok]> buf) w') as (evs & Htr & Hlog).
  - apply lookup_insert_eq.
  - by rewrite length_insert.
  - lia.
  - exists (Scored ctx :: Sampled probs tok :: evs). split.
    + rewrite Htr. simpl. by rewrite <- app_assoc.
    + rewrite Htok. apply log_step; [done|]. rewrite <- Hg. exact Hlog.
Qed.

Lemma generate_log (model : scorer) (idx : tensor)
    (max_new_tokens max_seq_length : Z) (temperature : Q)
    (top_k eos_id : option Z) (w : world) r w' :
  tensor_in (heap w) idx → (0 ≤ max_new_tokens)%Z →
  generate multinomial fp uninit model idx max_new_tokens max_seq_length
    temperature top_k eos_id w
  = (r, w') →
  run_log multinomial fp model temperature top_k
    (rng w) (new_events w w') (rng w') (raised r).
Proof.
  intros Hin Hm Hrun. rewrite generate_eq in Hrun by done.
  destruct (generate_loop_log model (fresh (dom (heap w)))
              (size idx + Z.to_nat max_new_tokens) (size idx) max_seq_length
              temperature top_k eos_id (Z.to_nat max_new_tokens) (size idx)
              (read (heap w) idx
               ++ (uninit <$> seq (size idx) (Z.to_nat max_new_tokens)))
              (World (<[fresh (dom (heap w)) :=
                          read (heap w) idx
                          ++ (uninit <$> seq (size idx) (Z.to_nat max_new_tokens))]>
                        (heap w)) (rng w) (trace w))
              (lookup_insert_eq _ _ _) (prologue_length idx (heap w) _ Hin)
              eq_refl)
    as (evs & Htr & Hlog).
  rewrite Hrun in Htr, Hlog. simpl in Htr, Hlog.
  by rewrite (new_events_app w w' evs Htr).
Qed.

Lemma run_log_raised (model : scorer) (temperature : Q) (top_k : option Z)
    (g g' : rng_state) (evs : list event) (o : option exn) (x : exn) :
  run_log multinomial fp model temperature top_k g evs g' o → o = Some x →
  ∃ c, last (contexts evs) = Some c ∧
       step_probs fp model temperature top_k c = Raise x ∧
       length (contexts evs) = S (length (samples evs)).
Proof.
  induction 1 as [|g ctx e Hs|g ctx probs evs g' o Hs Hlog IH]; intros Ho.
  - done.
  - injection Ho as ->. by exists ctx.
  - destruct (IH Ho) as (c & Hlast & Hc & Hlen). exists c. split_and!.
    + simpl. rewrite last_cons, Hlast. done.
    + done.
    + simpl. by rewrite Hlen.
Qed.

Lemma window_nil (T : nat) (max_seq_length : Z) : window T max_seq_length [] = [].
Proof. unfold window, drop_from. destruct (Z.of_nat T <=? max_seq_length)%Z;
    [done|]. by rewrite drop_nil. Qed.

(** ** The claims *)

(** Claim C1, as the code has it.  Take [eos_id = None], a prompt of length
    [T >= 1], [0 <= max_new_tokens], a positive [max_seq_length], [top_k]
    absent or at least 1, and a model that answers every non-empty context
    of at most [max_seq_length] tokens.  If no context of the run is longer
    than [max_seq_length] (the prompt is longer than [max_seq_length] and is
    cropped, or [T + max_new_tokens - 1 <= max_seq_length]) and the division
    of the logits by the temperature does not overflow, then [generate]
    returns, and the returned sequence has length exactly
    [T + max_new_tokens] and starts with the prompt. *)
Theorem generate_length_and_prefix (model : scorer) (idx : tensor)
    (max_new_tokens max_seq_length : Z) (temperature : Q)
    (top_k : option Z) (w : world) :
  tensor_in (heap w) idx →
  1 ≤ size idx →
  (0 ≤ max_new_tokens)%Z →
  (0 < max_seq_length)%Z →
  valid_top_k top_k →
  scorer_upto max_seq_length model →
  (max_seq_length < Z.of_nat (size idx)
   ∨ Z.of_nat (size idx) + max_new_tokens - 1 ≤ max_seq_length)%Z →
  scales_finitely fp model temperature →
  softmax_ok fp →
  ∃ out w',
    generate multinomial fp uninit model idx max_new_tokens max_seq_length
      temperature top_k None w
    = (Ok out, w') ∧
    length (read (heap w') out) = size idx + Z.to_nat max_new_tokens ∧
    take (size idx) (read (heap w') out) = read (heap w) idx.
Proof.
  intros Hin HT Hm Hmsl Hk Hmodel Hfit Hdiv Hsoft.
  destruct (generate multinomial fp uninit model idx max_new_tokens
      max_seq_length temperature
              top_k None w) as [r w'] eqn:Hrun.
  pose proof (generate_run _ _ _ _ _ _ _ _ _ _ Hin Hm Hrun) as Hspec.
  simpl in Hspec.
  rewrite generate_eq in Hrun by done.
  set (b := fresh (dom (heap w))) in *.
  set (buf := read (heap w) idx ++
      (uninit <$> seq (size idx) (Z.to_nat max_new_tokens))) in *.
  assert (Hbuf : length buf = size idx + Z.to_nat max_new_tokens) by by apply
      prologue_length.
  assert (Hok : is_ok r = true).
  { pose proof (generate_loop_ok model b (size idx + Z.to_nat max_new_tokens)
      (size idx) max_seq_length temperature top_k None (Z.to_nat max_new_tokens)
      Hmodel Hdiv Hsoft Hk Hmsl (size idx) buf
      (World (<[b:=buf]> (heap w)) (rng w) (trace w)) (lookup_insert_eq _ _ _)
      Hbuf eq_refl HT) as H.
    rewrite Hrun in H. apply H. lia. }
  destruct r as [out|e]; [|done].
  destruct Hspec as (buf' & evs & Hh & Htr & Hlen & Hmn & Hpre & Hpost & Hsam &
      Hctx & Hout).
  simpl in Hout, Hh. destruct Hout as (-> & _ & _ & Hend & _).
  assert (Hfull : length (samples evs) = Z.to_nat max_new_tokens).
  { destruct (decide (length (samples evs) < Z.to_nat max_new_tokens)) as
      [Hlt|]; [|lia].
    by destruct (Hend Hlt) as (tok & _ & ?). }
  exists (Tensor b 0 (size idx + length (samples evs))), w'.
  split; [done|].
  rewrite (read_prefix _ b buf') by (rewrite Hh; apply lookup_insert_eq).
  rewrite Hfull, <- Hbuf, <- Hlen, firstn_all.
  split; [lia|].
  rewrite Hpre. unfold buf. apply take_app_length'. by rewrite read_length.
Qed.

(** Claim C6.  With [max_new_tokens = 0], whatever the other parameters,
    [generate] returns the tokens of the prompt, no more and no fewer, and
    the model is never called (the log of the run is unchanged). *)
Theorem generate_zero_new_tokens (model : scorer) (idx : tensor)
    (max_seq_length : Z) (temperature : Q) (top_k eos_id : option Z)
    (w : world) :
  tensor_in (heap w) idx →
  ∃ out w',
    generate multinomial fp uninit model idx 0 max_seq_length
      temperature top_k eos_id w
    = (Ok out, w') ∧
    read (heap w') out = read (heap w) idx ∧
    contexts (new_events w w') = [] ∧
    samples (new_events w w') = [].
Proof.
  intros Hin.
  destruct (generate_zero model idx max_seq_length temperature top_k eos_id w Hin)
    as (out & w' & Hrun & Hread & Htr & _).
  exists out, w'. split_and!; try done.
  - by rewrite (new_events_app w w' []) by by rewrite app_nil_r.
  - by rewrite (new_events_app w w' []) by by rewrite app_nil_r.
Qed.

(** Claim C3.  The truncation test looks at the length [T] of the original
    prompt.  At the step that makes the [i]-th call to the model the
    sequence so far is the prompt followed by the [i] tokens drawn before,
    of length [t = T + i].  If [T <= max_seq_length] the model is given that
    whole sequence, however long it has grown; if [T > max_seq_length] (a
    positive [max_seq_length]) it is given its last [max_seq_length]
    tokens. *)
Theorem context_trigger_is_prompt_length (model : scorer) (idx : tensor)
    (max_new_tokens max_seq_length : Z) (temperature : Q)
    (top_k eos_id : option Z) (w : world) r w' (i : nat) (ctx : list Z) :
  tensor_in (heap w) idx →
  generate multinomial fp uninit model idx max_new_tokens max_seq_length
    temperature top_k eos_id w
  = (r, w') →
  contexts (new_events w w') !! i = Some ctx →
  let seq_t := read (heap w) idx ++ take i (samples (new_events w w')) in
  length seq_t = size idx + i ∧
  ((Z.of_nat (size idx) ≤ max_seq_length)%Z → ctx = seq_t) ∧
  ((max_seq_length < Z.of_nat (size idx))%Z → (0 < max_seq_length)%Z →
     ctx = drop (length seq_t - Z.to_nat max_seq_length) seq_t ∧
     length ctx = Z.to_nat max_seq_length).
Proof.
  intros Hin Hrun Hi seq_t.
  destruct (decide (max_new_tokens < 0)%Z) as [Hneg|Hpos].
  { pose proof (generate_negative model idx max_new_tokens max_seq_length
      temperature top_k eos_id w
                  Hneg) as H.
    simpl in H. rewrite Hrun in H. destruct H as (_ & Htr & _).
    rewrite (new_events_app w w' []) in Hi by by rewrite app_nil_r. done. }
  assert (Hm0 : (0 ≤ max_new_tokens)%Z) by lia.
  destruct (generate_summary _ _ _ _ _ _ _ _ _ _ Hin Hm0 Hrun)
    as (buf' & Hh & Htr & Hlen & Hmn & Hp & Hsam & Hun & Hctx & Hout).
  destruct (Hctx i ctx Hi) as (Hc & Him). fold seq_t in Hc.
  assert (Hseq : length seq_t = size idx + i).
  { unfold seq_t. rewrite length_app, read_length, length_take by done. lia. }
  split; [done|]. unfold window in Hc. split.
  - intros Hle. by destruct (Z.leb_spec (Z.of_nat (size idx)) max_seq_length);
      [|lia].
  - intros Hlt Hmsl. destruct (Z.leb_spec (Z.of_nat (size idx)) max_seq_length);
      [lia|].
    unfold drop_from in Hc. rewrite slice_start_last in Hc by done.
    split; [done|]. rewrite Hc, length_drop. lia.
Qed.

(** Claim C4.  With [eos_id = e]: if the token drawn at step [k] (the draw
    number [k - T] of the run) is [e], then [generate] returns; the returned
    sequence has length exactly [k + 1] and ends with [e] at index [k]; that
    draw is the last event of the run (no further call to the model, no
    further draw); [k] is below [T + max_new_tokens]; and the positions of
    the buffer after [k] still hold what the allocation left there. *)
Theorem generate_stops_at_eos (model : scorer) (idx : tensor)
    (max_new_tokens max_seq_length : Z) (temperature : Q)
    (top_k : option Z) (e : Z) (w : world) r w' (k : nat) :
  tensor_in (heap w) idx →
  generate multinomial fp uninit model idx max_new_tokens max_seq_length
    temperature top_k (Some e) w
  = (r, w') →
  size idx ≤ k →
  samples (new_events w w') !! (k - size idx) = Some e →
  ∃ out,
    r = Ok out ∧
    length (read (heap w') out) = k + 1 ∧
    read (heap w') out !! k = Some e ∧
    (∃ p, last (new_events w w') = Some (Sampled p e)) ∧
    length (samples (new_events w w')) = k + 1 - size idx ∧
    length (contexts (new_events w w')) = k + 1 - size idx ∧
    (Z.of_nat k < Z.of_nat (size idx) + max_new_tokens)%Z ∧
    (∀ i, k < i → (Z.of_nat i < Z.of_nat (size idx) + max_new_tokens)%Z →
       contents (heap w') (storage out) !! i = Some (uninit i)).
Proof.
  intros Hin Hrun Hk Hs.
  destruct (decide (max_new_tokens < 0)%Z) as [Hneg|Hpos].
  { pose proof (generate_negative model idx max_new_tokens max_seq_length
      temperature top_k (Some e) w
                  Hneg) as H.
    simpl in H. rewrite Hrun in H. destruct H as (_ & Htr & _).
    rewrite (new_events_app w w' []) in Hs by by rewrite app_nil_r. done. }
  assert (Hm0 : (0 ≤ max_new_tokens)%Z) by lia.
  destruct (generate_summary _ _ _ _ _ _ _ _ _ _ Hin Hm0 Hrun)
    as (buf' & Hh & Htr & Hlen & Hmn & Hp & Hsam & Hun & Hctx & Hout).
  set (evs := new_events w w') in *.
  set (b := fresh (dom (heap w))) in *.
  assert (Heos : is_eos e (Some e) = true) by (simpl; apply Z.eqb_refl).
  assert (Hb : heap w' !! b = Some buf') by (rewrite Hh; apply lookup_insert_eq).
  destruct r as [out|err]; simpl in Hout.
  2:{ destruct Hout as (_ & _ & Hno).
      specialize (Hno e (list_elem_of_lookup_2 _ _ _ Hs)).
      simpl in Hno. by rewrite Z.eqb_refl in Hno. }
  destruct Hout as (-> & Hc & Hlast & _ & Hev).
  pose proof (Hlast _ _ Hs Heos) as Hm.
  exists (Tensor b 0 (size idx + length (samples evs))). simpl.
  rewrite (read_prefix _ b buf') by done.
  unfold contents. rewrite Hb. simpl.
  split_and!; try done; try lia.
  - rewrite length_take. lia.
  - rewrite lookup_take_lt by lia.
    replace k with (size idx + (k - size idx)) by lia.
    rewrite <- lookup_drop, <- (lookup_take_lt _ (length (samples evs))) by lia.
    by rewrite Hsam.
  - destruct Hev as [Hnil|(p & tok & Hl)].
    { rewrite Hnil in Hs. done. }
    exists p. rewrite Hl. do 2 f_equal.
    apply last_sampled in Hl. rewrite last_lookup in Hl.
    replace (Init.Nat.pred (length (samples evs))) with (k - size idx) in Hl by lia.
    congruence.
  - intros i Hi1 Hi2. apply Hun. lia.
Qed.

(** Claim C5, as the code has it.  One step, for a model that answers with a
    non-empty vocabulary, [top_k] absent or at least 1, and logits whose
    quotients by the temperature are finite ([scaled]).  If [top_k = k], the
    cut [c] is a [min k V]-th largest scaled logit; the entries strictly
    below [c] become minus infinity and have probability zero, the entries
    equal to or above [c] are kept as they are.  An entry that no scaled
    logit exceeds has a positive probability; a kept entry below the largest
    can have probability zero.  Softmax is applied to the masked logits,
    exactly one token is drawn from its result, and written at position
    [t]. *)
Theorem step_scales_masks_and_samples (model : scorer) (b : loc) (L T : nat)
    (max_seq_length : Z) (temperature : Q) (top_k eos_id : option Z)
    (t : nat) (buf : list Z) (w : world) (rows : list (list Q))
    (logits scaled : list Q) :
  heap w !! b = Some buf → length buf = L → t < L →
  model (window T max_seq_length (take t buf)) = Ok rows →
  last rows = Some logits → logits ≠ [] →
  div_temperature fp logits temperature = Fin <$> scaled →
  valid_top_k top_k → softmax_ok fp →
  let ctx := window T max_seq_length (take t buf) in
  ∃ masked : list score,
    match top_k with
    | None => masked = Fin <$> scaled
    | Some k =>
        ∃ c,
          kth_largest scaled
            (Z.to_nat (Z.min k (Z.of_nat (length logits)))) c ∧
          (∀ i x, scaled !! i = Some x →
             ((x < c)%Q →
                masked !! i = Some NegInf ∧
                ∃ p, softmax fp masked !! i = Some (Fin p) ∧ (p == 0)%Q) ∧
             ((c <= x)%Q → masked !! i = Some (Fin x)))
    end ∧
    length masked = length logits ∧
    (∀ i x, scaled !! i = Some x → (∀ y, y ∈ scaled → (y <= x)%Q) →
       ∃ p, softmax fp masked !! i = Some (Fin p) ∧ (0 < p)%Q) ∧
    let probs := softmax fp masked in
    loop_body multinomial fp model (Tensor b 0 L) T max_seq_length
      temperature top_k eos_id t w
    = (Ok (if is_eos (multinomial (rng w) probs).1 eos_id
           then Some (Tensor b 0 (S t)) else None),
       World (<[b := <[t := (multinomial (rng w) probs).1]> buf]> (heap w))
             (multinomial (rng w) probs).2
             (trace w ++ [Scored ctx;
                          Sampled probs (multinomial (rng w) probs).1])).
Proof.
  intros Hb HL Ht Hrows Hlast Hne Hdiv Hk Hsoft ctx.
  assert (Hlen : length scaled = length logits).
  { apply (f_equal length) in Hdiv. unfold div_temperature in Hdiv.
    rewrite !length_fmap in Hdiv. done. }
  assert (Hsc : scaled ≠ []) by (intros ->; by destruct logits).
  destruct (crop_top_k_ok scaled top_k Hsc Hk)
    as (masked & Hcrop & Hmlen & Hall & Hfin).
  destruct (Hsoft masked Hall Hfin) as [Hslen Hent].
  (* every entry of [masked] is minus infinity or one of the scaled logits *)
  assert (Hshape : ∀ i x, scaled !! i = Some x →
            masked !! i = Some NegInf ∨ masked !! i = Some (Fin x)).
  { intros i x Hi. destruct top_k as [k|]; simpl in Hk.
    - destruct (crop_top_k_some scaled k Hsc Hk) as (c & _ & Hc).
      rewrite Hcrop in Hc. injection Hc as ->.
      rewrite (mask_below_lookup _ _ _ _ Hi). destruct (Qltb x c); auto.
    - injection Hcrop as <-. right. by rewrite list_lookup_fmap, Hi. }
  exists masked. split_and!.
  - destruct top_k as [k|]; simpl in Hk; [|by injection Hcrop].
    destruct (crop_top_k_some scaled k Hsc Hk) as (c & Hc & Hcrop').
    rewrite Hcrop in Hcrop'. injection Hcrop' as Hmasked.
    rewrite Hlen in Hc.
    set (k' := Z.to_nat (Z.min k (Z.of_nat (length logits)))) in *.
    assert (Hk' : 1 ≤ k').
    { assert (1 ≤ length logits) by (destruct logits; [done|simpl; lia]). lia. }
    exists c. split; [by apply kth_largest_counts|].
    intros i x Hi.
    assert (Hmask : masked !! i = Some (if Qltb x c then NegInf else Fin x)).
    { rewrite Hmasked. by apply mask_below_lookup. }
    split.
    + intros Hlt. apply Qltb_lt in Hlt. rewrite Hlt in Hmask.
      split; [done|].
      destruct (Hent i NegInf Hmask) as (p & Hp & _ & Hzero & _).
      exists p. split; [done|]. by apply Hzero.
    + intros Hle. apply Qltb_ge in Hle. by rewrite Hle in Hmask.
  - by rewrite Hmlen.
  - intros i x Hi Hmax.
    assert (Hkept : masked !! i = Some (Fin x)).
    { destruct top_k as [k|]; simpl in Hk.
      - destruct (crop_top_k_some scaled k Hsc Hk) as (c & Hc & Hcrop').
        rewrite Hcrop in Hcrop'. injection Hcrop' as ->.
        rewrite (mask_below_lookup _ _ _ _ Hi).
        assert (Hin : c ∈ scaled).
        { eapply (kth_largest_counts scaled
            (Z.to_nat (Z.min k (Z.of_nat (length scaled))))); [|done].
          destruct scaled; [done|]. simpl length. lia. }
        specialize (Hmax c Hin). apply Qltb_ge in Hmax. by rewrite Hmax.
      - injection Hcrop as <-. by rewrite list_lookup_fmap, Hi. }
    destruct (Hent i (Fin x) Hkept) as (p & Hp & _ & _ & Hpos).
    exists p. split; [done|]. apply Hpos.
    intros s' [j Hj]%list_elem_of_lookup.
    destruct (lookup_lt_is_Some_2 scaled j) as [y Hy].
    { rewrite <- Hmlen. by eapply lookup_lt_Some. }
    destruct (Hshape j y Hy) as [Hs'|Hs']; rewrite Hs' in Hj;
      injection Hj as <-; [done|].
    simpl. apply Qltb_ge. apply Hmax. by eapply list_elem_of_lookup_2.
  - intros probs.
    rewrite (loop_body_eq model b L T max_seq_length temperature top_k eos_id t
        buf w Hb HL Ht).
    unfold body_result. fold ctx.
    unfold step_probs, next_token_probs, last_row. fold ctx in Hrows.
    rewrite Hrows. simpl. rewrite Hlast. simpl.
    rewrite Hdiv, Hcrop. simpl.
    rewrite (softmax_ok_valid fp masked Hsoft Hall Hfin). fold probs.
    by destruct (multinomial (rng w) probs).
Qed.

(** Claim C7, as the code has it.  [generate] checks no parameter before the
    loop.  Only a negative [max_new_tokens] keeps the run away from the
    model, and the run then raises a torch error: at the allocation when
    [T + max_new_tokens < 0], at the copy of the prompt when
    [max_new_tokens < 0 <= T + max_new_tokens] and [T <> 1].  A non-positive
    [max_seq_length] or [temperature] and an empty prompt are not rejected:
    with [max_new_tokens = 0] the prompt is returned and the model is not
    called, and with [0 < max_new_tokens] the model is called at step [T] on
    the cropped prompt, which is the empty context when the prompt is
    empty. *)
Theorem generate_checks_no_parameter (model : scorer) (idx : tensor)
    (max_new_tokens max_seq_length : Z) (temperature : Q)
    (top_k eos_id : option Z) (w : world) r w' :
  tensor_in (heap w) idx →
  generate multinomial fp uninit model idx max_new_tokens max_seq_length
    temperature top_k eos_id w
  = (r, w') →
  let evs := new_events w w' in
  let p := read (heap w) idx in
  let T := size idx in
  ((max_new_tokens < 0)%Z → contexts evs = []) ∧
  ((Z.of_nat T + max_new_tokens < 0)%Z → r = Raise err_negative_dimension) ∧
  ((max_new_tokens < 0)%Z → (0 ≤ Z.of_nat T + max_new_tokens)%Z → T ≠ 1 →
     r = Raise err_expand) ∧
  (max_new_tokens = 0%Z →
     ∃ out, r = Ok out ∧ read (heap w') out = p ∧ contexts evs = []) ∧
  ((0 < max_new_tokens)%Z →
     contexts evs !! 0 = Some (window T max_seq_length p)) ∧
  ((0 < max_new_tokens)%Z → T = 0 → contexts evs !! 0 = Some []).
Proof.
  intros Hin Hrun evs p T.
  assert (Hneg : (max_new_tokens < 0)%Z → trace w' = trace w ∧
            ((Z.of_nat T + max_new_tokens < 0)%Z → r = Raise
                err_negative_dimension) ∧
            ((0 ≤ Z.of_nat T + max_new_tokens)%Z → T ≠ 1 → r = Raise err_expand)).
  { intros Hm.
    pose proof (generate_negative model idx max_new_tokens max_seq_length
                  temperature top_k eos_id w Hm) as H.
    simpl in H. rewrite Hrun in H. simpl in H.
    by destruct H as (_ & Htr & _ & H1 & H2 & _). }
  assert (Hfirst : (0 < max_new_tokens)%Z →
            contexts evs !! 0 = Some (window T max_seq_length p)).
  { intros Hm.
    destruct (generate_first_step _ _ _ _ _ _ _ _ _ _ Hin Hm Hrun)
      as (rest & Hev & _).
    unfold evs. by rewrite Hev. }
  split_and!.
  - intros Hm. destruct (Hneg Hm) as [Htr _].
    unfold evs. by rewrite (new_events_app w w' []) by by rewrite app_nil_r.
  - intros Hlt. apply Hneg; [lia|done].
  - intros Hm Hge HT. by apply Hneg.
  - intros ->.
    destruct (generate_zero model idx max_seq_length temperature top_k eos_id w Hin)
      as (out & w'' & Hrun' & Hread & Htr & _).
    rewrite Hrun in Hrun'. injection Hrun' as -> ->. exists out.
    split_and!; [done|done|].
    unfold evs. by rewrite (new_events_app w _ []) by by rewrite app_nil_r.
  - done.
  - intros Hm HT. rewrite (Hfirst Hm). f_equal.
    assert (Hp : p = []).
    { apply length_zero_iff_nil. unfold p. by rewrite read_length. }
    rewrite Hp. apply window_nil.
Qed.

(** Claim C9.  [generate] leaves every storage that existed before the call
    as it was, the prompt of the caller among them; the buffer it returns is
    a storage that did not exist before.  Of the state only that new storage
    and the random generator can differ afterwards (the world has no other
    component: the log is not program state). *)
Theorem generate_frame (model : scorer) (idx : tensor)
    (max_new_tokens max_seq_length : Z) (temperature : Q)
    (top_k eos_id : option Z) (w : world) r w' :
  tensor_in (heap w) idx →
  generate multinomial fp uninit model idx max_new_tokens max_seq_length
    temperature top_k eos_id w
  = (r, w') →
  let b := fresh (dom (heap w)) in
  (b ∉ dom (heap w)) ∧
  (∀ l, l ≠ b → heap w' !! l = heap w !! l) ∧
  (∀ l, l ∈ dom (heap w) → heap w' !! l = heap w !! l) ∧
  read (heap w') idx = read (heap w) idx ∧
  (∀ out, r = Ok out → storage out = b).
Proof.
  intros Hin Hrun b.
  assert (Hfresh : b ∉ dom (heap w)) by apply is_fresh.
  assert (Hheap : heap w' = heap w ∨ ∃ buf', heap w' = <[b := buf']> (heap w)).
  { destruct (decide (max_new_tokens < 0)%Z) as [Hm|Hm].
    - pose proof (generate_negative model idx max_new_tokens max_seq_length
        temperature top_k eos_id w Hm) as H.
      simpl in H. rewrite Hrun in H. simpl in H. apply H.
    - assert (Hm0 : (0 ≤ max_new_tokens)%Z) by lia.
      destruct (generate_summary _ _ _ _ _ _ _ _ _ _ Hin Hm0 Hrun) as
          (buf' & Hh & _).
      right. by exists buf'. }
  assert (Hother : ∀ l, l ≠ b → heap w' !! l = heap w !! l).
  { intros l Hl. destruct Hheap as [->|[buf' ->]]; [done|].
    by rewrite lookup_insert_ne. }
  split_and!; try done.
  - intros l Hl. apply Hother. intros ->. done.
  - unfold read, contents. rewrite Hother; [done|]. by apply fresh_storage.
  - intros out ->. destruct (decide (max_new_tokens < 0)%Z) as [Hm|Hm].
    + pose proof (generate_negative model idx max_new_tokens max_seq_length
        temperature top_k eos_id w Hm) as H.
      simpl in H. rewrite Hrun in H. simpl in H.
      destruct H as (_ & _ & _ & H1 & H2 & H3).
      destruct (decide (Z.of_nat (size idx) + max_new_tokens < 0)%Z) as [Hlt|Hge].
      { by specialize (H1 Hlt). }
      destruct (decide (size idx = 1)) as [He|He].
      * specialize (H3 ltac:(lia) He). by injection H3 as ->.
      * by specialize (H2 ltac:(lia) He).
    + assert (Hm0 : (0 ≤ max_new_tokens)%Z) by lia.
      destruct (generate_summary _ _ _ _ _ _ _ _ _ _ Hin Hm0 Hrun)
        as (buf' & _ & _ & _ & _ & _ & _ & _ & _ & Hout).
      simpl in Hout. by destruct Hout as (-> & _).
Qed.

(** Claim C10, as the code has it.  An [eos_id] that occurs in the prompt
    stops nothing: only drawn tokens are compared with it.  In a run with
    [0 < max_new_tokens] whose prompt contains [e = eos_id], the model is
    called at step [T] on the window of the prompt.  A token is drawn there
    if the model answers and the sampler accepts the distribution computed
    from its answer; otherwise the run ends there with the exception of the
    model or of the sampler.  A drawn token equal to [e] is the last one and
    the run then returns.  A run that returns gives the prompt followed by
    the drawn tokens, and has used up the budget or ended on a drawn [e]; a
    run that raises does so at a step whose model call or sampling
    raised. *)
Theorem eos_in_prompt_does_not_stop (model : scorer) (idx : tensor)
    (max_new_tokens max_seq_length : Z) (temperature : Q)
    (top_k : option Z) (e : Z) (w : world) r w' :
  tensor_in (heap w) idx →
  e ∈ read (heap w) idx →
  (0 < max_new_tokens)%Z →
  generate multinomial fp uninit model idx max_new_tokens max_seq_length
    temperature top_k (Some e) w
  = (r, w') →
  let evs := new_events w w' in
  let p := read (heap w) idx in
  let ctx := window (size idx) max_seq_length p in
  ∃ rest,
    evs = Scored ctx :: rest ∧
    match step_probs fp model temperature top_k ctx with
    | Ok probs =>
        ∃ rest', rest = Sampled probs (multinomial (rng w) probs).1 :: rest'
    | Raise x => rest = [] ∧ r = Raise x
    end ∧
    (∀ i, samples evs !! i = Some e →
       S i = length (samples evs) ∧ is_ok r = true) ∧
    (∀ out, r = Ok out →
       read (heap w') out = p ++ samples evs ∧
       (length (samples evs) = Z.to_nat max_new_tokens ∨
        last (samples evs) = Some e)) ∧
    (∀ x, r = Raise x →
       ∃ c, last (contexts evs) = Some c ∧
            step_probs fp model temperature top_k c = Raise x ∧
            length (contexts evs) = S (length (samples evs))).
Proof.
  intros Hin He Hm Hrun evs p ctx.
  assert (Hm0 : (0 ≤ max_new_tokens)%Z) by lia.
  destruct (generate_first_step _ _ _ _ _ _ _ _ _ _ Hin Hm Hrun)
    as (rest & Hev & Hstep).
  destruct (generate_summary _ _ _ _ _ _ _ _ _ _ Hin Hm0 Hrun)
    as (buf' & Hh & Htr & Hlen & Hmn & Hpre & Hs & _ & _ & Hout).
  pose proof (generate_log _ _ _ _ _ _ _ _ _ _ Hin Hm0 Hrun) as Hlog.
  fold evs in Hs, Hout, Hmn, Htr, Hev, Hlog.
  exists rest. split_and!.
  - done.
  - subst ctx p.
    destruct (step_probs fp model temperature top_k _); [done|].
    by destruct Hstep as (? & ? & _).
  - intros i Hi. destruct r as [out|err]; simpl in Hout.
    + destruct Hout as (_ & _ & Hlast & _). split; [|done].
      apply (Hlast i e Hi). simpl. apply Z.eqb_refl.
    + destruct Hout as (_ & _ & Hno).
      specialize (Hno e (list_elem_of_lookup_2 _ _ _ Hi)).
      simpl in Hno. by rewrite Z.eqb_refl in Hno.
  - intros out ->. simpl in Hout.
    destruct Hout as (-> & _ & _ & Hend & _). split.
    + rewrite (read_prefix _ _ buf') by (rewrite Hh; apply lookup_insert_eq).
      rewrite <- take_take_drop. by rewrite Hpre, Hs.
    + destruct (decide (length (samples evs) < Z.to_nat max_new_tokens)) as
        [Hlt|]; [|left; lia].
      right. destruct (Hend Hlt) as (tok & Hl & Htok).
      simpl in Htok. apply Z.eqb_eq in Htok. by subst.
  - intros x ->. by eapply run_log_raised.
Qed.

End Proofs.

(** Claim C8.  Determinism under fixed randomness.  Take a fixed model and
    a fixed sampler, that is a fixed function from the generator state (for
    a stub: the list of indices still to return) and the distribution to the
    drawn index.  Two runs of [generate] on the same prompt tokens and
    parameters, started with the generator in the same state, give the same
    output (the same tokens, or the same exception), leave the generator in
    the same state and log the same events, wherever the prompt is stored,
    whatever else the store holds and whatever the fresh buffer held. *)
Theorem generate_deterministic {rng_state : Type}
    (multinomial : rng_state → list score → Z * rng_state) (fp : numerics)
    (uninit1 uninit2 : nat → Z) (model : scorer) (idx1 idx2 : tensor)
    (max_new_tokens max_seq_length : Z) (temperature : Q)
    (top_k eos_id : option Z) (w1 w2 : world rng_state) :
  tensor_in (heap w1) idx1 →
  tensor_in (heap w2) idx2 →
  read (heap w1) idx1 = read (heap w2) idx2 →
  rng w1 = rng w2 →
  let x1 := generate multinomial fp uninit1 model idx1 max_new_tokens
              max_seq_length temperature top_k eos_id w1 in
  let x2 := generate multinomial fp uninit2 model idx2 max_new_tokens
              max_seq_length temperature top_k eos_id w2 in
  output x1 = output x2 ∧
  rng x1.2 = rng x2.2 ∧
  new_events w1 x1.2 = new_events w2 x2.2.
Proof.
  intros Hin1 Hin2 Hread Hrng x1 x2.
  assert (Hsize : size idx1 = size idx2).
  { rewrite <- (read_length _ _ Hin1), <- (read_length _ _ Hin2). by rewrite
      Hread. }
  destruct (decide (max_new_tokens < 0)%Z) as [Hm|Hm].
  - pose proof (generate_negative multinomial fp uninit1 model idx1
      max_new_tokens max_seq_length
                  temperature top_k eos_id w1 Hm) as H1.
    pose proof (generate_negative multinomial fp uninit2 model idx2
        max_new_tokens max_seq_length
                  temperature top_k eos_id w2 Hm) as H2.
    simpl in H1, H2. fold x1 in H1. fold x2 in H2.
    destruct H1 as (Hr1 & Ht1 & _ & Ha1 & Hb1 & Hc1).
    destruct H2 as (Hr2 & Ht2 & _ & Ha2 & Hb2 & Hc2).
    rewrite <- Hsize in Ha2, Hb2, Hc2.
    split_and!.
    + unfold output.
      destruct (decide (Z.of_nat (size idx1) + max_new_tokens < 0)%Z) as [Hlt|Hge].
      { by rewrite (Ha1 Hlt), (Ha2 Hlt). }
      destruct (decide (size idx1 = 1)) as [He|He].
      * by rewrite (Hc1 ltac:(lia) He), (Hc2 ltac:(lia) He).
      * by rewrite (Hb1 ltac:(lia) He), (Hb2 ltac:(lia) He).
    + congruence.
    + rewrite (new_events_app w1 x1.2 []) by by rewrite app_nil_r.
      by rewrite (new_events_app w2 x2.2 []) by by rewrite app_nil_r.
  - assert (Hm0 : (0 ≤ max_new_tokens)%Z) by lia.
    subst x1 x2. rewrite !generate_eq by done. rewrite <- Hsize.
    set (b1 := fresh (dom (heap w1))).
    set (b2 := fresh (dom (heap w2))).
    set (buf1 := read (heap w1) idx1 ++
        (uninit1 <$> seq (size idx1) (Z.to_nat max_new_tokens))).
    set (buf2 := read (heap w2) idx2 ++
        (uninit2 <$> seq (size idx1) (Z.to_nat max_new_tokens))).
    assert (HL1 : length buf1 = size idx1 + Z.to_nat max_new_tokens) by by apply
        prologue_length.
    assert (HL2 : length buf2 = size idx1 + Z.to_nat max_new_tokens).
    { unfold buf2. rewrite Hsize. by apply prologue_length. }
    assert (Hpre : take (size idx1) buf1 = take (size idx1) buf2).
    { unfold buf1, buf2. rewrite !take_app_length';
        [done|by rewrite read_length..]. }
    destruct (generate_loop_sim multinomial fp model b1 b2
                 (size idx1 + Z.to_nat max_new_tokens) (size idx1)
                     max_seq_length temperature top_k
                 eos_id (Z.to_nat max_new_tokens) (size idx1) buf1 buf2
                 (World (<[b1 := buf1]> (heap w1)) (rng w1) (trace w1))
                 (World (<[b2 := buf2]> (heap w2)) (rng w2) (trace w2))
                 (lookup_insert_eq _ _ _) (lookup_insert_eq _ _ _)
                 HL1 HL2 eq_refl Hpre Hrng)
      as (Hout & Hr & evs & Ht1 & Ht2).
    split_and!; [exact Hout|exact Hr|].
    by rewrite (new_events_app w1 _ evs Ht1), (new_events_app w2 _ evs Ht2).
Qed.

(** * Concrete runs *)

(** ** The stubs meet the assumptions *)

Lemma stub_exp_ok : exp_ok Stub.exp.
Proof.
  split.
  - intros x. unfold Stub.exp. destruct (Qle_bool 0 x) eqn:E.
    + apply Qle_bool_iff in E. lra.
    + assert (Hx : (x < 0)%Q) by (apply Qltb_lt; unfold Qltb; by rewrite E).
      apply Qlt_le_weak, Qdiv_pos; lra.
  - intros x Hx. unfold Stub.exp.
    assert (Qle_bool 0 x = true) as -> by (apply Qle_bool_iff; lra). lra.
Qed.

Lemma stub_softmax_ok : softmax_ok Stub.fp.
Proof. apply exact_softmax_ok, stub_exp_ok. Qed.

Lemma stub_scales_finitely (model : scorer) (temperature : Q) :
  ¬ (temperature == 0)%Q → scales_finitely Stub.fp model temperature.
Proof. apply exact_scales_finitely. Qed.

Lemma stub_model_ok : scorer_ok Stub.model.
Proof.
  intros ctx Hctx. exists ((λ _, Stub.logits) <$> ctx), Stub.logits.
  split_and!; [done| |done].
  rewrite fmap_last. destruct (last ctx) eqn:E; [done|].
  by apply last_None in E.
Qed.

Lemma stub_limited_upto (limit : nat) :
  scorer_upto (Z.of_nat limit) (Stub.limited_model limit).
Proof.
  intros ctx Hctx Hlen. unfold Stub.limited_model.
  destruct (Nat.leb_spec (length ctx) limit); [|lia].
  by apply stub_model_ok.
Qed.

Lemma stub_limited_shaped (limit : nat) :
  scorer_shaped (Stub.limited_model limit).
Proof.
  intros ctx rows Hctx. unfold Stub.limited_model.
  destruct (length ctx <=? limit); [|done].
  intros Hrows. destruct (stub_model_ok ctx Hctx) as (rows' & logits & H1 & H2 & H3).
  exists logits. split; [congruence|done].
Qed.

Lemma stub_prompt_in (p s : list Z) :
  tensor_in (heap (Stub.init p s)) (Stub.prompt p).
Proof.
  exists p. split; [apply lookup_singleton_eq|]. simpl. lia.
Qed.

(** ** Witnesses *)

Lemma generate_length_and_prefix_witness :
  ∃ out w',
    generate Stub.sampler Stub.fp Stub.uninit (Stub.limited_model 4)
      (Stub.prompt [5; 9; 2]%Z) 2 4 1%Q (Some 3%Z) None
      (Stub.init [5; 9; 2]%Z [7; 7]%Z)
    = (Ok out, w') ∧
    length (read (heap w') out) = 3 + Z.to_nat 2 ∧
    take 3 (read (heap w') out)
    = read (heap (Stub.init [5; 9; 2]%Z [7; 7]%Z)) (Stub.prompt [5; 9; 2]%Z).
Proof.
  apply (generate_length_and_prefix Stub.sampler Stub.fp Stub.uninit
           (Stub.limited_model 4) (Stub.prompt [5; 9; 2]%Z) 2 4 1%Q
           (Some 3%Z) (Stub.init [5; 9; 2]%Z [7; 7]%Z)).
  - apply stub_prompt_in.
  - simpl. lia.
  - lia.
  - lia.
  - simpl. lia.
  - apply (stub_limited_upto 4).
  - right. simpl. lia.
  - apply stub_scales_finitely. intros H. discriminate H.
  - apply stub_softmax_ok.
Defined.

Lemma context_trigger_is_prompt_length_witness :
  let w := Stub.init [5; 9; 2]%Z [7; 3]%Z in
  let x := Stub.run [5; 9; 2]%Z [7; 3]%Z 2 2 1%Q None None in
  let seq_t := read (heap w) (Stub.prompt [5; 9; 2]%Z)
               ++ take 1 (samples (new_events w x.2)) in
  length seq_t = 3 + 1 ∧
  ((Z.of_nat 3 ≤ 2)%Z → [2; 7]%Z = seq_t) ∧
  ((2 < Z.of_nat 3)%Z → (0 < 2)%Z →
     [2; 7]%Z = drop (length seq_t - Z.to_nat 2) seq_t ∧
     length [2; 7]%Z = Z.to_nat 2).
Proof.
  intros w x.
  apply (context_trigger_is_prompt_length Stub.sampler Stub.fp Stub.uninit
           Stub.model (Stub.prompt [5; 9; 2]%Z) 2 2 1%Q None None w
           x.1 x.2 1 [2; 7]%Z).
  - apply stub_prompt_in.
  - apply surjective_pairing.
  - vm_compute. reflexivity.
Defined.

Lemma generate_stops_at_eos_witness :
  let w := Stub.init [5; 9; 2]%Z [8; 9; 8]%Z in
  let x := Stub.run [5; 9; 2]%Z [8; 9; 8]%Z 3 2 1%Q (Some 2%Z) (Some 9%Z) in
  ∃ out,
    x.1 = Ok out ∧
    length (read (heap x.2) out) = 4 + 1 ∧
    read (heap x.2) out !! 4 = Some 9%Z ∧
    (∃ p, last (new_events w x.2) = Some (Sampled p 9)) ∧
    length (samples (new_events w x.2)) = 4 + 1 - 3 ∧
    length (contexts (new_events w x.2)) = 4 + 1 - 3 ∧
    (Z.of_nat 4 < Z.of_nat 3 + 3)%Z ∧
    (∀ i, 4 < i → (Z.of_nat i < Z.of_nat 3 + 3)%Z →
       contents (heap x.2) (storage out) !! i = Some (Stub.uninit i)).
Proof.
  intros w x.
  apply (generate_stops_at_eos Stub.sampler Stub.fp Stub.uninit Stub.model
           (Stub.prompt [5; 9; 2]%Z) 3 2 1%Q (Some 2%Z) 9 w x.1 x.2 4).
  - apply stub_prompt_in.
  - apply surjective_pairing.
  - simpl. lia.
  - vm_compute. reflexivity.
Defined.

Lemma generate_zero_new_tokens_witness :
  ∃ out w',
    generate Stub.sampler Stub.fp Stub.uninit Stub.model
      (Stub.prompt [5; 9; 2]%Z) 0 0 0%Q (Some 0%Z) (Some 2%Z)
      (Stub.init [5; 9; 2]%Z [7]%Z)
    = (Ok out, w') ∧
    read (heap w') out
    = read (heap (Stub.init [5; 9; 2]%Z [7]%Z)) (Stub.prompt [5; 9; 2]%Z) ∧
    contexts (new_events (Stub.init [5; 9; 2]%Z [7]%Z) w') = [] ∧
    samples (new_events (Stub.init [5; 9; 2]%Z [7]%Z) w') = [].
Proof.
  apply (generate_zero_new_tokens Stub.sampler Stub.fp Stub.uninit Stub.model
           (Stub.prompt [5; 9; 2]%Z) 0 0%Q (Some 0%Z) (Some 2%Z)
           (Stub.init [5; 9; 2]%Z [7]%Z)).
  apply stub_prompt_in.
Defined.

Lemma step_scales_masks_and_samples_witness :
  let w := World {[ 2%positive := [5; 9; 2; 0; 0]%Z ]} [8]%Z [] in
  ∃ masked : list score,
    length masked = 10 ∧
    (∃ p, softmax Stub.fp masked !! 9 = Some (Fin p) ∧ (0 < p)%Q) ∧
    trace (loop_body Stub.sampler Stub.fp Stub.model (Tensor 2%positive 0 5)
             3 10 (1 # 2)%Q (Some 2%Z) None 3 w).2
    = [Scored [5; 9; 2]%Z; Sampled (softmax Stub.fp masked) 8].
Proof.
  intros w.
  destruct (step_scales_masks_and_samples Stub.sampler Stub.fp Stub.model
              2%positive 5 3 10 (1 # 2)%Q (Some 2%Z) None 3
              [5; 9; 2; 0; 0]%Z w
              [Stub.logits; Stub.logits; Stub.logits] Stub.logits
              ((λ x, x / (1 # 2))%Q <$> Stub.logits))
    as (masked & _ & Hlen & Hmax & Hbody).
  - apply lookup_singleton_eq.
  - reflexivity.
  - lia.
  - reflexivity.
  - reflexivity.
  - discriminate.
  - reflexivity.
  - simpl. lia.
  - apply stub_softmax_ok.
  - exists masked. split_and!; [exact Hlen| |].
    + apply (Hmax 9 (9 / (1 # 2))%Q); [reflexivity|].
      intros y Hy. vm_compute in Hy.
      repeat (apply elem_of_cons in Hy as [->|Hy]; [by vm_compute|]).
      by apply elem_of_nil in Hy.
    + simpl in Hbody. rewrite Hbody. reflexivity.
Defined.

Lemma generate_checks_no_parameter_witness :
  let w := Stub.init [] [7]%Z in
  let x := Stub.run [] [7]%Z 1 10 1%Q None None in
  contexts (new_events w x.2) !! 0 = Some [].
Proof.
  intros w x.
  destruct (generate_checks_no_parameter Stub.sampler Stub.fp Stub.uninit
              Stub.model (Stub.prompt []) 1 10 1%Q None None w x.1 x.2)
    as (_ & _ & _ & _ & _ & H6).
  - apply stub_prompt_in.
  - apply surjective_pairing.
  - apply H6; [lia|reflexivity].
Defined.

Lemma generate_deterministic_witness :
  let w1 := Stub.init [5; 9; 2]%Z [7; 3]%Z in
  let w2 := World {[ 1%positive := [0; 0]%Z; 4%positive := [1; 5; 9; 2; 8]%Z ]}
              [7; 3]%Z [Scored [1]%Z] in
  let x1 := generate Stub.sampler Stub.fp Stub.uninit Stub.model
              (Stub.prompt [5; 9; 2]%Z) 2 2 1%Q None (Some 3%Z) w1 in
  let x2 := generate Stub.sampler Stub.fp Z.of_nat Stub.model
              (Tensor 4%positive 1 3) 2 2 1%Q None (Some 3%Z) w2 in
  output x1 = output x2 ∧ rng x1.2 = rng x2.2 ∧
  new_events w1 x1.2 = new_events w2 x2.2.
Proof.
  intros w1 w2.
  apply (generate_deterministic Stub.sampler Stub.fp Stub.uninit Z.of_nat
           Stub.model (Stub.prompt [5; 9; 2]%Z) (Tensor 4%positive 1 3)
           2 2 1%Q None (Some 3%Z) w1 w2).
  - apply stub_prompt_in.
  - exists [1; 5; 9; 2; 8]%Z. split; [reflexivity|simpl; lia].
  - reflexivity.
  - reflexivity.
Defined.

Lemma generate_frame_witness :
  let w := Stub.init [5; 9; 2]%Z [7; 3]%Z in
  let x := Stub.run [5; 9; 2]%Z [7; 3]%Z 2 2 1%Q None None in
  let b := fresh (dom (heap w)) in
  (b ∉ dom (heap w)) ∧
  (∀ l, l ≠ b → heap x.2 !! l = heap w !! l) ∧
  (∀ l, l ∈ dom (heap w) → heap x.2 !! l = heap w !! l) ∧
  read (heap x.2) (Stub.prompt [5; 9; 2]%Z)
  = read (heap w) (Stub.prompt [5; 9; 2]%Z) ∧
  (∀ out, x.1 = Ok out → storage out = b).
Proof.
  intros w x.
  apply (generate_frame Stub.sampler Stub.fp Stub.uninit Stub.model
           (Stub.prompt [5; 9; 2]%Z) 2 2 1%Q None None w x.1 x.2).
  - apply stub_prompt_in.
  - apply surjective_pairing.
Defined.

Lemma eos_in_prompt_does_not_stop_witness :
  let w := Stub.init [5; 3; 2]%Z [7; 3; 9]%Z in
  let x := Stub.run [5; 3; 2]%Z [7; 3; 9]%Z 3 10 1%Q None (Some 3%Z) in
  let evs := new_events w x.2 in
  let p := read (heap w) (Stub.prompt [5; 3; 2]%Z) in
  ∃ rest,
    evs = Scored (window 3 10 p) :: rest ∧
    (∀ i, samples evs !! i = Some 3%Z →
       S i = length (samples evs) ∧ is_ok x.1 = true) ∧
    (∀ out, x.1 = Ok out →
       read (heap x.2) out = p ++ samples evs ∧
       (length (samples evs) = Z.to_nat 3 ∨ last (samples evs) = Some 3%Z)).
Proof.
  intros w x.
  destruct (eos_in_prompt_does_not_stop Stub.sampler Stub.fp Stub.uninit
              Stub.model (Stub.prompt [5; 3; 2]%Z) 3 10 1%Q None 3 w x.1 x.2)
    as (rest & H1 & _ & H3 & H4 & _).
  - apply stub_prompt_in.
  - vm_compute. repeat constructor.
  - lia.
  - apply surjective_pairing.
  - exists rest. split_and!; [exact H1|exact H3|exact H4].
Defined.

(** ** Where the code departs from the claims *)

(** Claim C1 on two valid inputs.  A model that supports contexts of up to
    [max_seq_length = 3] tokens, a prompt of three tokens and
    [max_new_tokens = 2]: the second call to the model is given four tokens,
    the model raises and so does the run.  A positive temperature, [2^-140],
    in single precision: the quotients of the logits 1 to 9 overflow,
    softmax gives NaN, the sampler rejects it and the run raises. *)
Lemma valid_input_raises :
  let w := Stub.init [5; 9; 2]%Z [7; 3]%Z in
  let x := generate Stub.sampler Stub.fp Stub.uninit (Stub.limited_model 3)
             (Stub.prompt [5; 9; 2]%Z) 2 3 1%Q None None w in
  let y := generate Stub.sampler Single.fp Stub.uninit Stub.model
             (Stub.prompt [5; 9; 2]%Z) 2 10 (1 # 2 ^ 140)%Q None None w in
  (scorer_upto 3 (Stub.limited_model 3) ∧
   x.1 = Raise (RuntimeError "sequence longer than the block size") ∧
   contexts (new_events w x.2) = [[5; 9; 2]; [5; 9; 2; 7]]%Z) ∧
  ((0 < 1 # 2 ^ 140)%Q ∧
   div_temperature Single.fp Stub.logits (1 # 2 ^ 140)
   = Fin 0 :: replicate 9 PosInf ∧
   y.1 = Raise err_multinomial ∧
   new_events w y.2 = [Scored [5; 9; 2]%Z]).
Proof.
  intros w x y. split_and!.
  - apply (stub_limited_upto 3).
  - by vm_compute.
  - by vm_compute.
  - reflexivity.
  - by vm_compute.
  - by vm_compute.
  - by vm_compute.
Qed.

(** Claim C2, at a prompt of one token with [max_seq_length = 1] and
    [max_new_tokens = 2]: the run returns three tokens, and the second call
    to the model is given two tokens, one more than [max_seq_length]. *)
Lemma context_exceeds_max_seq_length :
  output (Stub.run [5]%Z [7; 3]%Z 2 1 1%Q None None) = Ok [5; 7; 3]%Z ∧
  Stub.calls [5]%Z [7; 3]%Z 2 1 1%Q None None = [[5]; [5; 7]]%Z ∧
  ∃ ctx, Stub.calls [5]%Z [7; 3]%Z 2 1 1%Q None None !! 1 = Some ctx ∧
         (1 < Z.of_nat (length ctx))%Z.
Proof.
  split_and!; [by vm_compute..|].
  exists [5; 7]%Z. split; [by vm_compute|simpl; lia].
Qed.

(** Claim C5, at the logits 0 and 200 with [top_k = 2] and temperature 1 in
    single precision.  Both entries are at least the second largest scaled
    logit, which is 0, and both are kept; but [exp(0 - 200)] underflows to
    zero, so the first entry, which is not masked, has probability zero. *)
Lemma kept_entry_has_probability_zero :
  ∃ x0 x1 p0 p1,
    div_temperature Single.fp [0; 200]%Q 1%Q = [Fin x0; Fin x1] ∧
    (x0 == 0)%Q ∧ (x1 == 200)%Q ∧
    kth_largest [x0; x1] 2 x0 ∧
    crop_top_k [Fin x0; Fin x1] (Some 2%Z) = Ok [Fin x0; Fin x1] ∧
    next_token_probs Single.fp 1%Q (Some 2%Z) [[0; 200]%Q]
    = Ok [Fin p0; Fin p1] ∧
    (p0 == 0)%Q ∧ (0 < p1)%Q ∧
    valid_distribution [Fin p0; Fin p1] = true.
Proof.
  eexists _, _, _, _. split_and!.
  - by vm_compute.
  - reflexivity.
  - reflexivity.
  - split_and!.
    + apply list_elem_of_here.
    + vm_compute. lia.
    + vm_compute. lia.
  - by vm_compute.
  - by vm_compute.
  - reflexivity.
  - reflexivity.
  - reflexivity.
Qed.

(** Claim C7 fails with [max_seq_length = 0], an invalid parameter: the run
    raises nothing, and the model is called on the whole prompt. *)
Lemma zero_max_seq_length_is_accepted :
  invalid_parameters 1 1 0 1%Q ∧
  output (Stub.run [5]%Z [7]%Z 1 0 1%Q None None) = Ok [5; 7]%Z ∧
  Stub.calls [5]%Z [7]%Z 1 0 1%Q None None = [[5]%Z] ∧
  ¬ fails_fast (Stub.init [5]%Z [7]%Z) (Stub.run [5]%Z [7]%Z 1 0 1%Q None None).
Proof.
  split_and!.
  - left. lia.
  - by vm_compute.
  - by vm_compute.
  - intros [Hok _]. by vm_compute in Hok.
Qed.

(** Claim C10, at a prompt that contains [eos_id = 3], with
    [max_new_tokens = 2] and the positive temperature [2^-140] in single
    precision: the model is called at step [T], the sampler rejects the
    distribution, and no token is drawn at step [T]. *)
Lemma no_draw_at_step_T :
  let w := Stub.init [5; 3; 2]%Z [7; 3]%Z in
  let x := generate Stub.sampler Single.fp Stub.uninit Stub.model
             (Stub.prompt [5; 3; 2]%Z) 2 10 (1 # 2 ^ 140)%Q None (Some 3%Z) w in
  3%Z ∈ read (heap w) (Stub.prompt [5; 3; 2]%Z) ∧
  (0 < 1 # 2 ^ 140)%Q ∧
  x.1 = Raise err_multinomial ∧
  new_events w x.2 = [Scored [5; 3; 2]%Z] ∧
  samples (new_events w x.2) = [].
Proof.
  intros w x. split_and!.
  - vm_compute. repeat constructor.
  - reflexivity.
  - by vm_compute.
  - by vm_compute.
  - by vm_compute.
Qed.

(** * Further properties of the code *)

(** ** Cropping to the top k *)

(** The cut for [top_k = k >= 1] on finite logits is the entry of rank
    [min k V] of the sorted logits, and is one of the logits. *)
Lemma crop_top_k_cut (logits : list Q) (k : Z) :
  logits ≠ [] → (1 ≤ k)%Z →
  ∃ c, Qsort_desc logits !! (Z.to_nat (Z.min k (Z.of_nat (length logits))) - 1)
       = Some c ∧
       c ∈ logits ∧
       crop_top_k (Fin <$> logits) (Some k)
       = Ok (mask_below (Fin c) (Fin <$> logits)).
Proof.
  intros Hne Hk. destruct (crop_top_k_some logits k Hne Hk) as (c & Hc & Hcrop).
  exists c. split_and!; [done| |done].
  rewrite <- (Qsort_desc_perm logits). by eapply list_elem_of_lookup_2.
Qed.

(** [top_k] at least the size of the vocabulary crops nothing, whatever the
    scaled logits are, infinities and NaN included: the probabilities are
    those computed without [top_k]. *)
Theorem top_k_beyond_vocabulary_crops_nothing (fp : numerics)
    (temperature : Q) (k : Z) (rows : list (list Q)) (logits : list Q) :
  last rows = Some logits → logits ≠ [] →
  (Z.of_nat (length logits) ≤ k)%Z →
  (∀ l : list score, length l = length logits →
     crop_top_k l (Some k) = Ok l) ∧
  next_token_probs fp temperature (Some k) rows
  = next_token_probs fp temperature None rows.
Proof.
  intros Hlast Hne Hk.
  assert (HV : 1 ≤ length logits) by (destruct logits; [done|simpl; lia]).
  assert (Hcrop : ∀ l : list score, length l = length logits →
            crop_top_k l (Some k) = Ok l).
  { intros l Hlen.
    assert (Hl : l ≠ []) by (intros ->; simpl in Hlen; lia).
    destruct (crop_top_k_mask l k Hl ltac:(lia)) as (c & Hc & ->).
    f_equal. unfold mask_below. apply list_eq. intros i.
    rewrite list_lookup_fmap. destruct (l !! i) as [x|] eqn:Hi; [|done]. simpl.
    assert (Hlast' : last (sort_desc l) = Some c).
    { rewrite last_lookup, sort_desc_length. rewrite <- Hc. f_equal. lia. }
    rewrite (sorted_last_least (sort_desc l) c (sort_desc_sorted l) Hlast' x);
      [done|].
    rewrite (sort_desc_perm l). by eapply list_elem_of_lookup_2. }
  split; [done|].
  unfold next_token_probs, last_row. rewrite Hlast. cbn [result_bind].
  rewrite Hcrop; [done|].
  unfold div_temperature. by rewrite length_fmap.
Qed.

(** Raising [top_k] never removes a token: what is kept for [k1] is kept for
    every [k2 >= k1]. *)
Theorem top_k_monotone (logits : list Q) (k1 k2 : Z) :
  logits ≠ [] → (1 ≤ k1)%Z → (k1 ≤ k2)%Z →
  ∃ m1 m2,
    crop_top_k (Fin <$> logits) (Some k1) = Ok m1 ∧
    crop_top_k (Fin <$> logits) (Some k2) = Ok m2 ∧
    ∀ i x, m1 !! i = Some (Fin x) → m2 !! i = Some (Fin x).
Proof.
  intros Hne H1 H12.
  assert (HV : 1 ≤ length logits) by (destruct logits; [done|simpl; lia]).
  destruct (crop_top_k_cut logits k1 Hne H1) as (c1 & Hc1 & _ & ->).
  destruct (crop_top_k_cut logits k2 Hne ltac:(lia)) as (c2 & Hc2 & _ & ->).
  eexists _, _. split_and!; [done|done|].
  intros i x [Hi Hx]%mask_below_kept.
  rewrite (mask_below_lookup _ _ _ _ Hi).
  assert (Hle : (c2 <= c1)%Q).
  { eapply (sorted_lookup_le (Qsort_desc logits) _ _ c1 c2);
      [apply Qsort_desc_sorted| |done|done]. lia. }
  assert (Qltb x c2 = false) as -> by (apply Qltb_ge; lra). done.
Qed.

(** [top_k = 1] keeps exactly the entries that are maximal, all of them when
    the maximum is attained more than once. *)
Theorem top_k_one_keeps_the_maxima (logits : list Q) :
  logits ≠ [] →
  ∃ m,
    crop_top_k (Fin <$> logits) (Some 1%Z) = Ok m ∧
    ∀ i x, logits !! i = Some x →
      (m !! i = Some (Fin x) ↔ ∀ y, y ∈ logits → (y <= x)%Q) ∧
      (m !! i = Some NegInf ↔ ∃ y, y ∈ logits ∧ (x < y)%Q).
Proof.
  intros Hne.
  assert (HV : 1 ≤ length logits) by (destruct logits; [done|simpl; lia]).
  destruct (crop_top_k_cut logits 1 Hne ltac:(lia)) as (c & Hc & Hin & ->).
  replace (Z.to_nat (Z.min 1 (Z.of_nat (length logits))) - 1) with 0 in Hc by lia.
  assert (Hmax : ∀ y, y ∈ logits → (y <= c)%Q).
  { intros y Hy. rewrite <- (Qsort_desc_perm logits) in Hy.
    apply list_elem_of_lookup in Hy as [j Hj].
    eapply (sorted_lookup_le (Qsort_desc logits) 0 j);
      [apply Qsort_desc_sorted|lia|done|done]. }
  eexists. split; [done|]. intros i x Hi.
  rewrite (mask_below_lookup _ _ _ _ Hi).
  destruct (Qltb x c) eqn:E.
  - apply Qltb_lt in E. split; split.
    + done.
    + intros Hall. specialize (Hall c Hin). lra.
    + intros _. by exists c.
    + done.
  - apply Qltb_ge in E. split; split.
    + intros _ y Hy. specialize (Hmax y Hy). lra.
    + done.
    + done.
    + intros (y & Hy & Hlt). specialize (Hmax y Hy). lra.
Qed.

(** ** A division by zero *)

(** A tensor without a finite entry stays one under the mask of line 59:
    afterwards it has an entry that is plus infinity or a NaN, or all its
    entries are minus infinity. *)
Lemma mask_below_nonfinite (c : score) (l : list score) :
  (∀ s q, s ∈ l → s ≠ Fin q) →
  Exists (λ s, s = PosInf ∨ s = NaN) (mask_below c l)
  ∨ Forall (λ s, s = NegInf) (mask_below c l).
Proof.
  induction l as [|s l IH]; intros Hl; [right; constructor|].
  destruct IH as [IH|IH].
  { intros s' q Hs'. apply Hl. by apply list_elem_of_further. }
  { left. unfold mask_below in *. rewrite fmap_cons. by apply Exists_cons_tl. }
  unfold mask_below in *. rewrite fmap_cons.
  destruct s as [q| | |].
  - by destruct (Hl (Fin q) q (list_elem_of_here _ _)).
  - left. apply Exists_cons_hd. left. by destruct c.
  - right. constructor; [by destruct (score_lt NegInf c)|done].
  - left. apply Exists_cons_hd. right. by destruct c.
Qed.

Lemma mask_below_nan (l : list score) : mask_below NaN l = l.
Proof.
  unfold mask_below. rewrite <- (list_fmap_id l) at 2.
  apply list_fmap_ext. intros i s _. by destruct s.
Qed.

(** ** Softmax on real numbers *)

Lemma Qsum_div (e : list Q) (s : Q) :
  (Qsum ((λ x, x / s)%Q <$> e) == Qsum e / s)%Q.
Proof.
  induction e as [|x e IH]; simpl.
  - unfold Qdiv. by rewrite Qmult_0_l.
  - rewrite IH. unfold Qdiv. ring.
Qed.

Lemma Qsum_ge_elem (l : list Q) (x : Q) :
  Forall (λ y, 0 <= y)%Q l → x ∈ l → (x <= Qsum l)%Q.
Proof.
  induction 1 as [|y l Hy Hl IH]; intros Hx; [by apply elem_of_nil in Hx|].
  apply Qsum_nonneg in Hl as Hs. simpl.
  apply elem_of_cons in Hx as [->|Hx]; [lra|]. specialize (IH Hx). lra.
Qed.

Lemma finite_part_fin (l : list Q) : finite_part (Fin <$> l) = l.
Proof.
  induction l as [|x l IH]; [done|].
  rewrite fmap_cons. unfold finite_part in *. cbn [omap list_omap].
  f_equal. exact IH.
Qed.

(** Every tensor [torch.multinomial] accepts from the softmax over the real
    numbers sums to one, and its entries lie between 0 and 1. *)
Lemma accepted_probs_normalised (exp : Q → Q) (masked : list score) :
  valid_distribution (exact_softmax exp masked) = true →
  ∃ ps, exact_softmax exp masked = Fin <$> ps ∧
        (Qsum ps == 1)%Q ∧ ∀ p, p ∈ ps → (0 <= p)%Q ∧ (p <= 1)%Q.
Proof.
  unfold exact_softmax. destruct (softmax_undefined masked).
  { destruct masked as [|s l]; [done|]. rewrite fmap_cons.
    unfold valid_distribution. cbn [forallb length]. done. }
  set (m := match finite_part masked with [] => 0%Q | x :: r => Qmaximum x r end).
  set (e := exp_score exp m <$> masked).
  set (S := Qsum e). intros Hvalid.
  exists ((λ x, x / S)%Q <$> e).
  split; [by rewrite <- list_fmap_compose|].
  rewrite (list_fmap_compose (λ x, x / S)%Q Fin) in Hvalid.
  unfold valid_distribution in Hvalid.
  apply andb_true_iff in Hvalid as [Hvalid Hpos].
  apply andb_true_iff in Hvalid as [_ Hnn].
  rewrite finite_part_fin in Hpos. apply Qltb_lt in Hpos.
  assert (Hall : Forall (λ p, 0 <= p)%Q ((λ x, x / S)%Q <$> e)).
  { apply Forall_forall. intros p Hp. apply Qle_bool_iff.
    rewrite forallb_forall in Hnn.
    apply (Hnn (Fin p)). apply list_elem_of_In. by apply list_elem_of_fmap_2. }
  assert (Hsum : (Qsum ((λ x, x / S)%Q <$> e) == S / S)%Q) by apply Qsum_div.
  assert (HS : ¬ (S == 0)%Q).
  { intros H0. rewrite Hsum in Hpos. unfold Qdiv in Hpos.
    rewrite H0, Qmult_0_l in Hpos. by apply Qlt_irrefl in Hpos. }
  assert (Hone : (Qsum ((λ x, x / S)%Q <$> e) == 1)%Q).
  { rewrite Hsum. unfold Qdiv. by apply Qmult_inv_r. }
  split; [done|]. intros p Hp. split.
  - rewrite Forall_forall in Hall. by apply Hall.
  - rewrite <- Hone. by apply Qsum_ge_elem.
Qed.

Section FurtherProofs.

Context {rng_state : Type}.
Variable multinomial : rng_state → list score → Z * rng_state.
Variable fp : numerics.
Variable uninit : nat → Z.

#[local] Abbreviation world := (world rng_state).

(** ** The generator *)

(** The generator is advanced by the draws and by nothing else.  In every
    run with [0 <= max_new_tokens] the log alternates model calls and draws;
    each draw is made from the distribution computed from the call before
    it, with the generator state the previous draw left; the final generator
    state is the one left by the last draw; a run that raises ends with a
    model call without a draw. *)
Theorem generate_threads_the_generator (model : scorer) (idx : tensor)
    (max_new_tokens max_seq_length : Z) (temperature : Q)
    (top_k eos_id : option Z) (w : world) r w' :
  tensor_in (heap w) idx → (0 ≤ max_new_tokens)%Z →
  generate multinomial fp uninit model idx max_new_tokens max_seq_length
    temperature top_k eos_id w
  = (r, w') →
  run_log multinomial fp model temperature top_k
    (rng w) (new_events w w') (rng w') (raised r).
Proof. apply generate_log. Qed.

Lemma run_log_sampled (model : scorer) (temperature : Q) (top_k : option Z)
    (g g' : rng_state) (evs : list event) (o : option exn)
    (probs : list score) (tok : Z) :
  run_log multinomial fp model temperature top_k g evs g' o →
  Sampled probs tok ∈ evs →
  ∃ ctx, step_probs fp model temperature top_k ctx = Ok probs.
Proof.
  induction 1 as [| |g ctx probs' evs g' o Hs Hlog IH]; intros Hin.
  - by apply elem_of_nil in Hin.
  - apply elem_of_cons in Hin as [?|Hin]; [done|by apply elem_of_nil in Hin].
  - apply elem_of_cons in Hin as [?|Hin]; [done|].
    apply elem_of_cons in Hin as [[= <- _]|Hin]; [by exists ctx|by apply IH].
Qed.

(** ** What a run returns *)

(** A run that returns, returns the prompt followed by the tokens it drew,
    in the order of the draws; it called the model once per drawn token, and
    drew at most [max_new_tokens] tokens. *)
Theorem generate_returns_prompt_then_draws (model : scorer) (idx : tensor)
    (max_new_tokens max_seq_length : Z) (temperature : Q)
    (top_k eos_id : option Z) (w : world) out w' :
  tensor_in (heap w) idx → (0 ≤ max_new_tokens)%Z →
  generate multinomial fp uninit model idx max_new_tokens max_seq_length
    temperature top_k eos_id w
  = (Ok out, w') →
  read (heap w') out = read (heap w) idx ++ samples (new_events w w') ∧
  length (contexts (new_events w w')) = length (samples (new_events w w')) ∧
  length (samples (new_events w w')) ≤ Z.to_nat max_new_tokens.
Proof.
  intros Hin Hm Hrun.
  destruct (generate_summary multinomial fp uninit _ _ _ _ _ _ _ _ _ _
              Hin Hm Hrun)
    as (buf' & Hh & Htr & Hlen & Hmn & Hpre & Hs & _ & _ & Hout).
  simpl in Hout. destruct Hout as (-> & Hc & _).
  split_and!; [|done|done].
  rewrite (read_prefix _ _ buf') by (rewrite Hh; apply lookup_insert_eq).
  rewrite <- take_take_drop. by rewrite Hpre, Hs.
Qed.

(** The tensor a run returns is a view, from offset 0, of a storage that
    always has [T + max_new_tokens] cells: after an early stop at the
    end-of-sequence token the cells behind the view are still allocated and
    hold what [torch.empty] left there. *)
Theorem generate_returns_view_of_full_buffer (model : scorer) (idx : tensor)
    (max_new_tokens max_seq_length : Z) (temperature : Q)
    (top_k eos_id : option Z) (w : world) out w' :
  tensor_in (heap w) idx → (0 ≤ max_new_tokens)%Z →
  generate multinomial fp uninit model idx max_new_tokens max_seq_length
    temperature top_k eos_id w
  = (Ok out, w') →
  let full := size idx + Z.to_nat max_new_tokens in
  offset out = 0 ∧
  size out = size idx + length (samples (new_events w w')) ∧
  length (contents (heap w') (storage out)) = full ∧
  contents (heap w') (storage out)
  = read (heap w') out ++ (uninit <$> seq (size out) (full - size out)).
Proof.
  intros Hin Hm Hrun full.
  destruct (generate_summary multinomial fp uninit _ _ _ _ _ _ _ _ _ _
              Hin Hm Hrun)
    as (buf' & Hh & Htr & Hlen & Hmn & Hpre & Hs & Hun & _ & Hout).
  simpl in Hout. destruct Hout as (-> & _). simpl.
  set (m := length (samples (new_events w w'))) in *.
  assert (Hb : heap w' !! fresh (dom (heap w)) = Some buf').
  { rewrite Hh. apply lookup_insert_eq. }
  rewrite (read_prefix _ _ buf' _ Hb). unfold contents. rewrite Hb. simpl.
  split_and!; [done|done|done|].
  rewrite <- (take_drop (size idx + m) buf') at 1. f_equal.
  apply list_eq. intros j. rewrite lookup_drop, list_lookup_fmap.
  destruct (decide (j < full - (size idx + m))) as [Hj|Hj].
  - rewrite lookup_seq_lt by done. simpl. apply Hun. unfold full in Hj. lia.
  - rewrite lookup_seq_ge by lia. simpl. apply lookup_ge_None_2.
    unfold full in Hj. lia.
Qed.
(** ** Failures *)

Lemma step_probs_raise (model : scorer) (temperature : Q) (top_k : option Z)
    (ctx : list Z) (e : exn) :
  scorer_shaped model → scales_finitely fp model temperature →
  softmax_ok fp → valid_top_k top_k → ctx ≠ [] →
  step_probs fp model temperature top_k ctx = Raise e →
  model ctx = Raise e.
Proof.
  intros Hshape Hdiv Hsoft Hk Hctx Hs.
  destruct (model ctx) as [rows|e'] eqn:Em.
  - destruct (Hshape ctx rows Hctx Em) as (logits & Hlast & Hne).
    destruct (step_probs_ok fp model temperature top_k ctx rows logits)
      as [probs Hp]; try done.
    congruence.
  - unfold step_probs in Hs. rewrite Em in Hs. simpl in Hs. congruence.
Qed.

(** With a non-empty prompt, [0 <= max_new_tokens], a positive
    [max_seq_length], [top_k] absent or at least 1 and a temperature at
    which the division of the logits does not overflow, the only way a run
    can raise is the model raising: the exception of the run is the one the
    model raised on the last context it was given, every earlier call was
    followed by a draw, and the tokens drawn before stay in the buffer. *)
Theorem scorer_failure_propagates (model : scorer) (idx : tensor)
    (max_new_tokens max_seq_length : Z) (temperature : Q)
    (top_k eos_id : option Z) (w : world) e w' :
  tensor_in (heap w) idx →
  1 ≤ size idx →
  (0 ≤ max_new_tokens)%Z →
  (0 < max_seq_length)%Z →
  valid_top_k top_k →
  scorer_shaped model →
  scales_finitely fp model temperature →
  softmax_ok fp →
  generate multinomial fp uninit model idx max_new_tokens max_seq_length
    temperature top_k eos_id w
  = (Raise e, w') →
  ∃ ctx,
    last (contexts (new_events w w')) = Some ctx ∧
    model ctx = Raise e ∧
    length (contexts (new_events w w'))
    = S (length (samples (new_events w w'))) ∧
    take (size idx + length (samples (new_events w w')))
      (contents (heap w') (fresh (dom (heap w))))
    = read (heap w) idx ++ samples (new_events w w').
Proof.
  intros Hin HT Hm Hmsl Hk Hshape Hdiv Hsoft Hrun.
  destruct (generate_summary multinomial fp uninit _ _ _ _ _ _ _ _ _ _
              Hin Hm Hrun)
    as (buf' & Hh & _ & Hlen & Hmn & Hpre & Hs & _ & Hctx & _).
  pose proof (generate_log multinomial fp uninit _ _ _ _ _ _ _ _ _ _
                Hin Hm Hrun) as Hlog.
  destruct (run_log_raised multinomial fp _ _ _ _ _ _ _ e Hlog eq_refl)
    as (ctx & Hlast & Hstep & Hlen').
  exists ctx. split_and!; [done| |done|].
  - apply (step_probs_raise model temperature top_k); try done.
    rewrite last_lookup in Hlast.
    destruct (Hctx _ _ Hlast) as [-> _].
    apply window_nonempty; [done|].
    pose proof (read_length _ _ Hin) as Hr.
    destruct (read (heap w) idx); [simpl in Hr; lia|done].
  - unfold contents. rewrite Hh, lookup_insert_eq. simpl.
    rewrite <- take_take_drop. by rewrite Hpre, Hs.
Qed.

(** A [top_k] below 1 is found out only inside the loop.  With a non-empty
    prompt and [0 < max_new_tokens], the model is called once, then
    [torch.topk] raises for a negative [top_k], or the indexing of its empty
    result raises for [top_k = 0]; no token is drawn and the generator is
    left as it was. *)
Theorem nonpositive_top_k_raises_after_the_first_call (model : scorer)
    (idx : tensor) (max_new_tokens max_seq_length : Z) (temperature : Q)
    (k : Z) (eos_id : option Z) (w : world) :
  tensor_in (heap w) idx →
  1 ≤ size idx →
  (0 < max_new_tokens)%Z →
  (0 < max_seq_length)%Z →
  scorer_ok model →
  (k ≤ 0)%Z →
  ∃ w',
    generate multinomial fp uninit model idx max_new_tokens max_seq_length
      temperature (Some k) eos_id w
    = (Raise (if (k <? 0)%Z then err_topk else err_index), w') ∧
    new_events w w'
    = [Scored (window (size idx) max_seq_length (read (heap w) idx))] ∧
    rng w' = rng w.
Proof.
  intros Hin HT Hm Hmsl Hmodel Hk.
  rewrite generate_eq by (done || lia).
  set (b := fresh (dom (heap w))).
  set (buf := read (heap w) idx
              ++ (uninit <$> seq (size idx) (Z.to_nat max_new_tokens))).
  assert (Hbuf : length buf = size idx + Z.to_nat max_new_tokens)
    by by apply prologue_length.
  assert (Htake : take (size idx) buf = read (heap w) idx).
  { unfold buf. apply take_app_length'. by rewrite read_length. }
  destruct (Z.to_nat max_new_tokens) as [|n] eqn:En; [lia|].
  simpl. unfold mbind, M_bind.
  rewrite (loop_body_eq multinomial fp model b _ (size idx) max_seq_length
             temperature (Some k) eos_id (size idx) buf _
             (lookup_insert_eq _ _ _) Hbuf) by lia.
  unfold body_result. rewrite Htake.
  set (ctx := window (size idx) max_seq_length (read (heap w) idx)).
  assert (Hctx : ctx ≠ []).
  { apply window_nonempty; [done|]. intros Hnil.
    apply (f_equal length) in Hnil. rewrite read_length in Hnil by done.
    simpl in Hnil. lia. }
  destruct (Hmodel ctx Hctx) as (rows & logits & Hrows & Hlast & Hne).
  assert (Hs : step_probs fp model temperature (Some k) ctx
               = Raise (if (k <? 0)%Z then err_topk else err_index)).
  { unfold step_probs, next_token_probs, last_row. rewrite Hrows. simpl.
    rewrite Hlast. simpl. unfold torch_topk.
    destruct (Z.ltb_spec k 0) as [Hlt|Hge].
    - replace (Z.min k _) with k by lia.
      destruct (Z.ltb_spec k 0); [done|lia].
    - replace (Z.min k _) with 0%Z by lia. simpl.
      destruct (Z.ltb_spec (Z.of_nat (length (div_temperature fp logits temperature))) 0);
        [lia|]. done. }
  rewrite Hs. eexists. split; [reflexivity|]. simpl. split; [|done].
  by apply new_events_app.
Qed.
(** A temperature of zero is found out only at the first draw.  With a
    non-empty prompt, [0 < max_new_tokens] and a valid [top_k], the model is
    called once and the division is carried out; every quotient is an
    infinity or a NaN, so that softmax gives no tensor the sampler accepts,
    and it is [torch.multinomial] that raises; no token is drawn and the
    generator is left as it was. *)
Theorem zero_temperature_raises_at_the_first_draw (model : scorer)
    (idx : tensor) (max_new_tokens max_seq_length : Z) (temperature : Q)
    (top_k eos_id : option Z) (w : world) :
  tensor_in (heap w) idx →
  1 ≤ size idx →
  (0 < max_new_tokens)%Z →
  (0 < max_seq_length)%Z →
  scorer_ok model →
  valid_top_k top_k →
  (temperature == 0)%Q →
  divide_by_zero fp →
  softmax_nan fp →
  ∃ w',
    generate multinomial fp uninit model idx max_new_tokens max_seq_length
      temperature top_k eos_id w
    = (Raise err_multinomial, w') ∧
    new_events w w'
    = [Scored (window (size idx) max_seq_length (read (heap w) idx))] ∧
    rng w' = rng w.
Proof.
  intros Hin HT Hm Hmsl Hmodel Hk Htemp Hzero Hnan.
  rewrite generate_eq by (done || lia).
  set (b := fresh (dom (heap w))).
  set (buf := read (heap w) idx
              ++ (uninit <$> seq (size idx) (Z.to_nat max_new_tokens))).
  assert (Hbuf : length buf = size idx + Z.to_nat max_new_tokens)
    by by apply prologue_length.
  assert (Htake : take (size idx) buf = read (heap w) idx).
  { unfold buf. apply take_app_length'. by rewrite read_length. }
  destruct (Z.to_nat max_new_tokens) as [|n] eqn:En; [lia|].
  simpl. unfold mbind, M_bind.
  rewrite (loop_body_eq multinomial fp model b _ (size idx) max_seq_length
             temperature top_k eos_id (size idx) buf _
             (lookup_insert_eq _ _ _) Hbuf) by lia.
  unfold body_result. rewrite Htake.
  set (ctx := window (size idx) max_seq_length (read (heap w) idx)).
  assert (Hctx : ctx ≠ []).
  { apply window_nonempty; [done|]. intros Hnil.
    apply (f_equal length) in Hnil. rewrite read_length in Hnil by done.
    simpl in Hnil. lia. }
  destruct (Hmodel ctx Hctx) as (rows & logits & Hrows & Hlast & Hne).
  set (scaled := div_temperature fp logits temperature).
  assert (Hnf : ∀ s q, s ∈ scaled → s ≠ Fin q).
  { intros s q Hs. unfold scaled, div_temperature in Hs.
    apply list_elem_of_fmap in Hs as (x & -> & _). by apply Hzero. }
  assert (Hsc : scaled ≠ []).
  { unfold scaled, div_temperature. by destruct logits. }
  assert (Hcrop : ∃ c, crop_top_k scaled top_k = Ok (mask_below c scaled)).
  { destruct top_k as [k|]; simpl in Hk.
    - destruct (crop_top_k_mask scaled k Hsc Hk) as (c & _ & Hc). by exists c.
    - exists NaN. by rewrite mask_below_nan. }
  destruct Hcrop as [c Hcrop].
  assert (Hs : step_probs fp model temperature top_k ctx
               = Raise err_multinomial).
  { unfold step_probs, next_token_probs, last_row. rewrite Hrows. simpl.
    rewrite Hlast. simpl. fold scaled. rewrite Hcrop. simpl.
    by rewrite (Hnan _ (mask_below_nonfinite c scaled Hnf)). }
  rewrite Hs. eexists. split; [reflexivity|]. simpl. split; [|done].
  by apply new_events_app.
Qed.

(** ** A [max_seq_length] below 1 *)

(** With [max_seq_length = -m <= 0] nothing is cropped to a length: Python's
    [idx_cond[-max_seq_length:]] then drops the [m] oldest tokens, and for
    [max_seq_length = 0] it is the whole sequence. *)
Theorem nonpositive_max_seq_length_drops_oldest (model : scorer)
    (idx : tensor) (max_new_tokens max_seq_length : Z) (temperature : Q)
    (top_k eos_id : option Z) (w : world) r w' (i : nat) (ctx : list Z) :
  tensor_in (heap w) idx →
  (max_seq_length ≤ 0)%Z →
  generate multinomial fp uninit model idx max_new_tokens max_seq_length
    temperature top_k eos_id w
  = (r, w') →
  contexts (new_events w w') !! i = Some ctx →
  ctx = drop (Z.to_nat (- max_seq_length))
          (read (heap w) idx ++ take i (samples (new_events w w'))).
Proof.
  intros Hin Hmsl Hrun Hi.
  destruct (decide (max_new_tokens < 0)%Z) as [Hneg|Hpos].
  { pose proof (generate_negative multinomial fp uninit model idx
                  max_new_tokens max_seq_length temperature top_k eos_id w
                  Hneg) as H.
    simpl in H. rewrite Hrun in H. destruct H as (_ & Htr & _).
    rewrite (new_events_app w w' []) in Hi by by rewrite app_nil_r. done. }
  assert (Hm : (0 ≤ max_new_tokens)%Z) by lia.
  destruct (generate_summary multinomial fp uninit _ _ _ _ _ _ _ _ _ _
              Hin Hm Hrun)
    as (buf' & _ & _ & _ & _ & _ & _ & _ & Hctx & _).
  destruct (Hctx i ctx Hi) as (-> & _).
  set (s := read (heap w) idx ++ take i (samples (new_events w w'))).
  unfold window, drop_from.
  destruct (Z.leb_spec (Z.of_nat (size idx)) max_seq_length) as [Hle|Hgt].
  - replace (Z.to_nat (- max_seq_length)) with 0 by lia. done.
  - unfold slice_start.
    destruct (Z.ltb_spec (- max_seq_length) 0) as [?|_]; [lia|].
    destruct (decide (Z.to_nat (- max_seq_length) ≤ length s)) as [Hs|Hs].
    + by rewrite Nat.min_l.
    + rewrite Nat.min_r by lia. by rewrite !drop_ge by lia.
Qed.

End FurtherProofs.

(** ** The distributions of a run *)

(** In every run on real-number arithmetic, every distribution a token is
    drawn from sums to one and has its entries between 0 and 1. *)
Theorem generate_draws_from_normalised_distributions {rng_state : Type}
    (multinomial : rng_state → list score → Z * rng_state) (exp : Q → Q)
    (uninit : nat → Z) (model : scorer)
    (idx : tensor) (max_new_tokens max_seq_length : Z) (temperature : Q)
    (top_k eos_id : option Z) (w : world rng_state) r w'
    (probs : list score) (tok : Z) :
  tensor_in (heap w) idx →
  generate multinomial (exact exp) uninit model idx max_new_tokens
    max_seq_length temperature top_k eos_id w
  = (r, w') →
  Sampled probs tok ∈ new_events w w' →
  ∃ ps, probs = Fin <$> ps ∧
        (Qsum ps == 1)%Q ∧ ∀ p, p ∈ ps → (0 <= p)%Q ∧ (p <= 1)%Q.
Proof.
  intros Hin Hrun Hev.
  destruct (decide (max_new_tokens < 0)%Z) as [Hneg|Hpos].
  { pose proof (generate_negative multinomial (exact exp) uninit model idx
                  max_new_tokens max_seq_length temperature top_k eos_id w
                  Hneg) as H.
    simpl in H. rewrite Hrun in H. destruct H as (_ & Htr & _).
    rewrite (new_events_app w w' []) in Hev by by rewrite app_nil_r.
    by apply elem_of_nil in Hev. }
  assert (Hm : (0 ≤ max_new_tokens)%Z) by lia.
  pose proof (generate_log _ _ _ _ _ _ _ _ _ _ _ _ _ Hin Hm Hrun) as Hlog.
  destruct (run_log_sampled _ _ _ _ _ _ _ _ _ _ _ Hlog Hev) as [ctx Hs].
  unfold step_probs in Hs.
  destruct (model ctx) as [rows|]; [|done]. simpl in Hs.
  unfold next_token_probs in Hs.
  destruct (last_row rows) as [logits|]; [|done]. simpl in Hs.
  destruct (crop_top_k _ top_k) as [masked|]; [|done]. simpl in Hs.
  destruct (valid_distribution (exact_softmax exp masked)) eqn:Ev; [|done].
  injection Hs as <-. by apply accepted_probs_normalised.
Qed.

(** ** [main] *)

Section MainProofs.

Context {rng_state : Type}.
Variable multinomial : rng_state → list score → Z * rng_state.
Variable fp : numerics.
Variable uninit : nat → Z.

#[local] Abbreviation world := (world rng_state).

(** The store after a run: as before, or with the new buffer added. *)
Lemma generate_heap (model : scorer) (idx : tensor)
    (max_new_tokens max_seq_length : Z) (temperature : Q)
    (top_k eos_id : option Z) (w : world) r w' :
  tensor_in (heap w) idx →
  generate multinomial fp uninit model idx max_new_tokens max_seq_length
    temperature top_k eos_id w
  = (r, w') →
  heap w' = heap w ∨ ∃ buf', heap w' = <[fresh (dom (heap w)) := buf']> (heap w).
Proof.
  intros Hin Hrun. destruct (decide (max_new_tokens < 0)%Z) as [Hm|Hm].
  - pose proof (generate_negative multinomial fp uninit model idx
                  max_new_tokens max_seq_length temperature top_k eos_id w Hm)
      as H.
    simpl in H. rewrite Hrun in H. simpl in H. apply H.
  - assert (Hm0 : (0 ≤ max_new_tokens)%Z) by lia.
    destruct (generate_summary multinomial fp uninit _ _ _ _ _ _ _ _ _ _
                Hin Hm0 Hrun) as (buf' & Hh & _).
    right. by exists buf'.
Qed.

(** A tensor of the caller is still there, unchanged, after a run. *)
Lemma generate_keeps_tensor (model : scorer) (idx : tensor)
    (max_new_tokens max_seq_length : Z) (temperature : Q)
    (top_k eos_id : option Z) (w : world) r w' :
  tensor_in (heap w) idx →
  generate multinomial fp uninit model idx max_new_tokens max_seq_length
    temperature top_k eos_id w
  = (r, w') →
  tensor_in (heap w') idx ∧ read (heap w') idx = read (heap w) idx.
Proof.
  intros Hin Hrun.
  assert (Hl : heap w' !! storage idx = heap w !! storage idx).
  { destruct (generate_heap _ _ _ _ _ _ _ _ _ _ Hin Hrun) as [->|[buf' ->]];
      [done|].
    rewrite lookup_insert_ne; [done|]. intros Heq.
    by apply (fresh_storage _ _ Hin). }
  split.
  - destruct Hin as (buf & Hb & Hle). exists buf. by rewrite Hl.
  - unfold read, contents. by rewrite Hl.
Qed.

Lemma run_log_app (model : scorer) (temperature : Q) (top_k : option Z)
    (g g' g'' : rng_state) (evs evs' : list event) (o o' : option exn) :
  run_log multinomial fp model temperature top_k g evs g' o → o = None →
  run_log multinomial fp model temperature top_k g' evs' g'' o' →
  run_log multinomial fp model temperature top_k g (evs ++ evs') g'' o'.
Proof.
  induction 1 as [| |g ctx probs evs g' o Hs Hlog IH]; intros Ho Hnext.
  - done.
  - done.
  - simpl. apply log_step; [done|]. by apply IH.
Qed.

(** A run without [eos_id] none of whose contexts is longer than the model
    supports draws all [max_new_tokens] tokens. *)
Lemma generate_full_run (model : scorer) (idx : tensor)
    (max_new_tokens max_seq_length : Z) (temperature : Q)
    (top_k : option Z) (w : world) :
  tensor_in (heap w) idx → 1 ≤ size idx → (0 ≤ max_new_tokens)%Z →
  (0 < max_seq_length)%Z → valid_top_k top_k →
  scorer_upto max_seq_length model →
  (max_seq_length < Z.of_nat (size idx)
   ∨ Z.of_nat (size idx) + max_new_tokens - 1 ≤ max_seq_length)%Z →
  scales_finitely fp model temperature → softmax_ok fp →
  ∃ out w' evs,
    generate multinomial fp uninit model idx max_new_tokens max_seq_length
      temperature top_k None w
    = (Ok out, w') ∧
    trace w' = trace w ++ evs ∧
    read (heap w') out = read (heap w) idx ++ samples evs ∧
    length (samples evs) = Z.to_nat max_new_tokens ∧
    length (contexts evs) = Z.to_nat max_new_tokens ∧
    run_log multinomial fp model temperature top_k (rng w) evs (rng w') None.
Proof.
  intros Hin HT Hm Hmsl Hk Hmodel Hfit Hdiv Hsoft.
  destruct (generate multinomial fp uninit model idx max_new_tokens
              max_seq_length temperature top_k None w) as [r w'] eqn:Hrun.
  destruct (generate_summary multinomial fp uninit _ _ _ _ _ _ _ _ _ _
              Hin Hm Hrun)
    as (buf' & Hh & Htr & Hlen & Hmn & Hpre & Hs & _ & _ & Hout).
  pose proof (generate_log multinomial fp uninit _ _ _ _ _ _ _ _ _ _
                Hin Hm Hrun) as Hlog.
  assert (Hok : is_ok r = true).
  { pose proof Hrun as Hrun'. rewrite generate_eq in Hrun' by done.
    pose proof (generate_loop_ok multinomial fp model (fresh (dom (heap w)))
      (size idx + Z.to_nat max_new_tokens) (size idx) max_seq_length
      temperature top_k None (Z.to_nat max_new_tokens) Hmodel Hdiv Hsoft Hk
      Hmsl (size idx) _
      (World (<[fresh (dom (heap w)) :=
                  read (heap w) idx
                  ++ (uninit <$> seq (size idx) (Z.to_nat max_new_tokens))]>
                (heap w)) (rng w) (trace w))
      (lookup_insert_eq _ _ _) (prologue_length uninit idx (heap w) _ Hin)
      eq_refl HT) as H.
    rewrite Hrun' in H. apply H. lia. }
  destruct r as [out|e]; [|done]. simpl in Hout, Hlog.
  destruct Hout as (-> & Hc & _ & Hend & _).
  set (evs := new_events w w') in *.
  assert (Hfull : length (samples evs) = Z.to_nat max_new_tokens).
  { destruct (decide (length (samples evs) < Z.to_nat max_new_tokens))
      as [Hlt|]; [|lia].
    by destruct (Hend Hlt) as (tok & _ & ?). }
  eexists _, w', evs. split_and!; try done; [|lia].
  rewrite (read_prefix _ _ buf') by (rewrite Hh; apply lookup_insert_eq).
  rewrite <- take_take_drop. by rewrite Hpre, Hs.
Qed.

Variable seed_everything : Z → rng_state.
Variable elapsed : nat → Q.
Variable cuda : bool.

Lemma stdout_app (l1 l2 : list line) : stdout (l1 ++ l2) = stdout l1 ++ stdout l2.
Proof. unfold stdout. apply omap_app. Qed.

Lemma sample_loop_full (model : scorer) (tok : tokenizer) (ep : tensor)
    (max_new_tokens block_size top_k : Z) (temperature : Q) (n : nat) :
  1 ≤ size ep → (0 ≤ max_new_tokens)%Z → (0 < block_size)%Z →
  (1 ≤ top_k)%Z → scorer_upto block_size model →
  (block_size < Z.of_nat (size ep)
   ∨ Z.of_nat (size ep) + max_new_tokens - 1 ≤ block_size)%Z →
  scales_finitely fp model temperature → softmax_ok fp →
  ∀ (i : nat) (s : process rng_state),
    tensor_in (heap (mem s)) ep →
    (∀ j, i ≤ j < i + n → ¬ (elapsed j == 0)%Q) →
    ∃ s' gens ls evs,
      sample_loop multinomial fp uninit elapsed model tok ep max_new_tokens
        block_size top_k temperature n i s
      = (None, s') ∧
      length gens = n ∧
      Forall (λ g, length g = Z.to_nat max_new_tokens) gens ∧
      printed s' = printed s ++ ls ∧
      stdout ls
      = (λ g, decode tok (read (heap (mem s)) ep ++ g)) <$> gens ∧
      trace (mem s') = trace (mem s) ++ evs ∧
      samples evs = concat gens ∧
      length (contexts evs) = n * Z.to_nat max_new_tokens ∧
      run_log multinomial fp model temperature (Some top_k)
        (rng (mem s)) evs (rng (mem s')) None.
Proof.
  intros HT Hm Hbs Hk Hmodel Hfit Hdiv Hsoft.
  induction n as [|n IH]; intros i s Hin Hclock.
  { exists s, [], [], []. simpl. rewrite !app_nil_r.
    split_and!; try done. constructor. }
  simpl.
  destruct (generate_full_run model ep max_new_tokens block_size temperature
              (Some top_k) (mem s) Hin HT Hm Hbs Hk Hmodel Hfit Hdiv Hsoft)
    as (y & w' & evs & Hrun & Htr & Hread & Hs & Hc & Hlog).
  rewrite Hrun.
  destruct (generate_keeps_tensor _ _ _ _ _ _ _ _ _ _ Hin Hrun) as [Hin' Hp].
  destruct (Qeq_bool (elapsed i) 0) eqn:Ei.
  { apply Qeq_bool_iff in Ei. by apply (Hclock i) in Ei; [|lia]. }
  match goal with
  | |- context [sample_loop _ _ _ _ _ _ _ _ _ _ _ n (S i) ?s1] => set (s1' := s1)
  end.
  destruct (IH (S i) s1') as (s' & gens & ls & evs' & Hloop & Hlen & Hall & Hpr
                              & Hout & Htr' & Hsam & Hctx & Hlog').
  { exact Hin'. }
  { intros j Hj. apply Hclock. lia. }
  rewrite Hloop.
  exists s', (samples evs :: gens),
    ([Out (decode tok (read (heap w') y));
      Err_inference i (elapsed i) (inject_Z max_new_tokens / elapsed i)] ++ ls),
    (evs ++ evs').
  split_and!.
  - done.
  - simpl. by rewrite Hlen.
  - by constructor.
  - rewrite Hpr. unfold s1', print. simpl. by rewrite <- !app_assoc.
  - rewrite stdout_app, Hout. simpl. rewrite Hread. f_equal.
    apply list_fmap_ext. intros ? g _. simpl in *. by rewrite Hp.
  - rewrite Htr'. unfold s1'. simpl. by rewrite Htr, app_assoc.
  - rewrite samples_app, Hsam. done.
  - rewrite contexts_app, length_app, Hctx, Hc. lia.
  - eapply run_log_app; [exact Hlog|done|exact Hlog'].
Qed.

(** Take a checkpoint that loads, with a model that answers every non-empty
    context of at most [block_size] tokens, a prompt that encodes to at
    least one token, [0 <= max_new_tokens], [1 <= top_k], a temperature at
    which the division of the logits does not overflow, and a clock that
    advances.  If no context is longer than [block_size] (the encoded prompt
    is longer and is cropped, or [T + max_new_tokens - 1 <= block_size]),
    [main] returns normally after printing exactly [num_samples] samples.
    As [main] never passes [eos_id], each sample is the decoding of the
    encoded prompt followed by exactly [max_new_tokens] drawn tokens, and
    the model is called [num_samples * max_new_tokens] times.  The
    generator is seeded once: the first draw is made from the state
    [seed_everything 1234] gives, every later draw, across the samples, from
    the state the draw before it left. *)
Theorem main_prints_full_length_samples (model : scorer) (tok : tokenizer)
    (block_size : Z) (prompt : string)
    (num_samples max_new_tokens top_k : Z) (temperature : Q)
    (s : process rng_state) :
  scorer_upto block_size model →
  scales_finitely fp model temperature →
  softmax_ok fp →
  encode tok prompt ≠ [] →
  (0 ≤ max_new_tokens)%Z →
  (0 < block_size)%Z →
  (1 ≤ top_k)%Z →
  (block_size < Z.of_nat (length (encode tok prompt))
   ∨ Z.of_nat (length (encode tok prompt)) + max_new_tokens - 1
     ≤ block_size)%Z →
  (∀ i, i < Z.to_nat num_samples → ¬ (elapsed i == 0)%Q) →
  ∃ s' gens,
    main multinomial fp uninit true (Some block_size) (Some model) (Some tok)
      seed_everything elapsed cuda prompt num_samples max_new_tokens top_k
      temperature s
    = (None, s') ∧
    length gens = Z.to_nat num_samples ∧
    Forall (λ g, length g = Z.to_nat max_new_tokens) gens ∧
    stdout (new_lines s s')
    = (λ g, decode tok (encode tok prompt ++ g)) <$> gens ∧
    samples (new_events (mem s) (mem s')) = concat gens ∧
    length (contexts (new_events (mem s) (mem s')))
    = Z.to_nat num_samples * Z.to_nat max_new_tokens ∧
    run_log multinomial fp model temperature (Some top_k)
      (seed_everything 1234) (new_events (mem s) (mem s')) (rng (mem s'))
      None.
Proof.
  intros Hmodel Hdiv Hsoft Hp Hm Hbs Hk Hfit Hclock.
  unfold main, new_tensor. simpl.
  set (l := fresh (dom (heap (mem s)))).
  set (ep := Tensor l 0 (length (encode tok prompt))).
  match goal with
  | |- context [sample_loop _ _ _ _ _ _ _ _ _ _ _ _ 0 ?s0] => set (s0' := s0)
  end.
  assert (Hin : tensor_in (heap (mem s0')) ep).
  { exists (encode tok prompt). simpl. split; [apply lookup_insert_eq|lia]. }
  assert (Hread : read (heap (mem s0')) ep = encode tok prompt).
  { unfold read, contents. simpl. rewrite lookup_insert_eq. simpl.
    by rewrite firstn_all. }
  destruct (sample_loop_full model tok ep max_new_tokens block_size top_k
              temperature (Z.to_nat num_samples)) with (i := 0) (s := s0')
    as (s' & gens & ls & evs & Hloop & Hlen & Hall & Hpr & Hout & Htr & Hsam
        & Hctx & Hlog); try done.
  { simpl. destruct (encode tok prompt); [done|simpl; lia]. }
  { intros j Hj. apply Hclock. lia. }
  rewrite Hloop, Hread in *.
  exists (if cuda then print Err_memory s' else s'), gens.
  assert (Hmem : mem (if cuda then print Err_memory s' else s') = mem s')
    by by destruct cuda.
  assert (Hlines : ∃ tail, stdout tail = [] ∧
            printed (if cuda then print Err_memory s' else s')
            = printed s ++ [Err_loading; Err_loaded] ++ ls ++ tail).
  { destruct cuda; simpl.
    - exists [Err_memory]. split; [done|]. rewrite Hpr. unfold s0'. simpl.
      by rewrite <- !app_assoc.
    - exists []. split; [done|]. rewrite Hpr. unfold s0'. simpl.
      by rewrite app_nil_r, <- !app_assoc. }
  destruct Hlines as (tail & Htail & Hlines).
  assert (Hevs : new_events (mem s) (mem s') = evs).
  { apply new_events_app. rewrite Htr. done. }
  split_and!; try done.
  - unfold new_lines. rewrite Hlines, drop_app_length.
    rewrite !stdout_app, Htail, app_nil_r. simpl. done.
  - by rewrite Hmem, Hevs.
  - by rewrite Hmem, Hevs.
  - by rewrite Hmem, Hevs.
Qed.

(** Two runs of [generate] on equal prompt tokens, from the same generator
    state, in two stores. *)
Lemma generate_same (model : scorer) (idx1 idx2 : tensor)
    (max_new_tokens max_seq_length : Z) (temperature : Q)
    (top_k eos_id : option Z) (w1 w2 : world) :
  tensor_in (heap w1) idx1 → tensor_in (heap w2) idx2 →
  read (heap w1) idx1 = read (heap w2) idx2 → rng w1 = rng w2 →
  let x1 := generate multinomial fp uninit model idx1 max_new_tokens
              max_seq_length temperature top_k eos_id w1 in
  let x2 := generate multinomial fp uninit model idx2 max_new_tokens
              max_seq_length temperature top_k eos_id w2 in
  output x1 = output x2 ∧ rng x1.2 = rng x2.2.
Proof.
  intros Hin1 Hin2 Hread Hrng x1 x2.
  assert (Hsize : size idx1 = size idx2).
  { rewrite <- (read_length _ _ Hin1), <- (read_length _ _ Hin2).
    by rewrite Hread. }
  destruct (decide (max_new_tokens < 0)%Z) as [Hm|Hm].
  - pose proof (generate_negative multinomial fp uninit model idx1
                  max_new_tokens max_seq_length temperature top_k eos_id w1 Hm)
      as H1.
    pose proof (generate_negative multinomial fp uninit model idx2
                  max_new_tokens max_seq_length temperature top_k eos_id w2 Hm)
      as H2.
    simpl in H1, H2. fold x1 in H1. fold x2 in H2.
    destruct H1 as (Hr1 & _ & _ & Ha1 & Hb1 & Hc1).
    destruct H2 as (Hr2 & _ & _ & Ha2 & Hb2 & Hc2).
    rewrite <- Hsize in Ha2, Hb2, Hc2.
    split; [|congruence]. unfold output.
    destruct (decide (Z.of_nat (size idx1) + max_new_tokens < 0)%Z) as [Hlt|Hge].
    { by rewrite (Ha1 Hlt), (Ha2 Hlt). }
    destruct (decide (size idx1 = 1)) as [He|He].
    + by rewrite (Hc1 ltac:(lia) He), (Hc2 ltac:(lia) He).
    + by rewrite (Hb1 ltac:(lia) He), (Hb2 ltac:(lia) He).
  - assert (Hm0 : (0 ≤ max_new_tokens)%Z) by lia.
    subst x1 x2. rewrite !generate_eq by done. rewrite <- Hsize.
    set (b1 := fresh (dom (heap w1))).
    set (b2 := fresh (dom (heap w2))).
    set (buf1 := read (heap w1) idx1
                 ++ (uninit <$> seq (size idx1) (Z.to_nat max_new_tokens))).
    set (buf2 := read (heap w2) idx2
                 ++ (uninit <$> seq (size idx1) (Z.to_nat max_new_tokens))).
    assert (HL1 : length buf1 = size idx1 + Z.to_nat max_new_tokens)
      by by apply prologue_length.
    assert (HL2 : length buf2 = size idx1 + Z.to_nat max_new_tokens).
    { unfold buf2. rewrite Hsize. by apply prologue_length. }
    assert (Hpre : take (size idx1) buf1 = take (size idx1) buf2).
    { unfold buf1, buf2.
      rewrite !take_app_length'; [done|by rewrite read_length..]. }
    destruct (generate_loop_sim multinomial fp model b1 b2
                (size idx1 + Z.to_nat max_new_tokens) (size idx1)
                max_seq_length temperature top_k eos_id
                (Z.to_nat max_new_tokens) (size idx1) buf1 buf2
                (World (<[b1 := buf1]> (heap w1)) (rng w1) (trace w1))
                (World (<[b2 := buf2]> (heap w2)) (rng w2) (trace w2))
                (lookup_insert_eq _ _ _) (lookup_insert_eq _ _ _)
                HL1 HL2 eq_refl Hpre Hrng)
      as (Hout & Hr & _).
    by split.
Qed.

Lemma sample_loop_sim (model : scorer) (tok : tokenizer) (ep1 ep2 : tensor)
    (max_new_tokens block_size top_k : Z) (temperature : Q) (n : nat) :
  ∀ (i : nat) (s1 s2 : process rng_state),
    tensor_in (heap (mem s1)) ep1 → tensor_in (heap (mem s2)) ep2 →
    read (heap (mem s1)) ep1 = read (heap (mem s2)) ep2 →
    rng (mem s1) = rng (mem s2) →
    let x1 := sample_loop multinomial fp uninit elapsed model tok ep1
                max_new_tokens block_size top_k temperature n i s1 in
    let x2 := sample_loop multinomial fp uninit elapsed model tok ep2
                max_new_tokens block_size top_k temperature n i s2 in
    x1.1 = x2.1 ∧
    ∃ ls, printed x1.2 = printed s1 ++ ls ∧ printed x2.2 = printed s2 ++ ls.
Proof.
  induction n as [|n IH]; intros i s1 s2 Hin1 Hin2 Hread Hrng.
  { simpl. split; [done|]. exists []. by rewrite !app_nil_r. }
  simpl.
  pose proof (generate_same model ep1 ep2 max_new_tokens block_size temperature
                (Some top_k) None (mem s1) (mem s2) Hin1 Hin2 Hread Hrng)
    as [Hout Hr].
  destruct (generate multinomial fp uninit model ep1 max_new_tokens block_size
              temperature (Some top_k) None (mem s1)) as [r1 w1] eqn:E1.
  destruct (generate multinomial fp uninit model ep2 max_new_tokens block_size
              temperature (Some top_k) None (mem s2)) as [r2 w2] eqn:E2.
  destruct (generate_keeps_tensor _ _ _ _ _ _ _ _ _ _ Hin1 E1) as [Hin1' Hp1].
  destruct (generate_keeps_tensor _ _ _ _ _ _ _ _ _ _ Hin2 E2) as [Hin2' Hp2].
  unfold output in Hout. simpl in Hout, Hr.
  destruct r1 as [y1|e1], r2 as [y2|e2]; try done.
  2:{ injection Hout as ->. simpl. split; [done|].
      exists []. by rewrite !app_nil_r. }
  injection Hout as Hout. rewrite Hout.
  destruct (Qeq_bool (elapsed i) 0).
  { simpl. split; [done|]. by eexists. }
  match goal with
  | |- context [sample_loop _ _ _ _ _ _ ep1 _ _ _ _ n (S i) ?s] => set (s1' := s)
  end.
  match goal with
  | |- context [sample_loop _ _ _ _ _ _ ep2 _ _ _ _ n (S i) ?s] => set (s2' := s)
  end.
  destruct (IH (S i) s1' s2') as (Hres & ls & Hl1 & Hl2); try done.
  { simpl. congruence. }
  split; [done|].
  exists ([Out (decode tok (read (heap w2) y2));
           Err_inference i (elapsed i) (inject_Z max_new_tokens / elapsed i)]
          ++ ls).
  rewrite Hl1, Hl2. unfold s1', s2', print. simpl.
  by rewrite <- !app_assoc.
Qed.

(** [main] seeds the generators itself, with the constant 1234, before the
    first sample.  So two invocations in the same environment end the same
    way and print the same lines, whatever the generator state and the
    tensors that existed before each of them. *)
Theorem main_is_reproducible (is_dir : bool) (load_config : option Z)
    (load_model : option scorer) (load_tokenizer : option tokenizer)
    (prompt : string) (num_samples max_new_tokens top_k : Z)
    (temperature : Q) (s1 s2 : process rng_state) :
  let x1 := main multinomial fp uninit is_dir load_config load_model
              load_tokenizer seed_everything elapsed cuda prompt num_samples
              max_new_tokens top_k temperature s1 in
  let x2 := main multinomial fp uninit is_dir load_config load_model
              load_tokenizer seed_everything elapsed cuda prompt num_samples
              max_new_tokens top_k temperature s2 in
  x1.1 = x2.1 ∧ new_lines s1 x1.2 = new_lines s2 x2.2.
Proof.
  unfold main, new_lines.
  destruct is_dir; simpl; [|by rewrite !drop_all].
  destruct load_config as [block_size|]; simpl; [|by rewrite !drop_all].
  destruct load_model as [model|]; simpl;
    [|by rewrite !drop_app_length].
  destruct load_tokenizer as [tok|]; simpl;
    [|by rewrite <- !app_assoc, !drop_app_length].
  match goal with
  | |- context [sample_loop _ _ _ _ _ _ ?e _ _ _ _ _ 0
                  (Process (World (<[_ := _]> (heap (mem s1))) _ _) _)] =>
      set (ep1 := e)
  end.
  match goal with
  | |- context [sample_loop _ _ _ _ _ _ ?e _ _ _ _ _ 0
                  (Process (World (<[_ := _]> (heap (mem s2))) _ _) _)] =>
      set (ep2 := e)
  end.
  match goal with
  | |- context [sample_loop _ _ _ _ _ _ ep1 _ _ _ _ _ 0 ?s] => set (s1' := s)
  end.
  match goal with
  | |- context [sample_loop _ _ _ _ _ _ ep2 _ _ _ _ _ 0 ?s] => set (s2' := s)
  end.
  assert (Hread : ∀ (h : gmap loc (list Z)) l vals,
            read (<[l := vals]> h) (Tensor l 0 (length vals)) = vals).
  { intros h l vals. unfold read, contents. simpl. rewrite lookup_insert_eq.
    simpl. by rewrite firstn_all. }
  destruct (sample_loop_sim model tok ep1 ep2 max_new_tokens block_size top_k
              temperature (Z.to_nat num_samples) 0 s1' s2')
    as (Hres & ls & Hl1 & Hl2).
  - eexists. simpl. split; [apply lookup_insert_eq|simpl; lia].
  - eexists. simpl. split; [apply lookup_insert_eq|simpl; lia].
  - unfold s1', s2', ep1, ep2. simpl. by rewrite !Hread.
  - done.
  - destruct (sample_loop _ _ _ _ _ _ ep1 _ _ _ _ _ 0 s1') as [o1 t1].
    destruct (sample_loop _ _ _ _ _ _ ep2 _ _ _ _ _ 0 s2') as [o2 t2].
    simpl in Hres, Hl1, Hl2. subst o2.
    assert (Hgoal : ∀ t : process rng_state, ∀ s : process rng_state,
              ∀ tail,
              printed t = ((printed s ++ [Err_loading]) ++ [Err_loaded]) ++ ls →
              drop (length (printed s)) (printed t ++ tail)
              = [Err_loading; Err_loaded] ++ ls ++ tail).
    { intros t s tail ->. rewrite <- !app_assoc. by rewrite drop_app_length. }
    destruct o1 as [e|]; simpl.
    + split; [done|].
      rewrite <- (app_nil_r (printed t1)), <- (app_nil_r (printed t2)).
      by rewrite (Hgoal t1 s1 [] Hl1), (Hgoal t2 s2 [] Hl2).
    + split; [done|]. destruct cuda; simpl.
      * by rewrite (Hgoal t1 s1 _ Hl1), (Hgoal t2 s2 _ Hl2).
      * rewrite <- (app_nil_r (printed t1)), <- (app_nil_r (printed t2)).
        by rewrite (Hgoal t1 s1 [] Hl1), (Hgoal t2 s2 [] Hl2).
Qed.

Lemma sample_loop_count (model : scorer) (tok : tokenizer) (ep : tensor)
    (max_new_tokens block_size top_k : Z) (temperature : Q) (n : nat) :
  ∀ (i : nat) (s : process rng_state),
    let x := sample_loop multinomial fp uninit elapsed model tok ep
               max_new_tokens block_size top_k temperature n i s in
    ∃ ls,
      printed x.2 = printed s ++ ls ∧
      length (stdout ls) ≤ n ∧
      (x.1 = None → length (stdout ls) = n) ∧
      x.1 ≠ Some OSError ∧ x.1 ≠ Some LoadError.
Proof.
  induction n as [|n IH]; intros i s.
  { simpl. exists []. by rewrite app_nil_r. }
  simpl.
  destruct (generate multinomial fp uninit model ep max_new_tokens block_size
              temperature (Some top_k) None (mem s)) as [[y|e] w'].
  2:{ simpl. exists []. rewrite app_nil_r.
      split_and!; [done|simpl; lia|done|done|done]. }
  destruct (Qeq_bool (elapsed i) 0).
  { simpl. eexists. split_and!; [done|simpl; lia|done|done|done]. }
  match goal with
  | |- context [sample_loop _ _ _ _ _ _ _ _ _ _ _ n (S i) ?s1] => set (s1' := s1)
  end.
  destruct (IH (S i) s1') as (ls & Hpr & Hle & Heq & Hos & Hload).
  exists ([Out (decode tok (read (heap w') y));
           Err_inference i (elapsed i) (inject_Z max_new_tokens / elapsed i)]
          ++ ls).
  split_and!; [| | |done|done].
  - rewrite Hpr. unfold s1', print. simpl. by rewrite <- !app_assoc.
  - rewrite stdout_app. simpl. lia.
  - intros Hnone. rewrite stdout_app. simpl. by rewrite Heq.
Qed.

(** Whatever the environment and the parameters, [main] prints at most
    [num_samples] samples (none for [num_samples <= 0]), exactly that many
    when it returns normally, and none when the checkpoint directory is
    missing or a loader raises; the exception of lines 99 to 103 is raised
    exactly when the checkpoint directory is missing. *)
Theorem main_prints_at_most_num_samples (is_dir : bool)
    (load_config : option Z) (load_model : option scorer)
    (load_tokenizer : option tokenizer) (prompt : string)
    (num_samples max_new_tokens top_k : Z) (temperature : Q)
    (s : process rng_state) :
  let x := main multinomial fp uninit is_dir load_config load_model
             load_tokenizer seed_everything elapsed cuda prompt num_samples
             max_new_tokens top_k temperature s in
  let count := length (stdout (new_lines s x.2)) in
  count ≤ Z.to_nat num_samples ∧
  (x.1 = None → count = Z.to_nat num_samples) ∧
  (x.1 = Some OSError ∨ x.1 = Some LoadError → count = 0) ∧
  (x.1 = Some OSError ↔ is_dir = false).
Proof.
  unfold main, new_lines.
  destruct is_dir; simpl.
  2:{ rewrite drop_all. simpl. split_and!; (done || lia || by split). }
  destruct load_config as [block_size|]; simpl.
  2:{ rewrite drop_all. simpl. split_and!; (done || lia || by split). }
  destruct load_model as [model|]; simpl.
  2:{ rewrite drop_app_length. simpl. split_and!; (done || lia || by split). }
  destruct load_tokenizer as [tok|]; simpl.
  2:{ rewrite <- app_assoc, drop_app_length. simpl.
      split_and!; (done || lia || by split). }
  match goal with
  | |- context [sample_loop _ _ _ _ _ _ ?e _ _ _ _ _ 0 ?s0] =>
      set (ep := e); set (s0' := s0)
  end.
  destruct (sample_loop_count model tok ep max_new_tokens block_size top_k
              temperature (Z.to_nat num_samples) 0 s0')
    as (ls & Hpr & Hle & Heq & Hos & Hload).
  destruct (sample_loop _ _ _ _ _ _ ep _ _ _ _ _ 0 s0') as [o t].
  simpl in Hpr, Heq, Hos, Hload.
  assert (Hdrop : ∀ tail,
            stdout (drop (length (printed s)) (printed t ++ tail))
            = stdout ls ++ stdout tail).
  { intros tail. rewrite Hpr. unfold s0'. simpl.
    rewrite <- !app_assoc, drop_app_length. simpl. by rewrite stdout_app. }
  destruct o as [e|]; simpl.
  - rewrite <- (app_nil_r (printed t)), Hdrop. simpl. rewrite app_nil_r.
    split_and!; [done|done| |by split].
    by intros [?|?].
  - assert (Hcount : length (stdout (drop (length (printed s))
                        (printed (if cuda then print Err_memory t else t))))
                     = Z.to_nat num_samples).
    { destruct cuda; simpl.
      - rewrite Hdrop. simpl. rewrite app_nil_r. by apply Heq.
      - rewrite <- (app_nil_r (printed t)), Hdrop. simpl.
        rewrite app_nil_r. by apply Heq. }
    rewrite Hcount. split_and!; [done|done| |by split].
    by intros [?|?].
Qed.

End MainProofs.

(** ** Witnesses of the further properties *)

Lemma stub_model_upto (n : Z) : scorer_upto n Stub.model.
Proof. intros ctx Hctx _. by apply stub_model_ok. Qed.

Lemma top_k_beyond_vocabulary_crops_nothing_witness :
  (∀ l : list score, length l = length Stub.logits →
     crop_top_k l (Some 200%Z) = Ok l) ∧
  next_token_probs Stub.fp (4 # 5) (Some 200%Z) [Stub.logits]
  = next_token_probs Stub.fp (4 # 5) None [Stub.logits].
Proof.
  apply (top_k_beyond_vocabulary_crops_nothing Stub.fp (4 # 5) 200
           [Stub.logits] Stub.logits).
  - reflexivity.
  - discriminate.
  - simpl. lia.
Defined.

Lemma top_k_monotone_witness :
  ∃ m1 m2,
    crop_top_k (Fin <$> [3; 1; 2]%Q) (Some 1%Z) = Ok m1 ∧
    crop_top_k (Fin <$> [3; 1; 2]%Q) (Some 2%Z) = Ok m2 ∧
    ∀ i x, m1 !! i = Some (Fin x) → m2 !! i = Some (Fin x).
Proof.
  apply (top_k_monotone [3; 1; 2]%Q 1 2).
  - discriminate.
  - lia.
  - lia.
Defined.

Lemma top_k_one_keeps_the_maxima_witness :
  ∃ m,
    crop_top_k (Fin <$> [3; 1; 3]%Q) (Some 1%Z) = Ok m ∧
    ∀ i x, [3; 1; 3]%Q !! i = Some x →
      (m !! i = Some (Fin x) ↔ ∀ y, y ∈ [3; 1; 3]%Q → (y <= x)%Q) ∧
      (m !! i = Some NegInf ↔ ∃ y, y ∈ [3; 1; 3]%Q ∧ (x < y)%Q).
Proof.
  apply (top_k_one_keeps_the_maxima [3; 1; 3]%Q). discriminate.
Defined.

Lemma generate_threads_the_generator_witness :
  let w := Stub.init [5; 9; 2]%Z [7; 3]%Z in
  let x := Stub.run [5; 9; 2]%Z [7; 3]%Z 2 10 1%Q None None in
  run_log Stub.sampler Stub.fp Stub.model 1%Q None
    (rng w) (new_events w x.2) (rng x.2) (raised x.1).
Proof.
  intros w x.
  apply (generate_threads_the_generator Stub.sampler Stub.fp Stub.uninit
           Stub.model (Stub.prompt [5; 9; 2]%Z) 2 10 1%Q None None w
           x.1 x.2).
  - apply stub_prompt_in.
  - lia.
  - apply surjective_pairing.
Defined.

Lemma generate_draws_from_normalised_distributions_witness :
  let probs := softmax Stub.fp (div_temperature Stub.fp Stub.logits 1) in
  ∃ ps, probs = Fin <$> ps ∧
        (Qsum ps == 1)%Q ∧ ∀ p, p ∈ ps → (0 <= p)%Q ∧ (p <= 1)%Q.
Proof.
  intros probs.
  pose (w := Stub.init [5; 9; 2]%Z [7; 3]%Z).
  pose (x := Stub.run [5; 9; 2]%Z [7; 3]%Z 2 10 1%Q None None).
  apply (generate_draws_from_normalised_distributions Stub.sampler Stub.exp
           Stub.uninit Stub.model (Stub.prompt [5; 9; 2]%Z) 2 10 1%Q None
           None w x.1 x.2 probs 7).
  - apply stub_prompt_in.
  - apply surjective_pairing.
  - vm_compute. right. left.
Defined.

Lemma generate_returns_prompt_then_draws_witness :
  let w := Stub.init [5; 9; 2]%Z [8; 9; 8]%Z in
  let x := Stub.run [5; 9; 2]%Z [8; 9; 8]%Z 3 2 1%Q (Some 2%Z) (Some 9%Z) in
  let out := Tensor 2%positive 0 5 in
  read (heap x.2) out = read (heap w) (Stub.prompt [5; 9; 2]%Z)
                        ++ samples (new_events w x.2) ∧
  length (contexts (new_events w x.2)) = length (samples (new_events w x.2)) ∧
  length (samples (new_events w x.2)) ≤ Z.to_nat 3.
Proof.
  intros w x out.
  apply (generate_returns_prompt_then_draws Stub.sampler Stub.fp Stub.uninit
           Stub.model (Stub.prompt [5; 9; 2]%Z) 3 2 1%Q (Some 2%Z)
           (Some 9%Z) w out x.2).
  - apply stub_prompt_in.
  - lia.
  - vm_compute. reflexivity.
Defined.

Lemma generate_returns_view_of_full_buffer_witness :
  let w := Stub.init [5; 9; 2]%Z [8; 9; 8]%Z in
  let x := Stub.run [5; 9; 2]%Z [8; 9; 8]%Z 3 2 1%Q (Some 2%Z) (Some 9%Z) in
  let out := Tensor 2%positive 0 5 in
  offset out = 0 ∧
  size out = 3 + length (samples (new_events w x.2)) ∧
  length (contents (heap x.2) (storage out)) = 3 + Z.to_nat 3 ∧
  contents (heap x.2) (storage out)
  = read (heap x.2) out
    ++ (Stub.uninit <$> seq (size out) (3 + Z.to_nat 3 - size out)).
Proof.
  intros w x out.
  apply (generate_returns_view_of_full_buffer Stub.sampler Stub.fp
           Stub.uninit Stub.model (Stub.prompt [5; 9; 2]%Z) 3 2 1%Q
           (Some 2%Z) (Some 9%Z) w out x.2).
  - apply stub_prompt_in.
  - lia.
  - vm_compute. reflexivity.
Defined.

Lemma scorer_failure_propagates_witness :
  let w := Stub.init [5; 9; 2]%Z [7; 3; 1; 4]%Z in
  let x := generate Stub.sampler Stub.fp Stub.uninit
             (Stub.limited_model 4) (Stub.prompt [5; 9; 2]%Z) 4 10 1%Q
             (Some 3%Z) None w in
  ∃ ctx,
    last (contexts (new_events w x.2)) = Some ctx ∧
    Stub.limited_model 4 ctx
    = Raise (RuntimeError "sequence longer than the block size") ∧
    length (contexts (new_events w x.2))
    = S (length (samples (new_events w x.2))) ∧
    take (3 + length (samples (new_events w x.2)))
      (contents (heap x.2) (fresh (dom (heap w))))
    = read (heap w) (Stub.prompt [5; 9; 2]%Z) ++ samples (new_events w x.2).
Proof.
  intros w x.
  apply (scorer_failure_propagates Stub.sampler Stub.fp Stub.uninit
           (Stub.limited_model 4) (Stub.prompt [5; 9; 2]%Z) 4 10 1%Q
           (Some 3%Z) None w
           (RuntimeError "sequence longer than the block size") x.2).
  - apply stub_prompt_in.
  - simpl. lia.
  - lia.
  - lia.
  - simpl. lia.
  - apply stub_limited_shaped.
  - apply stub_scales_finitely. intros H. discriminate H.
  - apply stub_softmax_ok.
  - vm_compute. reflexivity.
Defined.

Lemma nonpositive_top_k_raises_after_the_first_call_witness :
  let w := Stub.init [5; 9; 2]%Z [7; 3]%Z in
  ∃ w',
    generate Stub.sampler Stub.fp Stub.uninit Stub.model
      (Stub.prompt [5; 9; 2]%Z) 2 10 1%Q (Some 0%Z) None w
    = (Raise err_index, w') ∧
    new_events w w' = [Scored [5; 9; 2]%Z] ∧
    rng w' = rng w.
Proof.
  intros w.
  apply (nonpositive_top_k_raises_after_the_first_call Stub.sampler Stub.fp
           Stub.uninit Stub.model (Stub.prompt [5; 9; 2]%Z) 2 10 1%Q 0 None
           w).
  - apply stub_prompt_in.
  - simpl. lia.
  - lia.
  - lia.
  - apply stub_model_ok.
  - lia.
Defined.

Lemma zero_temperature_raises_at_the_first_draw_witness :
  let w := Stub.init [5; 9; 2]%Z [7; 3]%Z in
  ∃ w',
    generate Stub.sampler Stub.fp Stub.uninit Stub.model
      (Stub.prompt [5; 9; 2]%Z) 2 10 0%Q (Some 3%Z) None w
    = (Raise err_multinomial, w') ∧
    new_events w w' = [Scored [5; 9; 2]%Z] ∧
    rng w' = rng w.
Proof.
  intros w.
  apply (zero_temperature_raises_at_the_first_draw Stub.sampler Stub.fp
           Stub.uninit Stub.model (Stub.prompt [5; 9; 2]%Z) 2 10 0%Q
           (Some 3%Z) None w).
  - apply stub_prompt_in.
  - simpl. lia.
  - lia.
  - lia.
  - apply stub_model_ok.
  - simpl. lia.
  - reflexivity.
  - apply exact_divide_by_zero.
  - apply exact_softmax_nan.
Defined.

Lemma nonpositive_max_seq_length_drops_oldest_witness :
  let w := Stub.init [5; 9; 2]%Z [7; 3]%Z in
  let x := Stub.run [5; 9; 2]%Z [7; 3]%Z 2 (-1) 1%Q None None in
  [9; 2; 7]%Z
  = drop (Z.to_nat (- -1))
      (read (heap w) (Stub.prompt [5; 9; 2]%Z)
       ++ take 1 (samples (new_events w x.2))).
Proof.
  intros w x.
  apply (nonpositive_max_seq_length_drops_oldest Stub.sampler Stub.fp
           Stub.uninit Stub.model (Stub.prompt [5; 9; 2]%Z) 2 (-1) 1%Q None
           None w x.1 x.2 1 [9; 2; 7]%Z).
  - apply stub_prompt_in.
  - lia.
  - apply surjective_pairing.
  - vm_compute. reflexivity.
Defined.

Lemma main_prints_full_length_samples_witness :
  ∃ s' gens,
    StubMain.run "hi" 2 3 200 (4 # 5) = (None, s') ∧
    length gens = Z.to_nat 2 ∧
    Forall (λ g, length g = Z.to_nat 3) gens ∧
    stdout (new_lines StubMain.start s')
    = (λ g, decode StubMain.tok (encode StubMain.tok "hi" ++ g)) <$> gens ∧
    samples (new_events (mem StubMain.start) (mem s')) = concat gens ∧
    length (contexts (new_events (mem StubMain.start) (mem s')))
    = Z.to_nat 2 * Z.to_nat 3 ∧
    run_log Stub.sampler Stub.fp Stub.model (4 # 5) (Some 200%Z)
      (StubMain.seed 1234) (new_events (mem StubMain.start) (mem s'))
      (rng (mem s')) None.
Proof.
  apply (main_prints_full_length_samples Stub.sampler Stub.fp Stub.uninit
           StubMain.seed StubMain.elapsed false Stub.model StubMain.tok 16
           "hi" 2 3 200 (4 # 5) StubMain.start).
  - apply stub_model_upto.
  - apply stub_scales_finitely. intros H. discriminate H.
  - apply stub_softmax_ok.
  - discriminate.
  - lia.
  - lia.
  - lia.
  - right. vm_compute. discriminate.
  - intros i _ H. discriminate H.
Defined.
